(** * voice2synth: the granular synthesis engine and its control interface

    A shallow embedding of
    - [worklets/granular-processor.js]: [RingRNG], [Voice], [Grain],
      [GranularProcessor] ([handleMessage], [scheduleGrainForVoice],
      [applyEQ], [process]), [readInterp], [clamp], [clampInt],
      [onePoleAlpha];
    - [js/audio/samplerInstrument.js]: the segment slice and
      [applyEdgeFades] of [createGranularInstrument], the buffer message of
      [tryCreateWorkletEngine] with its transfer list, the worklet branch
      of the instrument ([noteOn], [noteOff], [makeIdGen],
      [midiToPlaybackRate], [setParams], [dispose]), and [updateEq];
    - [workers/pitchWorker.js]: [nextPow2] and the frame layout of
      [onmessage];
    - [js/audio/pitchToMidi.js]: [varint], [u24], the tempo of
      [exportMidi], [quantizeNotes], [gridToDenom] and the last loop of
      [segmentToMidi].

    Numbers.  A JavaScript number that the code computes with is modelled as
    an exact rational ([Q]); integers that the code obtains by [Math.floor],
    [| 0], [>>> 0] or as an array length are modelled in [Z] with the 32-bit
    wrap-around written out.  A value that flows through the audio path can
    be the not-a-number that JavaScript produces when a typed array is read
    outside its bounds, so that path is modelled over [Sample], rationals
    extended with [NaN].  The host's transcendental functions ([Math.cos],
    [Math.exp], [Math.pow]) are the operations of the class [MathHost]. *)

From Stdlib Require Import ZArith QArith Qround Qminmax Lia Lqa Bool.
From stdpp Require Import gmap list.

Set Default Proof Using "Type".
Open Scope Q_scope.

(** ** JavaScript integers *)

Module JS.

Definition two32 : Z := 4294967296.
Definition two31 : Z := 2147483648.

(** [x | 0]: the signed 32-bit integer congruent to [x]. *)
Definition to_int32 (z : Z) : Z := ((z + two31) mod two32 - two31)%Z.

(** [x >>> 0]: the unsigned 32-bit integer congruent to [x]. *)
Definition to_uint32 (z : Z) : Z := (z mod two32)%Z.

(** [x << n] *)
Definition shl (x n : Z) : Z := to_int32 (Z.shiftl (to_int32 x) (Z.land n 31)).

(** [x >>> n] *)
Definition shru (x n : Z) : Z := Z.shiftr (to_uint32 x) (Z.land n 31).

(** [x >> n] *)
Definition shr (x n : Z) : Z := Z.shiftr (to_int32 x) (Z.land n 31).

(** [x ^ y] *)
Definition xor (x y : Z) : Z := Z.lxor (to_int32 x) (to_int32 y).

(** [x & y] *)
Definition and (x y : Z) : Z := Z.land (to_int32 x) (to_int32 y).

(** [Math.max], [Math.min] and [Math.floor] on numbers. *)
Definition Math_max (a b : Q) : Q := if Qle_bool b a then a else b.
Definition Math_min (a b : Q) : Q := if Qle_bool a b then a else b.
Definition Math_floor (x : Q) : Z := Qfloor x.

(** [Math.round]: the nearest integer, halves rounded up. *)
Definition Math_round (x : Q) : Z := Qfloor (x + 0.5).

(** [Math.PI], the binary64 number nearest to pi. *)
Definition Math_PI : Q := 884279719003555 # 281474976710656.

End JS.

(** The transcendental functions of the host's [Math] object. *)
Class MathHost := {
  Math_cos : Q -> Q;
  Math_exp : Q -> Q;
  Math_pow : Q -> Q -> Q
}.

(** ** Values of the audio path *)

Inductive Sample : Type :=
| NaN : Sample
| Val : Q -> Sample.

Definition lift2 (f : Q -> Q -> Q) (a b : Sample) : Sample :=
  match a, b with
  | Val x, Val y => Val (f x y)
  | _, _ => NaN
  end.

Definition sadd : Sample -> Sample -> Sample := lift2 Qplus.
Definition ssub : Sample -> Sample -> Sample := lift2 Qminus.
Definition smul : Sample -> Sample -> Sample := lift2 Qmult.

Declare Scope sample_scope.
Delimit Scope sample_scope with S.
Bind Scope sample_scope with Sample.
Infix "+" := sadd : sample_scope.
Infix "-" := ssub : sample_scope.
Infix "*" := smul : sample_scope.

Definition is_NaN (s : Sample) : bool :=
  match s with NaN => true | Val _ => false end.

(** [buf[i]] on a typed array: [None] is JavaScript's [undefined]. *)
Definition buf_get (buf : list Q) (i : Z) : option Q :=
  if (i <? 0)%Z then None else buf !! Z.to_nat i.

(** An [undefined] operand makes the arithmetic not-a-number. *)
Definition of_read (o : option Q) : Sample :=
  match o with Some q => Val q | None => NaN end.

(** ** worklets/granular-processor.js *)

(** [function clamp(v, a, b)] *)
Definition clamp (v a b : Q) : Q := JS.Math_max a (JS.Math_min b v).

(** [function clampInt(v, a, b)]; every argument is an integer here. *)
Definition clampInt (v a b : Z) : Z :=
  JS.to_int32 (Z.max a (Z.min b (JS.to_int32 v))).

(** [class RingRNG] *)
Module RingRNG.

Record t := mk { s : Z }.

Definition constructor (seed : Z) : t := mk (JS.to_uint32 seed).

(** The state that [next()] leaves behind (xorshift32). *)
Definition step (r : t) : t :=
  let x := s r in
  let x := JS.xor x (JS.shl x 13) in
  let x := JS.xor x (JS.shru x 17) in
  let x := JS.xor x (JS.shl x 5) in
  mk (JS.to_uint32 x).

(** [next()]: the new state and the returned number. *)
Definition next (r : t) : t * Q :=
  let r' := step r in
  (r', inject_Z (JS.and (s r') 2147483647) / inject_Z 2147483648).

(** [norm()] *)
Definition norm (r : t) : t * Q :=
  let '(r', u) := next r in (r', u * 2 - 1).

End RingRNG.

(** [TWO_PI] and [function hann(n, i)] *)
Definition TWO_PI : Q := JS.Math_PI * 2.

Definition hann `{MathHost} (n i : Z) : Q :=
  0.5 * (1 - Math_cos (TWO_PI * inject_Z i / (inject_Z n - 1))).

(** [class Grain] *)
Module Grain.
Record t := mk {
  posL : Q;
  posR : Q;
  length : Z;
  i : Z;
  rate : Q;
  gain : Q
}.

Definition constructor (startFrameL startFrameR : Q) (lengthFrames : Z)
    (rate gain : Q) : t :=
  mk startFrameL startFrameR lengthFrames 0 rate gain.
End Grain.

(** [class Voice] *)
Module Voice.
Record t := mk {
  id : Z;
  rate : Q;
  gain : Q;
  on : bool;
  time : Q;
  nextGrainAt : Q;
  grains : list Grain.t
}.

Definition constructor (id : Z) (rate gain : Q) : t :=
  mk id rate gain true 0 0 [].

Definition set_on (b : bool) (v : t) : t :=
  mk (id v) (rate v) (gain v) b (time v) (nextGrainAt v) (grains v).
Definition set_time (x : Q) (v : t) : t :=
  mk (id v) (rate v) (gain v) (on v) x (nextGrainAt v) (grains v).
Definition set_nextGrainAt (x : Q) (v : t) : t :=
  mk (id v) (rate v) (gain v) (on v) (time v) x (grains v).
Definition set_grains (gs : list Grain.t) (v : t) : t :=
  mk (id v) (rate v) (gain v) (on v) (time v) (nextGrainAt v) gs.
End Voice.

(** The messages that [handleMessage] receives on the port.  A payload field
    that may be absent is an [option]; [Unknown] stands for a message that is
    falsy, has no [type] or has a [type] the switch does not list. *)
Inductive Message : Type :=
| LoadBuffer (sampleRate : option Q) (channels : option (list (list Q)))
| NoteOn (id : option Z) (rate gain : option Q)
| NoteOff (id : option Z)
| SetParams (formantTilt brightness : option Q)
| Unknown.

(** The state of one filter pair, [{ lp, hp }]. *)
Record EqState := mkEq { lp : Sample; hp : Sample }.

(** [class GranularProcessor]: the fields of [this].  [voices] is the [Map]
    from id to voice in insertion order; the key of an entry is the [id]
    of its voice, as [handleMessage] only ever calls
    [voices.set(id, new Voice(id, ...))]. *)
Record Processor := mkProcessor {
  sampleRateSrc : Q;
  bufferL : list Q;
  bufferR : list Q;
  frames : Z;                   (* this.length *)
  voices : list Voice.t;
  maxVoices : nat;
  rng : RingRNG.t;
  formantTilt : Q;
  brightness : Q;
  eqStateL : EqState;
  eqStateR : EqState
}.

Definition constructor : Processor :=
  {| sampleRateSrc := 44100;
     bufferL := [];
     bufferR := [];
     frames := 0;
     voices := [];
     maxVoices := 32;
     rng := RingRNG.constructor 123456;
     formantTilt := 0;
     brightness := 0;
     eqStateL := mkEq (Val 0) (Val 0);
     eqStateR := mkEq (Val 0) (Val 0) |}.

Definition set_voices (vs : list Voice.t) (p : Processor) : Processor :=
  mkProcessor (sampleRateSrc p) (bufferL p) (bufferR p) (frames p) vs
    (maxVoices p) (rng p) (formantTilt p) (brightness p) (eqStateL p) (eqStateR p).

Definition set_rng (r : RingRNG.t) (p : Processor) : Processor :=
  mkProcessor (sampleRateSrc p) (bufferL p) (bufferR p) (frames p) (voices p)
    (maxVoices p) r (formantTilt p) (brightness p) (eqStateL p) (eqStateR p).

Definition set_buffers (sr : Q) (l r : list Q) (n : Z) (p : Processor) : Processor :=
  mkProcessor sr l r n (voices p)
    (maxVoices p) (rng p) (formantTilt p) (brightness p) (eqStateL p) (eqStateR p).

Definition set_formantTilt (x : Q) (p : Processor) : Processor :=
  mkProcessor (sampleRateSrc p) (bufferL p) (bufferR p) (frames p) (voices p)
    (maxVoices p) (rng p) x (brightness p) (eqStateL p) (eqStateR p).

Definition set_brightness (x : Q) (p : Processor) : Processor :=
  mkProcessor (sampleRateSrc p) (bufferL p) (bufferR p) (frames p) (voices p)
    (maxVoices p) (rng p) (formantTilt p) x (eqStateL p) (eqStateR p).

Definition set_eq (l r : EqState) (p : Processor) : Processor :=
  mkProcessor (sampleRateSrc p) (bufferL p) (bufferR p) (frames p) (voices p)
    (maxVoices p) (rng p) (formantTilt p) (brightness p) l r.

(** [Map.prototype.get], [set] and [delete] on the voice map. *)
Fixpoint voices_get (id : Z) (vs : list Voice.t) : option Voice.t :=
  match vs with
  | [] => None
  | v :: rest => if (Voice.id v =? id)%Z then Some v else voices_get id rest
  end.

Fixpoint voices_set (id : Z) (v : Voice.t) (vs : list Voice.t) : list Voice.t :=
  match vs with
  | [] => [v]
  | w :: rest =>
      if (Voice.id w =? id)%Z then v :: rest else w :: voices_set id v rest
  end.

(** [v.on = false] on the voice that [voices.get(id)] returned: the voice is
    an object shared with the map, so the map sees the change. *)
Fixpoint voices_release (id : Z) (vs : list Voice.t) : list Voice.t :=
  match vs with
  | [] => []
  | w :: rest =>
      if (Voice.id w =? id)%Z then Voice.set_on false w :: rest
      else w :: voices_release id rest
  end.

(** [x || d] on a number: zero is falsy. *)
Definition or_default (x : option Q) (d : Q) : Q :=
  match x with
  | Some q => if Qeq_bool q 0 then d else q
  | None => d
  end.

(** [handleMessage(msg)] *)
Definition handleMessage (msg : Message) (p : Processor) : Processor :=
  match msg with
  | LoadBuffer sr channels =>
      match channels with
      | None | Some [] => set_buffers (sampleRateSrc p) [] [] 0 p
      | Some (L :: more) =>
          let R := match more with [] => L | R :: _ => R end in
          set_buffers (or_default sr 44100) L R
            (JS.to_int32 (Z.min (Z.of_nat (length L)) (Z.of_nat (length R)))) p
      end
  | NoteOn id rate gain =>
      if (maxVoices p <=? length (voices p))%nat then p
      else match id with
           | None => p
           | Some id =>
               let v := Voice.constructor id (default 1 rate) (default 0.9 gain) in
               set_voices (voices_set id v (voices p)) p
           end
  | NoteOff id =>
      match id with
      | None => p
      | Some id => set_voices (voices_release id (voices p)) p
      end
  | SetParams tilt bright =>
      let p :=
        match tilt with
        | Some x => set_formantTilt (clamp x (-1) 1) p
        | None => p
        end in
      match bright with
      | Some x => set_brightness (clamp x (-1) 1) p
      | None => p
      end
  | Unknown => p
  end.

(** [scheduleGrainForVoice(v, grainSizeSec, overlap, jitterSec)]: the
    generator and the voice after the call. *)
Definition grainFrames_of (grainSizeSec sr : Q) : Z :=
  Z.max 16 (JS.Math_floor (grainSizeSec * sr)).

Definition intervalSec_of (grainSizeSec overlap : Q) : Q :=
  JS.Math_max 0.001 (grainSizeSec * (1 - overlap)).

Definition scheduleGrainForVoice (p : Processor) (r : RingRNG.t) (v : Voice.t)
    (grainSizeSec overlap jitterSec : Q) : RingRNG.t * Voice.t :=
  if (frames p <=? 0)%Z then (r, v)
  else
    let sr := sampleRateSrc p in
    let grainFrames := grainFrames_of grainSizeSec sr in
    let '(r, u) := RingRNG.next r in
    let startFrame := JS.Math_floor (u * inject_Z (frames p - grainFrames - 1)) in
    let '(r, n) := RingRNG.norm r in
    let jitterFrames := JS.Math_floor (jitterSec * sr * n) in
    let sL := clampInt (startFrame + jitterFrames) 0 (frames p - grainFrames - 1) in
    let sR := sL in
    let g := Grain.constructor (inject_Z sL) (inject_Z sR) grainFrames
               (Voice.rate v) (Voice.gain v) in
    let v := Voice.set_grains (Voice.grains v ++ [g]) v in
    let intervalSec := intervalSec_of grainSizeSec overlap in
    (r, Voice.set_nextGrainAt (Voice.nextGrainAt v + intervalSec) v).

(** [function readInterp(buf, pos)] *)
Definition readInterp (buf : list Q) (pos : Q) : Sample :=
  let i := JS.Math_floor pos in
  let frac := pos - inject_Z i in
  let i1 := if (Z.of_nat (length buf) <=? i + 1)%Z then 0%Z else (i + 1)%Z in
  (of_read (buf_get buf i) * Val (1 - frac) + of_read (buf_get buf i1) * Val frac)%S.

(** The two indices that [readInterp] reads. *)
Definition readInterp_indices (buf : list Q) (pos : Q) : Z * Z :=
  let i := JS.Math_floor pos in
  (i, if (Z.of_nat (length buf) <=? i + 1)%Z then 0%Z else (i + 1)%Z).

Definition in_bounds (buf : list Q) (i : Z) : Prop :=
  (0 <= i < Z.of_nat (length buf))%Z.

(** The k-rate parameters that the host hands to [process], each already
    read with [readParam]. *)
Record AudioParams := mkParams { grainSize : Q; overlap : Q; jitter : Q }.

(** What one call of [process] leaves behind: the return value, the two
    output channels and the processor. *)
Record Rendered := mkRendered {
  keepAlive : bool;
  outL : list Sample;
  outR : list Sample;
  after : Processor
}.

Section Render.

Context `{host : MathHost}.

(** [function onePoleAlpha(cutHz, sr)] *)
Definition onePoleAlpha (cutHz sr : Q) : Q :=
  let x := Math_exp (-2 * JS.Math_PI * JS.Math_max 1 cutHz / JS.Math_max 1 sr) in
  1 - x.

(** [applyEQ(sample, state, sampleRate)]: the returned sample and the
    filter state after the call. *)
Definition applyEQ (p : Processor) (sample : Sample) (state : EqState)
    (sampleRate : Q) : Sample * EqState :=
  let cutoff := 1200 * Math_pow 2 (formantTilt p / 2) in
  let alphaLP := onePoleAlpha cutoff sampleRate in
  let lp' := (lp state + Val alphaLP * (sample - lp state))%S in
  let alphaHP := onePoleAlpha 200 sampleRate in
  let hp' := (hp state + Val alphaHP * (sample - hp state))%S in
  let hpv := (sample - hp')%S in
  let b := brightness p in
  let lo := (lp' * Val (0.5 - 0.5 * b))%S in
  let hi := (hpv * Val (0.5 + 0.5 * b))%S in
  ((lo + hi)%S, mkEq lp' hp').

(** The body of the grain loop of [process] for one grain: the grain after
    the sample ([None] once it is spliced out) and the mix. *)
Definition step_grain (srcL srcR : list Q) (len : Z) (g : Grain.t)
    (mix : Sample * Sample) : option Grain.t * (Sample * Sample) :=
  let w := hann (Grain.length g) (Grain.i g) in
  let sL := readInterp srcL (Grain.posL g) in
  let sR := readInterp srcR (Grain.posR g) in
  let mixL := (fst mix + sL * Val w * Val (Grain.gain g))%S in
  let mixR := (snd mix + sR * Val w * Val (Grain.gain g))%S in
  let posL := Grain.posL g + Grain.rate g in
  let posR := Grain.posR g + Grain.rate g in
  let i := (Grain.i g + 1)%Z in
  if (Grain.length g <=? i)%Z then (None, (mixL, mixR))
  else
    let posL := if Qle_bool (inject_Z len) posL then posL - inject_Z len else posL in
    let posR := if Qle_bool (inject_Z len) posR then posR - inject_Z len else posR in
    (Some (Grain.mk posL posR (Grain.length g) i (Grain.rate g) (Grain.gain g)),
     (mixL, mixR)).

(** [for (let gi = v.grains.length - 1; gi >= 0; gi--)]: the grains are
    visited from the last to the first, a finished one is spliced out. *)
Fixpoint advance_grains (srcL srcR : list Q) (len : Z) (gs : list Grain.t)
    (mix : Sample * Sample) : list Grain.t * (Sample * Sample) :=
  match gs with
  | [] => ([], mix)
  | g :: rest =>
      let '(rest', mix) := advance_grains srcL srcR len rest mix in
      let '(og, mix) := step_grain srcL srcR len g mix in
      (match og with Some g' => g' :: rest' | None => rest' end, mix)
  end.

(** [for (const v of this.voices.values())] inside the sample loop: the
    grains of every voice advance, a released voice without grains is
    deleted from the map. *)
Fixpoint render_voices (srcL srcR : list Q) (len : Z) (vs : list Voice.t)
    (mix : Sample * Sample) : list Voice.t * (Sample * Sample) :=
  match vs with
  | [] => ([], mix)
  | v :: rest =>
      let '(gs, mix) := advance_grains srcL srcR len (Voice.grains v) mix in
      let v := Voice.set_grains gs v in
      let '(rest', mix) := render_voices srcL srcR len rest mix in
      if negb (Voice.on v) && (length (Voice.grains v) =? 0)%nat
      then (rest', mix)
      else (v :: rest', mix)
  end.

(** One iteration of [for (let i = 0; i < quantum; i++)]: the processor
    after the sample and the pair written to [outL[i]], [outR[i]]. *)
Definition render_sample (srProc : Q) (p : Processor)
    : Processor * (Sample * Sample) :=
  let '(vs, (mixL, mixR)) :=
    render_voices (bufferL p) (bufferR p) (frames p) (voices p) (Val 0, Val 0) in
  let p := set_voices vs p in
  let '(mixL, eqL) := applyEQ p mixL (eqStateL p) srProc in
  let p := set_eq eqL (eqStateR p) p in
  let '(mixR, eqR) := applyEQ p mixR (eqStateR p) srProc in
  let p := set_eq (eqStateL p) eqR p in
  (p, (mixL, mixR)).

Fixpoint render_block (quantum : nat) (srProc : Q) (p : Processor)
    : Processor * (list Sample * list Sample) :=
  match quantum with
  | O => (p, ([], []))
  | S n =>
      let '(p, (l, r)) := render_sample srProc p in
      let '(p, (ls, rs)) := render_block n srProc p in
      (p, (l :: ls, r :: rs))
  end.

(** [while (v.nextGrainAt <= v.time + 1e-6) this.scheduleGrainForVoice(...)];
    [None] when [fuel] iterations did not reach the exit. *)
Fixpoint schedule_loop (fuel : nat) (p : Processor) (r : RingRNG.t)
    (v : Voice.t) (grainSizeSec overlap jitterSec : Q)
    : option (RingRNG.t * Voice.t) :=
  if Qle_bool (Voice.nextGrainAt v) (Voice.time v + 1e-6) then
    match fuel with
    | O => None
    | S fuel =>
        let '(r, v) := scheduleGrainForVoice p r v grainSizeSec overlap jitterSec in
        schedule_loop fuel p r v grainSizeSec overlap jitterSec
    end
  else Some (r, v).

(** The body of the scheduling loop of [process] for one voice. *)
Definition schedule_voice (fuel : nat) (p : Processor) (r : RingRNG.t)
    (v : Voice.t) (grainSizeSec overlap jitterSec : Q)
    : option (RingRNG.t * Voice.t) :=
  if Qle_bool (Voice.nextGrainAt v) (Voice.time v + 1e-6) then
    let v := if Qeq_bool (Voice.time v) 0 then Voice.set_nextGrainAt 0 v else v in
    schedule_loop fuel p r v grainSizeSec overlap jitterSec
  else Some (r, v).

Fixpoint schedule_voices (fuel : nat) (p : Processor) (r : RingRNG.t)
    (vs : list Voice.t) (grainSizeSec overlap jitterSec : Q)
    : option (RingRNG.t * list Voice.t) :=
  match vs with
  | [] => Some (r, [])
  | v :: rest =>
      '(r, v) ← schedule_voice fuel p r v grainSizeSec overlap jitterSec;
      '(r, rest) ← schedule_voices fuel p r rest grainSizeSec overlap jitterSec;
      Some (r, v :: rest)
  end.

(** [process(_inputs, outputs, parameters)] on an output of two channels
    of [quantum] frames, in a context whose global [sampleRate] is
    [sampleRate]. *)
Definition process (fuel : nat) (sampleRate : Q) (quantum : nat)
    (parameters : AudioParams) (p : Processor) : option Rendered :=
  let zeros := replicate quantum (Val 0) in
  let grainSizeSec := grainSize parameters in
  let overlap := clamp (overlap parameters) 0 0.95 in
  let jitterSec := clamp (jitter parameters) 0 0.02 in
  if (frames p <=? 0)%Z || (length (bufferL p) =? 0)%nat then
    Some (mkRendered true zeros zeros p)
  else
    let srProc := sampleRate in
    let dt := inject_Z (Z.of_nat quantum) / srProc in
    '(r, vs) ← schedule_voices fuel p (rng p) (voices p) grainSizeSec overlap jitterSec;
    let p := set_voices vs (set_rng r p) in
    let '(p, (l, r)) := render_block quantum srProc p in
    let vs := map (fun v => Voice.set_time (Voice.time v + dt) v) (voices p) in
    Some (mkRendered true l r (set_voices vs p)).

End Render.

(** ** js/audio/samplerInstrument.js *)

(** A Web Audio [AudioBuffer]: every channel holds [ab_length] frames. *)
Record AudioBuffer := mkAudioBuffer {
  ab_sampleRate : Q;
  ab_length : Z;
  ab_channels : list (list Q)
}.

(** [buffer.duration] *)
Definition duration (b : AudioBuffer) : Q := inject_Z (ab_length b) / ab_sampleRate b.

(** [TypedArray.prototype.subarray(begin, end)]: a negative index counts
    from the end, both are clamped to the array. *)
Definition rel_index (len idx : Z) : Z :=
  if (idx <? 0)%Z then Z.max (len + idx) 0 else Z.min idx len.

Definition subarray (data : list Q) (b e : Z) : list Q :=
  let len := Z.of_nat (length data) in
  let b' := rel_index len b in
  let e' := rel_index len e in
  take (Z.to_nat (e' - b')) (drop (Z.to_nat b') data).

(** [seg.copyToChannel(src, ch, 0)] on the channel [dst]. *)
Definition copyToChannel (src dst : list Q) : list Q :=
  take (length dst) src ++ drop (length src) dst.

(** The two loops of [applyEdgeFades] on the data of one channel. *)
Definition fade_in (fadeN : Z) (data : list Q) : list Q :=
  foldl (fun d i => alter (fun x => x * (inject_Z (Z.of_nat i) / inject_Z fadeN)) i d)
        data (seq 0 (Z.to_nat fadeN)).

Definition fade_out (n fadeN : Z) (data : list Q) : list Q :=
  foldl (fun d i =>
           alter (fun x => x * (1 - inject_Z (Z.of_nat i) / inject_Z fadeN))
                 (Z.to_nat (n - 1 - Z.of_nat i)) d)
        data (seq 0 (Z.to_nat fadeN)).

(** [function applyEdgeFades(buffer, fadeSec = 0.01)] *)
Definition fadeN_of (n : Z) (fadeSec sr : Q) : Z :=
  Z.min (JS.shr n 1) (Z.max 1 (JS.Math_floor (fadeSec * sr))).

Definition applyEdgeFades (buffer : AudioBuffer) (fadeSec : Q) : AudioBuffer :=
  let sr := ab_sampleRate buffer in
  let n := ab_length buffer in
  let fadeN := fadeN_of n fadeSec sr in
  mkAudioBuffer sr n
    (map (fun data => fade_out n fadeN (fade_in fadeN data)) (ab_channels buffer)).

(** Step 1 of [createGranularInstrument]: the selected region, sliced into
    the buffer [seg] and faded at its edges. *)
Definition prepare_segment (audioBuffer : AudioBuffer) (start end_ : Q) : AudioBuffer :=
  let sr := ab_sampleRate audioBuffer in
  let startFrame := Z.max 0 (JS.Math_floor (start * sr)) in
  let endFrame := Z.min (ab_length audioBuffer) (JS.Math_floor (end_ * sr)) in
  let length := Z.max 1 (endFrame - startFrame) in
  let seg :=
    mkAudioBuffer sr length
      (map (fun data =>
              copyToChannel (subarray data startFrame endFrame)
                            (replicate (Z.to_nat length) 0))
           (ab_channels audioBuffer)) in
  applyEdgeFades seg (JS.Math_min 0.01 (duration seg * 0.05)).

(** The instrument of the worklet branch.  [params] keeps the fields that
    reach the worklet port; [idGen_i] is the counter [i] closed over by
    [makeIdGen]; [active] is the [Map] from midi note to voice id; [port]
    lists the messages posted to the processor so far, oldest first. *)
Record Instrument := mkInstrument {
  baseNote : Z;
  transpose : Q;
  formantShift : Q;
  p_brightness : Q;
  idGen_i : Z;
  active : gmap Z Z;
  port : list Message
}.

(** The instrument right after [makeIdGen()] and [new Map()]. *)
Definition newInstrument (baseNote : Z) : Instrument :=
  mkInstrument baseNote 0 0 0 (JS.to_int32 1) ∅ [].

Definition set_active (a : gmap Z Z) (s : Instrument) : Instrument :=
  mkInstrument (baseNote s) (transpose s) (formantShift s) (p_brightness s)
    (idGen_i s) a (port s).

Definition set_idGen_i (i : Z) (s : Instrument) : Instrument :=
  mkInstrument (baseNote s) (transpose s) (formantShift s) (p_brightness s)
    i (active s) (port s).

Definition postMessage (m : Message) (s : Instrument) : Instrument :=
  mkInstrument (baseNote s) (transpose s) (formantShift s) (p_brightness s)
    (idGen_i s) (active s) (port s ++ [m]).

(** [idGen()], that is [() => (i = (i + 1) >>> 0)]. *)
Definition idGen (s : Instrument) : Z * Instrument :=
  let i := JS.to_uint32 (idGen_i s + 1) in (i, set_idGen_i i s).

Section Control.

Context `{host : MathHost}.

(** [function midiToPlaybackRate(midi)] *)
Definition midiToPlaybackRate (s : Instrument) (midi : Z) : Q :=
  let totalSemis :=
    (inject_Z midi - inject_Z (baseNote s)) + or_default (Some (transpose s)) 0 in
  Math_pow 2 (totalSemis / 12).

(** [function noteOff(midi, when)] *)
Definition noteOff (midi : Z) (s : Instrument) : Instrument :=
  match active s !! midi with
  | None => s
  | Some id =>
      let s := set_active (delete midi (active s)) s in
      postMessage (NoteOff (Some id)) s
  end.

(** [function noteOn(midi, velocity = 0.9, when)] *)
Definition noteOn (midi : Z) (velocity : option Q) (s : Instrument) : Instrument :=
  let s := if decide (is_Some (active s !! midi)) then noteOff midi s else s in
  let '(id, s) := idGen s in
  let s := set_active (<[midi := id]> (active s)) s in
  postMessage
    (NoteOn (Some id) (Some (midiToPlaybackRate s midi))
            (Some (clamp (default 0.9 velocity) 0.001 1))) s.

End Control.

(** The argument [next] of [setParams]: the keys that the modelled fields
    of [params] listen to. *)
Record ParamsPatch := mkPatch {
  next_transpose : option Q;
  next_formantShift : option Q;
  next_brightness : option Q
}.

(** [function setParams(next = {})] of the worklet branch:
    [Object.assign(params, next)], then the shaper parameters go to the
    worklet port.  The k-rate parameters and the post-EQ nodes are objects
    of the host's audio graph and stay outside the model. *)
Definition setParams (next : ParamsPatch) (s : Instrument) : Instrument :=
  let s := mkInstrument (baseNote s)
             (default (transpose s) (next_transpose next))
             (default (formantShift s) (next_formantShift next))
             (default (p_brightness s) (next_brightness next))
             (idGen_i s) (active s) (port s) in
  let formantTilt := clamp (formantShift s / 3) (-1) 1 in
  postMessage (SetParams (Some formantTilt) (Some (clamp (p_brightness s) (-1) 1))) s.

(** [tryCreateWorkletEngine(context, seg, params)] where the context has
    worklets, as far as the port sees it.  Every channel of the segment is
    copied into a [Float32Array] of its own, whose [ArrayBuffer] is named
    here by the index of the channel.  For a mono segment
    [channels.push(channels[0])] puts the one array in twice, so the
    transfer list [channels.map(a => a.buffer)] names one buffer twice:
    [postMessage] throws a DataCloneError, nothing is posted, and the
    function rejects, which is [None]. *)
Definition tryCreateWorkletEngine (seg : AudioBuffer) : option (list Message) :=
  let channels := imap (fun ch data => (ch, data)) (ab_channels seg) in
  let channels := match channels with [c] => [c; c] | cs => cs end in
  let transfer := map fst channels in
  if bool_decide (NoDup transfer)
  then Some [LoadBuffer (Some (ab_sampleRate seg)) (Some (map snd channels))]
  else None.

(** [createGranularInstrument], its worklet branch:
    [await tryCreateWorkletEngine(context, seg, params).catch(() => null)],
    then the initial [setParams(params)].  [None] is the case in which the
    engine is [null] and the fallback sampler, which has no port, is built
    instead. *)
Definition createGranularInstrument (audioBuffer : AudioBuffer) (start end_ : Q)
    (baseNote : Z) : option Instrument :=
  let seg := prepare_segment audioBuffer start end_ in
  posted ← tryCreateWorkletEngine seg;
  let s := mkInstrument baseNote 0 0 0 (JS.to_int32 1) ∅ posted in
  Some (setParams (mkPatch None None None) s).

(** The calls that the application makes on the instrument. *)
Inductive Call : Type :=
| CallNoteOn (midi : Z) (velocity : option Q)
| CallNoteOff (midi : Z)
| CallSetParams (next : ParamsPatch).

Section ControlRuns.

Context `{host : MathHost}.

Definition call (c : Call) (s : Instrument) : Instrument :=
  match c with
  | CallNoteOn midi velocity => noteOn midi velocity s
  | CallNoteOff midi => noteOff midi s
  | CallSetParams next => setParams next s
  end.

Definition calls (cs : list Call) (s : Instrument) : Instrument :=
  foldl (fun s c => call c s) s cs.

End ControlRuns.

(** ** Vocabulary of the statements *)

(** The transposition in force after some calls on a new instrument: what
    the last [setParams] that names one has given, 0 before any. *)
Definition transpose_after (cs : list Call) : Q :=
  foldl (fun t c =>
           match c with
           | CallSetParams (mkPatch (Some t') _ _) => t'
           | _ => t
           end) 0 cs.

(** The voices that a command stream has started and not released since. *)
Definition sounding_step (S : gset Z) (m : Message) : gset Z :=
  match m with
  | NoteOn (Some id) _ _ => {[id]} ∪ S
  | NoteOff (Some id) => S ∖ {[id]}
  | _ => S
  end.

Definition sounding (msgs : list Message) : gset Z := foldl sounding_step ∅ msgs.

(** What holds of the instrument as long as its id counter has not wrapped
    around: the ids in use lie below the counter, no two notes share a
    voice, and the notes of [active] are the voices that sound. *)
Record consistent (s : Instrument) : Prop := mkConsistent {
  counter_range : (1 <= idGen_i s < JS.two32)%Z;
  posted_below : forall i r g, NoteOn (Some i) r g ∈ port s -> (i <= idGen_i s)%Z;
  active_below : forall m i, active s !! m = Some i -> (i <= idGen_i s)%Z;
  active_inj : forall m1 m2 i,
      active s !! m1 = Some i -> active s !! m2 = Some i -> m1 = m2;
  active_sounding : forall i,
      i ∈ sounding (port s) <-> exists m, active s !! m = Some i
}.

(** What the host does to a processor: it delivers a port message or asks
    for one render quantum. *)
Inductive Event : Type :=
| OnMessage (m : Message)
| OnBlock (quantum : nat) (parameters : AudioParams).

Section Runs.

Context `{host : MathHost}.

(** The processor driven through a sequence of events in a context of
    sample rate [sampleRate]: the blocks it rendered, oldest first, and the
    processor at the end. *)
Fixpoint run (fuel : nat) (sampleRate : Q) (evs : list Event) (p : Processor)
    : option (list (list Sample * list Sample) * Processor) :=
  match evs with
  | [] => Some ([], p)
  | OnMessage m :: evs => run fuel sampleRate evs (handleMessage m p)
  | OnBlock quantum parameters :: evs =>
      r ← process fuel sampleRate quantum parameters p;
      '(outs, p') ← run fuel sampleRate evs (after r);
      Some ((outL r, outR r) :: outs, p')
  end.

End Runs.

(** What a test observes of the voice pool: for every voice its id, its
    [on] flag and the progress [i] of each of its grains. *)
Definition voice_summary (p : Processor) : list (Z * bool * list Z) :=
  map (fun v => (Voice.id v, Voice.on v, map Grain.i (Voice.grains v))) (voices p).

Definition grain_positions (p : Processor) : list Q :=
  flat_map (fun v => map Grain.posL (Voice.grains v)) (voices p).


(** ** Data of the examples *)

(** A host whose transcendental functions are low-order polynomials; it
    only serves to state closed examples, the theorems hold for any host. *)
Definition polyHost : MathHost :=
  {| Math_cos := fun x => 1 - x * x / 2 + x * x * x * x / 24;
     Math_exp := fun x => 1 + x + x * x / 2;
     Math_pow := fun b e => 1 + e * (b - 1) |}.

(** One second of silence at 44.1 kHz, loaded in a new processor. *)
Definition one_second : Processor :=
  handleMessage
    (LoadBuffer (Some 44100)
       (Some [replicate (Z.to_nat 44100) 0; replicate (Z.to_nat 44100) 0]))
    constructor.

(** One second of silence at 48 kHz. *)
Definition silence48k : list Q := replicate (Z.to_nat 48000) 0.

(** Parameter values that binary floating point represents exactly. *)
Definition defaults : AudioParams := mkParams 0.03125 0.5 0.

(** Five more note-ons than the pool holds. *)
Definition flood : list Event :=
  map (fun i => OnMessage (NoteOn (Some (Z.of_nat i)) None None)) (seq 1 37).

Definition flooded : Processor :=
  foldl (fun p m => handleMessage m p) constructor
    (map (fun i => NoteOn (Some (Z.of_nat i)) None None) (seq 1 37)).

Definition one_note : list Event :=
  [OnMessage (LoadBuffer (Some 48000) (Some [silence48k; silence48k]));
   OnMessage (NoteOn (Some 2%Z) (Some 1) (Some 1));
   OnBlock 128 defaults;
   OnBlock 128 defaults].

(** A recording of 90 frames of full scale at 8 kHz. *)
Definition recording : AudioBuffer := mkAudioBuffer 8000 90 [replicate 90 1].

(** The same in stereo. *)
Definition stereo_recording : AudioBuffer :=
  mkAudioBuffer 8000 90 [replicate 90 1; replicate 90 1].

Definition two_notes : list Call :=
  [CallNoteOn 60 None; CallNoteOn 64 (Some 0.5)].

(** An octave up, then a note. *)
Definition octave_up : list Call :=
  [CallSetParams (mkPatch (Some 12) None None); CallNoteOn 60 None].


(** The port messages among the events of a run, oldest first. *)
Definition messages_of (evs : list Event) : list Message :=
  omap (fun ev => match ev with OnMessage m => Some m | OnBlock _ _ => None end) evs.

(** ** audio/samplerInstrument.js, further functions *)

(** [function dispose()] of the worklet branch, as far as the port sees it:
    [for (const m of [...active.keys()]) noteOff(m)].  [keys] is the array
    [[...active.keys()]]; the finite map of the model does not keep the
    insertion order of the [Map], so the order is left to the caller. *)
Definition dispose (keys : list Z) (s : Instrument) : Instrument :=
  foldl (fun s m => noteOff m s) s keys.

(** The targets that [updateEq] sets on the three filters of the post-EQ. *)
Record EqTargets := mkEqTargets {
  formant_frequency : Q;
  formant_gain : Q;
  lowShelf_gain : Q;
  highShelf_gain : Q
}.

(** [function updateEq(eq, params)] *)
Definition updateEq `{MathHost} (params_formantShift params_brightness : option Q)
    : EqTargets :=
  let baseHz := 1200 in
  let shiftSt := clamp (or_default params_formantShift 0) (-3) 3 in
  let targetHz := baseHz * Math_pow 2 (shiftSt / 12) in
  let b := clamp (or_default params_brightness 0) (-1) 1 in
  let hi := b * 6 in
  let lo := - b * 4 in
  mkEqTargets targetHz (shiftSt * 1.8) lo hi.

(** ** workers/pitchWorker.js *)

(** [function nextPow2(n)]: [while (p < n) p <<= 1]; [None] when [fuel]
    iterations did not reach the exit.  The argument is the integer that
    [onmessage] passes. *)
Fixpoint nextPow2_loop (fuel : nat) (p n : Z) : option Z :=
  if (p <? n)%Z then
    match fuel with
    | O => None
    | S fuel => nextPow2_loop fuel (JS.shl p 1) n
    end
  else Some p.

Definition nextPow2 (fuel : nat) (n : Z) : option Z := nextPow2_loop fuel 1 n.

(** The analysis parameters of [self.onmessage]. *)
Definition hop (sr : Q) : Z := Z.max 1 (JS.Math_floor (sr * 0.01)).
Definition fMin : Q := 60.
Definition fMax : Q := 1200.
Definition tauMin (sr : Q) : Z := JS.Math_floor (sr / fMax).
Definition tauMax (sr : Q) : Z := Qceiling (sr / fMin).
Definition minFrame (sr : Q) : Z := Z.max 1024 (2 * tauMax sr + 4).
Definition frameSize (fuel : nat) (sr : Q) : option Z :=
  nextPow2 fuel (Z.min 8192 (Z.max 2048 (minFrame sr))).

(** [nFrames], for audio of [len] samples cut in frames of [frameSize]. *)
Definition nFrames (len frameSize : Z) (sr : Q) : Z :=
  Z.max 0 (JS.Math_floor (inject_Z (len - frameSize) / inject_Z (hop sr)) + 1).

(** ** audio/pitchToMidi.js *)

(** [x | y] *)
Definition JS_or (x y : Z) : Z := Z.lor (JS.to_int32 x) (JS.to_int32 y).

(** The conversion of a number to an element of a [Uint8Array]. *)
Definition to_uint8 (z : Z) : Z := (z mod 256)%Z.

(** The [do ... while (v > 0)] loop of [varint]; [None] when [fuel]
    iterations did not reach the exit. *)
Fixpoint varint_loop (fuel : nat) (v : Z) (bytes : list Z) : option (list Z) :=
  match fuel with
  | O => None
  | S fuel =>
      let bytes := bytes ++ [JS.and v 127] in
      let v := JS.shru v 7 in
      if (0 <? v)%Z then varint_loop fuel v bytes else Some bytes
  end.

(** [function varint(n)] *)
Definition varint (fuel : nat) (n : Z) : option (list Z) :=
  bytes ← varint_loop fuel (JS.shru n 0) [];
  let bytes := imap (fun i b => if (0 <? i)%nat then JS_or b 128 else b) bytes in
  Some (map to_uint8 (rev bytes)).

(** [function u24(n)] *)
Definition u24 (n : Z) : list Z :=
  [JS.and (JS.shr n 16) 255; JS.and (JS.shr n 8) 255; JS.and n 255].

(** [usPerQuarter] of [exportMidi]. *)
Definition usPerQuarter (bpm : Q) : Z :=
  JS.Math_round (60000000 / JS.Math_max 1 bpm).

(** A note event [{pitch, tOn, tOff, velocity}]; [velocity] is [None] when
    the property is absent. *)
Record Note := mkNote {
  pitch : Z;
  tOn : Q;
  tOff : Q;
  velocity : option Q
}.

(** The grid strings that [gridToDenom] knows, and any other string. *)
Inductive Grid : Type := Grid_8 | Grid_16 | Grid_32 | Grid_other.

(** [function gridToDenom(grid)] *)
Definition gridToDenom (grid : Grid) : option Q :=
  match grid with
  | Grid_8 => Some 8
  | Grid_16 => Some 16
  | Grid_32 => Some 32
  | Grid_other => None
  end.

(** [function quantizeNotes(notes, grid = '1/16', bpm = 120)] *)
Definition quantizeNotes (notes : list Note) (grid : Grid) (bpm : Q) : list Note :=
  let secPerBeat := 60 / bpm in
  match gridToDenom grid with
  | None => notes
  | Some denom =>
      let step := secPerBeat * (4 / denom) in
      let q t := inject_Z (JS.Math_round (t / step)) * step in
      map (fun n =>
             let tOnQ := q (tOn n) in
             let tOffQ := JS.Math_max (tOnQ + step) (q (tOff n)) in
             mkNote (pitch n) tOnQ tOffQ (velocity n))
          notes
  end.

(** The bounds [s0], [s1] of the analysed segment in [segmentToMidi]. *)
Definition segment_s0 (start duration : Q) : Q :=
  JS.Math_max 0 (JS.Math_min start duration).

Definition segment_s1 (start end_ duration : Q) : Q :=
  JS.Math_max (segment_s0 start duration) (JS.Math_min end_ duration).

(** The body of the last loop of [segmentToMidi], on one note. *)
Definition clean_note (dur : Q) (n : Note) : Note :=
  let tOn' := clamp (tOn n) 0 dur in
  let tOff' := clamp (tOff n) (tOn' + 0.001) dur in
  mkNote (pitch n) tOn' tOff' (Some (clamp (default 0.9 (velocity n)) 0.01 1)).

(** ** Vocabulary of the statements on the MIDI bytes *)

(** The number that a variable-length quantity stands for: seven bits a
    byte, most significant group first. *)
Definition vlq_value (bytes : list Z) : Z :=
  foldl (fun acc b => (acc * 128 + Z.land b 127)%Z) 0%Z bytes.

(** The number that bytes stand for, most significant byte first. *)
Definition be_value (bytes : list Z) : Z :=
  foldl (fun acc b => (acc * 256 + b)%Z) 0%Z bytes.

(** ** Vocabulary of the further properties *)

(** A grain is inside its window: [hann] documents [i in [0..n-1]]. *)
Definition grain_in_window (g : Grain.t) : Prop :=
  (0 <= Grain.i g < Grain.length g)%Z /\ (16 <= Grain.length g)%Z.

(** A grain reads inside a segment of [n] frames and moves by at most [n]
    frames a sample. *)
Definition grain_in_segment (n : Z) (g : Grain.t) : Prop :=
  (0 <= Grain.posL g /\ Grain.posL g < inject_Z n)
  /\ (0 <= Grain.posR g /\ Grain.posR g < inject_Z n)
  /\ (0 <= Grain.rate g /\ Grain.rate g <= inject_Z n).

Definition voice_in_segment (n : Z) (v : Voice.t) : Prop :=
  (0 <= Voice.rate v /\ Voice.rate v <= inject_Z n)
  /\ Forall (grain_in_segment n) (Voice.grains v).

(** The processor holds a segment that covers [frames] in both buffers, and
    every voice and grain stays inside it. *)
Definition in_segment (p : Processor) : Prop :=
  (0 < frames p < JS.two31)%Z
  /\ (frames p <= Z.of_nat (length (bufferL p)))%Z
  /\ (frames p <= Z.of_nat (length (bufferR p)))%Z
  /\ Forall (voice_in_segment (frames p)) (voices p).

Definition eq_finite (p : Processor) : Prop :=
  is_NaN (lp (eqStateL p)) = false /\ is_NaN (hp (eqStateL p)) = false
  /\ is_NaN (lp (eqStateR p)) = false /\ is_NaN (hp (eqStateR p)) = false.

(** An event that keeps the voices inside a segment of [n] frames: no
    further segment is loaded, and a note is started at a rate between 0
    and [n]. *)
Definition tame (n : Z) (ev : Event) : Prop :=
  match ev with
  | OnMessage (LoadBuffer _ _) => False
  | OnMessage (NoteOn _ rate _) => 0 <= default 1 rate /\ default 1 rate <= inject_Z n
  | _ => True
  end.

(** The grain after one sample, [None] once it is spliced out: the part of
    [step_grain] that does not depend on the samples read. *)
Definition grain_after (len : Z) (g : Grain.t) : option Grain.t :=
  let posL := Grain.posL g + Grain.rate g in
  let posR := Grain.posR g + Grain.rate g in
  let i := (Grain.i g + 1)%Z in
  if (Grain.length g <=? i)%Z then None
  else
    let posL := if Qle_bool (inject_Z len) posL then posL - inject_Z len else posL in
    let posR := if Qle_bool (inject_Z len) posR then posR - inject_Z len else posR in
    Some (Grain.mk posL posR (Grain.length g) i (Grain.rate g) (Grain.gain g)).

Definition voice_after (len : Z) (v : Voice.t) : Voice.t :=
  Voice.set_grains (omap (grain_after len) (Voice.grains v)) v.

(** The test of [process] that keeps a voice in the map. *)
Definition voice_stays (v : Voice.t) : bool :=
  Voice.on v || negb (length (Voice.grains v) =? 0)%nat.

(** ** Data of the further examples *)

(** A ramp of 64 frames. *)
Definition ramp : list Q := map (fun i => inject_Z (Z.of_nat i) / 64) (seq 0 64).

(** Two notes on a loaded ramp, a timbre change beyond the range, two render
    blocks of 8 frames and a release in between. *)
Definition session_notes : list Event :=
  [OnMessage (SetParams (Some 3) (Some (-5)));
   OnMessage (NoteOn (Some 1%Z) (Some 1) None);
   OnMessage (NoteOn (Some 2%Z) (Some 2) (Some 0.5));
   OnBlock 8 defaults;
   OnMessage (NoteOff (Some 1%Z));
   OnBlock 8 defaults].

Definition session : list Event :=
  OnMessage (LoadBuffer (Some 1024) (Some [ramp; ramp])) :: session_notes.

(** The processor of [session] before its first render block. *)
Definition session_start : Processor :=
  foldl (fun p m => handleMessage m p) constructor
    [LoadBuffer (Some 1024) (Some [ramp; ramp]);
     SetParams (Some 3) (Some (-5));
     NoteOn (Some 1%Z) (Some 1) None;
     NoteOn (Some 2%Z) (Some 2) (Some 0.5)].

(** * Properties *)

(** ** Integer conversions *)

Lemma to_int32_range z : (- JS.two31 <= JS.to_int32 z < JS.two31)%Z.
Proof.
  unfold JS.to_int32.
  pose proof (Z.mod_pos_bound (z + JS.two31) JS.two32 eq_refl) as Hm.
  unfold JS.two31, JS.two32 in *. lia.
Qed.

Lemma to_int32_small z : (- JS.two31 <= z < JS.two31)%Z -> JS.to_int32 z = z.
Proof.
  intros Hz. unfold JS.to_int32.
  rewrite Z.mod_small; unfold JS.two31, JS.two32 in *; lia.
Qed.

Lemma to_uint32_range z : (0 <= JS.to_uint32 z < JS.two32)%Z.
Proof. unfold JS.to_uint32. apply Z.mod_pos_bound. reflexivity. Qed.

Lemma and_low31_range x : (0 <= JS.and x 2147483647 < JS.two31)%Z.
Proof.
  unfold JS.and.
  rewrite (to_int32_small 2147483647) by (unfold JS.two31; lia).
  change 2147483647%Z with (Z.ones 31).
  rewrite Z.land_ones by lia.
  change (2 ^ 31)%Z with JS.two31.
  apply Z.mod_pos_bound. reflexivity.
Qed.

Lemma shr_half n : (0 <= n < JS.two31)%Z -> JS.shr n 1 = (n / 2)%Z.
Proof.
  intros Hn. unfold JS.shr.
  rewrite to_int32_small by (unfold JS.two31 in *; lia).
  change (Z.land 1 31) with 1%Z. rewrite Z.shiftr_div_pow2 by lia.
  reflexivity.
Qed.

Lemma clampInt_range v b :
  (0 <= b < JS.two31)%Z -> (0 <= clampInt v 0 b <= b)%Z.
Proof.
  intros Hb. unfold clampInt.
  rewrite to_int32_small; unfold JS.two31 in *; lia.
Qed.

Lemma clampInt_degenerate v b : (b < 0)%Z -> clampInt v 0 b = 0%Z.
Proof.
  intros Hb. unfold clampInt.
  replace (Z.max 0 (Z.min b (JS.to_int32 v))) with 0%Z by lia.
  reflexivity.
Qed.

(** ** [Math.max] and [Math.floor] *)

Lemma Math_max_r a b : a <= b -> JS.Math_max a b == b.
Proof.
  intros Hab. unfold JS.Math_max.
  destruct (Qle_bool b a) eqn:E; [|reflexivity].
  apply Qle_bool_iff in E. apply Qle_antisym; assumption.
Qed.

Lemma Math_max_l a b : b < a -> JS.Math_max a b = a.
Proof.
  intros Hab. unfold JS.Math_max.
  destruct (Qle_bool b a) eqn:E; [reflexivity|].
  exfalso. apply Qlt_le_weak, Qle_bool_iff in Hab. congruence.
Qed.

Lemma Math_max_lb a b : a <= JS.Math_max a b.
Proof.
  unfold JS.Math_max. destruct (Qle_bool b a) eqn:E.
  - apply Qle_refl.
  - destruct (Qlt_le_dec a b) as [H|H]; [lra|].
    apply Qle_bool_iff in H. congruence.
Qed.


(** ** The generator *)

Lemma RingRNG_step_range r : (0 <= RingRNG.s (RingRNG.step r) < JS.two32)%Z.
Proof. apply to_uint32_range. Qed.

Lemma RingRNG_next_range r : 0 <= snd (RingRNG.next r) < 1.
Proof.
  unfold RingRNG.next. cbn [snd].
  pose proof (and_low31_range (RingRNG.s (RingRNG.step r))) as [Hlo Hhi].
  set (m := JS.and _ _) in *.
  unfold JS.two31 in Hhi.
  unfold Qdiv, Qmult, Qinv, inject_Z, Qle, Qlt. cbn.
  lia.
Qed.

Lemma RingRNG_norm_range r : -1 <= snd (RingRNG.norm r) < 1.
Proof.
  unfold RingRNG.norm.
  pose proof (RingRNG_next_range r) as H.
  destruct (RingRNG.next r) as [r' u]. cbn [snd] in *. lra.
Qed.

(** The first numbers of the processor's generator, seeded with 123456. *)
Example RingRNG_first_numbers :
  let r1 := RingRNG.step (RingRNG.constructor 123456) in
  RingRNG.s r1 = 3044438244%Z
  /\ RingRNG.s (RingRNG.step r1) = 372467569%Z
  /\ snd (RingRNG.next (RingRNG.constructor 123456)) = 896954596 # 2147483648.
Proof. vm_compute. repeat split. Qed.

(** ** Grain scheduling *)

Lemma scheduleGrainForVoice_loaded p r v g o j :
  (0 < frames p)%Z ->
  scheduleGrainForVoice p r v g o j =
    let G := grainFrames_of g (sampleRateSrc p) in
    let lim := (frames p - G - 1)%Z in
    let n1 := RingRNG.next r in
    let n2 := RingRNG.norm (fst n1) in
    let sL := clampInt (JS.Math_floor (snd n1 * inject_Z lim)
                        + JS.Math_floor (j * sampleRateSrc p * snd n2)) 0 lim in
    (fst n2,
     Voice.mk (Voice.id v) (Voice.rate v) (Voice.gain v) (Voice.on v) (Voice.time v)
       (Voice.nextGrainAt v + intervalSec_of g o)
       (Voice.grains v ++
          [Grain.mk (inject_Z sL) (inject_Z sL) G 0 (Voice.rate v) (Voice.gain v)])).
Proof.
  intros Hlen. unfold scheduleGrainForVoice.
  destruct (frames p <=? 0)%Z eqn:E; [apply Z.leb_le in E; lia|].
  destruct (RingRNG.next r) as [r1 u1]. cbn [fst snd].
  destruct (RingRNG.norm r1) as [r2 u2]. cbn [fst snd].
  reflexivity.
Qed.

(** C4, as amended: every grain that is scheduled moves the next-grain time
    of its voice by max(0.001, grainSizeSec * (1 - overlap)) seconds; where
    grainSizeSec * (1 - overlap) is at least 0.001 the interval is that
    product, below it the interval is the floor of 0.001; with overlap = 0
    and a grain of at least 1 ms the interval is the grain size. *)
Theorem grain_interval p r v g o j :
  (0 < frames p)%Z ->
  Voice.nextGrainAt (snd (scheduleGrainForVoice p r v g o j))
    = Voice.nextGrainAt v + JS.Math_max 0.001 (g * (1 - o))
  /\ (0.001 <= g * (1 - o) -> intervalSec_of g o == g * (1 - o))
  /\ (g * (1 - o) < 0.001 -> intervalSec_of g o = 0.001)
  /\ (o == 0 -> 0.001 <= g -> intervalSec_of g o == g).
Proof.
  intros Hlen. rewrite scheduleGrainForVoice_loaded by exact Hlen.
  cbn [snd Voice.nextGrainAt]. unfold intervalSec_of.
  repeat split.
  - intros H. apply Math_max_r. exact H.
  - intros H. apply Math_max_l. exact H.
  - intros Ho Hg. rewrite Math_max_r; rewrite Ho; lra.
Qed.

Lemma grain_interval_witness :
  ((0 < frames one_second)%Z /\ 0.001 <= 0.03125 * (1 - 0.5))
  /\ Voice.nextGrainAt
       (snd (scheduleGrainForVoice one_second (rng one_second)
               (Voice.constructor 2 1 1) 0.03125 0.5 0))
     = 0 + JS.Math_max 0.001 (0.03125 * (1 - 0.5))
  /\ intervalSec_of 0.03125 0.5 == 0.03125 * (1 - 0.5).
Proof.
  assert (Hlen : (0 < frames one_second)%Z) by reflexivity.
  assert (Hbig : 0.001 <= 0.03125 * (1 - 0.5)) by (vm_compute; discriminate).
  pose proof (grain_interval one_second (rng one_second) (Voice.constructor 2 1 1)
                0.03125 0.5 0 Hlen) as (H1 & H2 & _).
  split; [split; assumption|]. split; [exact H1 | exact (H2 Hbig)].
Defined.

(** C4, as stated, fails in both of its additions.  At grainSizeSec = 0.01
    and overlap = 0.94, both inside their ranges, the interval is 0.001 s,
    not 0.0006 s.  And at overlap = 0 the grains need not abut: a voice on a
    48 kHz segment, rendered at 48 kHz in blocks of 128 frames with
    grainSizeSec = 0.03125, plays a grain of 1500 frames that is 1408 frames
    in after 11 blocks and over after 12, while the next grain starts with
    block 13 only, at frame 1536, which leaves 36 frames with no grain; on a
    96 kHz segment the same grain has 3000 frames, so that after block 13 it
    still plays (1664 frames in) next to the second grain (128 frames
    in). *)
Lemma grain_interval_counterexample :
  let v := Voice.constructor 2 1 1 in
  let v' := snd (scheduleGrainForVoice one_second (rng one_second) v 0.01 0.94 0) in
  let load sr := OnMessage (LoadBuffer (Some sr) (Some [silence48k; silence48k])) in
  let on_ := OnMessage (NoteOn (Some 2%Z) (Some 1) (Some 1)) in
  let block := OnBlock 128 (mkParams 0.03125 0 0) in
  let pool sr n :=
    voice_summary ∘ snd
      <$> run (host := polyHost) 1 48000 ([load sr; on_] ++ replicate n block)
            constructor in
  ((0 <= 0.94 /\ 0.94 < 0.95) /\ (0.01 <= 0.01 /\ 0.01 <= 0.25)
   /\ Voice.nextGrainAt v' - Voice.nextGrainAt v == 0.001
   /\ 0.01 * (1 - 0.94) == 0.0006
   /\ ~ (Voice.nextGrainAt v' - Voice.nextGrainAt v == 0.01 * (1 - 0.94)))
  /\ (intervalSec_of 0.03125 0 == 0.03125
      /\ grainFrames_of 0.03125 48000 = 1500%Z
      /\ pool 48000 11%nat = Some [(2%Z, true, [1408%Z])]
      /\ pool 48000 12%nat = Some [(2%Z, true, [])]
      /\ pool 48000 13%nat = Some [(2%Z, true, [128%Z])])
  /\ (grainFrames_of 0.03125 96000 = 3000%Z
      /\ pool 96000 13%nat = Some [(2%Z, true, [1664%Z; 128%Z])]).
Proof.
  cbv zeta. split; [|split].
  - repeat split; try (vm_compute; congruence).
  - repeat split; reflexivity.
  - repeat split; reflexivity.
Qed.




(** ** The voice pool *)

Section Pool.

Context `{host : MathHost}.

Lemma scheduleGrainForVoice_id p r v g o j :
  Voice.id (snd (scheduleGrainForVoice p r v g o j)) = Voice.id v
  /\ Voice.on (snd (scheduleGrainForVoice p r v g o j)) = Voice.on v
  /\ Voice.time (snd (scheduleGrainForVoice p r v g o j)) = Voice.time v.
Proof.
  unfold scheduleGrainForVoice.
  destruct (frames p <=? 0)%Z; [easy|].
  destruct (RingRNG.next r) as [r1 u1].
  destruct (RingRNG.norm r1) as [r2 u2]. easy.
Qed.

Lemma schedule_loop_id fuel : forall p r v g o j r' v',
  schedule_loop fuel p r v g o j = Some (r', v') ->
  Voice.id v' = Voice.id v /\ Voice.on v' = Voice.on v.
Proof.
  induction fuel as [|fuel IH]; intros p r v g o j r' v' H; cbn in H;
    destruct (Qle_bool _ _); try discriminate; try (injection H as <- <-; easy).
  pose proof (scheduleGrainForVoice_id p r v g o j) as (Hid & Hon & _).
  destruct (scheduleGrainForVoice p r v g o j) as [r1 v1]. cbn [snd] in *.
  apply IH in H as [H1 H2]. split; congruence.
Qed.

Lemma schedule_voice_id fuel p r v g o j r' v' :
  schedule_voice fuel p r v g o j = Some (r', v') ->
  Voice.id v' = Voice.id v /\ Voice.on v' = Voice.on v.
Proof.
  unfold schedule_voice. intros H.
  destruct (Qle_bool _ _); [|injection H as <- <-; easy].
  apply schedule_loop_id in H as [H1 H2].
  destruct (Qeq_bool _ _); easy.
Qed.

Lemma schedule_voices_ids fuel p g o j : forall vs r r' vs',
  schedule_voices fuel p r vs g o j = Some (r', vs') ->
  map Voice.id vs' = map Voice.id vs.
Proof.
  induction vs as [|v vs IH]; intros r r' vs' H; cbn in H.
  - injection H as <- <-. reflexivity.
  - destruct (schedule_voice fuel p r v g o j) as [[r1 v1]|] eqn:E1;
      [|discriminate]. cbn in H.
    destruct (schedule_voices fuel p r1 vs g o j) as [[r2 vs2]|] eqn:E2;
      [|discriminate]. cbn in H.
    injection H as <- <-. cbn.
    apply schedule_voice_id in E1 as [-> _].
    f_equal. eapply IH. exact E2.
Qed.

Lemma schedule_voices_length fuel p g o j vs r r' vs' :
  schedule_voices fuel p r vs g o j = Some (r', vs') ->
  length vs' = length vs.
Proof.
  intros H. apply schedule_voices_ids in H.
  rewrite <- (length_map Voice.id vs'), H. apply length_map.
Qed.

Lemma render_voices_length srcL srcR len : forall vs mix,
  (length (fst (render_voices srcL srcR len vs mix)) <= length vs)%nat.
Proof.
  induction vs as [|v vs IH]; intros mix; cbn; [lia|].
  destruct (advance_grains srcL srcR len (Voice.grains v) mix) as [gs mix1].
  specialize (IH mix1).
  destruct (render_voices srcL srcR len vs mix1) as [rest mix2].
  cbn [fst] in *.
  destruct (negb _ && _); cbn; lia.
Qed.

Lemma render_sample_voices sr p :
  (length (voices (fst (render_sample sr p))) <= length (voices p))%nat
  /\ maxVoices (fst (render_sample sr p)) = maxVoices p.
Proof.
  unfold render_sample.
  pose proof (render_voices_length (bufferL p) (bufferR p) (frames p) (voices p)
                (Val 0, Val 0)) as H.
  destruct (render_voices _ _ _ _ _) as [vs [mixL mixR]]. cbn [fst] in H.
  destruct (applyEQ _ mixL _ sr) as [oL eL].
  destruct (applyEQ _ mixR _ sr) as [oR eR]. cbn. easy.
Qed.

Lemma render_block_voices sr : forall k p,
  (length (voices (fst (render_block k sr p))) <= length (voices p))%nat
  /\ maxVoices (fst (render_block k sr p)) = maxVoices p.
Proof.
  induction k as [|k IH]; intros p; cbn; [easy|].
  pose proof (render_sample_voices sr p) as [H1 H2].
  destruct (render_sample sr p) as [p1 [l r]]. cbn [fst] in *.
  specialize (IH p1) as [H3 H4].
  destruct (render_block k sr p1) as [p2 [ls rs]]. cbn [fst] in *.
  split; [lia | congruence].
Qed.

Lemma process_voices fuel sr q params p r :
  process fuel sr q params p = Some r ->
  (length (voices (after r)) <= length (voices p))%nat
  /\ maxVoices (after r) = maxVoices p.
Proof.
  unfold process. intros H.
  destruct (_ || _); [injection H as <-; cbn; easy|].
  destruct (schedule_voices _ _ _ _ _ _ _) as [[r1 vs]|] eqn:E; [|discriminate].
  cbn in H. apply schedule_voices_length in E.
  pose proof (render_block_voices sr q (set_voices vs (set_rng r1 p))) as [H1 H2].
  destruct (render_block _ _ _) as [p2 [ls rs]]. cbn [fst] in *.
  injection H as <-. cbn in *. rewrite length_map. split; [lia | congruence].
Qed.

Lemma voices_set_length id v vs :
  (length (voices_set id v vs) <= S (length vs))%nat.
Proof.
  induction vs as [|w vs IH]; cbn; [lia|].
  destruct (Voice.id w =? id)%Z; cbn; lia.
Qed.

Lemma voices_release_length id vs :
  length (voices_release id vs) = length vs.
Proof.
  induction vs as [|w vs IH]; cbn; [reflexivity|].
  destruct (Voice.id w =? id)%Z; cbn; congruence.
Qed.

Lemma handleMessage_maxVoices m p : maxVoices (handleMessage m p) = maxVoices p.
Proof.
  destruct m as [sr [[|L more]|] | [id|] rate gain | [id|] | [t|] [b|] |]; cbn;
    try reflexivity; destruct (_ <=? _)%nat; reflexivity.
Qed.

Lemma handleMessage_voices m p :
  (length (voices p) <= maxVoices p)%nat ->
  (length (voices (handleMessage m p)) <= maxVoices p)%nat.
Proof.
  intros Hb.
  destruct m as [sr [[|L more]|] | [id|] rate gain | [id|] | [t|] [b|] |]; cbn;
    try exact Hb.
  - destruct (maxVoices p <=? length (voices p))%nat eqn:E; [exact Hb|].
    apply Nat.leb_gt in E. cbn.
    pose proof (voices_set_length id
                  (Voice.constructor id (default 1 rate) (default 0.9 gain))
                  (voices p)). lia.
  - destruct (maxVoices p <=? length (voices p))%nat; exact Hb.
  - rewrite voices_release_length. exact Hb.
Qed.

Lemma run_invariant fuel sr : forall evs p outs p',
  run fuel sr evs p = Some (outs, p') ->
  (length (voices p) <= maxVoices p)%nat ->
  (length (voices p') <= maxVoices p')%nat /\ maxVoices p' = maxVoices p.
Proof.
  induction evs as [|[m|q params] evs IH]; intros p outs p' H Hb; cbn in H.
  - injection H as <- <-. easy.
  - apply IH in H as [H1 H2].
    + rewrite handleMessage_maxVoices in H2. easy.
    + rewrite handleMessage_maxVoices. apply handleMessage_voices. exact Hb.
  - destruct (process fuel sr q params p) as [r|] eqn:E; [|discriminate].
    cbn in H.
    destruct (run fuel sr evs (after r)) as [[outs1 p1]|] eqn:E1; [|discriminate].
    cbn in H. injection H as <- <-.
    apply process_voices in E as [H1 H2].
    apply IH in E1 as [H3 H4]; [split; [exact H3 | congruence] | lia].
Qed.

(** C3: a processor that a new processor has been driven to, by whatever
    messages and render blocks, holds at most 32 voices; inside its next
    block, after the scheduling and after any number of samples, it still
    holds at most 32; and when it holds 32, a NoteOn message leaves the
    whole processor as it was. *)
Theorem voice_pool_bounded fuel sr evs outs p :
  run fuel sr evs constructor = Some (outs, p) ->
  (length (voices p) <= 32)%nat
  /\ (forall fuel' g o j r vs k,
        schedule_voices fuel' p (rng p) (voices p) g o j = Some (r, vs) ->
        (length vs <= 32)%nat
        /\ (length (voices (fst (render_block k sr (set_voices vs (set_rng r p)))))
            <= 32)%nat)
  /\ (forall id rate gain,
        length (voices p) = 32%nat ->
        handleMessage (NoteOn id rate gain) p = p).
Proof.
  intros H. apply run_invariant in H as [Hb Hm]; [|cbn; lia].
  change (maxVoices constructor) with 32%nat in Hm. rewrite Hm in Hb.
  split; [exact Hb|]. split.
  - intros fuel' g o j r vs k E.
    apply schedule_voices_length in E.
    pose proof (render_block_voices sr k (set_voices vs (set_rng r p))) as [H1 _].
    cbn in H1. lia.
  - intros id rate gain Hfull. cbn.
    rewrite Hm, Hfull. reflexivity.
Qed.

End Pool.

Lemma voice_pool_bounded_witness :
  (run (host := polyHost) 0 48000 flood constructor = Some ([], flooded)
   /\ length (voices flooded) = 32%nat)
  /\ (length (voices flooded) <= 32)%nat
  /\ handleMessage (NoteOn (Some 99%Z) (Some 1) (Some 1)) flooded = flooded.
Proof.
  assert (E : run (host := polyHost) 0 48000 flood constructor = Some ([], flooded))
    by (vm_compute; reflexivity).
  assert (Hfull : length (voices flooded) = 32%nat) by (vm_compute; reflexivity).
  pose proof (voice_pool_bounded (host := polyHost) 0 48000 flood [] flooded E)
    as (Hb & _ & Hdrop).
  split; [split; [exact E | exact Hfull]|].
  split; [exact Hb | exact (Hdrop (Some 99%Z) (Some 1) (Some 1) Hfull)].
Defined.

(** Of 37 note-ons the first 32 get a voice. *)
Example flood_fills_the_pool :
  voices flooded = map (fun i => Voice.constructor (Z.of_nat i) 1 0.9) (seq 1 32).
Proof. vm_compute. reflexivity. Qed.

(** ** Termination of the catch-up loop and independence of the fuel *)

Section Fuel.

Context `{host : MathHost}.

Lemma schedule_loop_fuel p g o j : forall f1 f2 r v x y,
  schedule_loop f1 p r v g o j = Some x ->
  schedule_loop f2 p r v g o j = Some y -> x = y.
Proof.
  induction f1 as [|f1 IH]; intros f2 r v x y H1 H2.
  - destruct f2; cbn in H1, H2; destruct (Qle_bool _ _); congruence.
  - destruct f2; cbn in H1, H2; destruct (Qle_bool _ _); try congruence.
    destruct (scheduleGrainForVoice p r v g o j) as [r1 v1].
    eapply IH; eassumption.
Qed.

Lemma schedule_voice_fuel p g o j f1 f2 r v x y :
  schedule_voice f1 p r v g o j = Some x ->
  schedule_voice f2 p r v g o j = Some y -> x = y.
Proof.
  unfold schedule_voice. destruct (Qle_bool _ _); [|congruence].
  apply schedule_loop_fuel.
Qed.

Lemma schedule_voices_fuel p g o j f1 f2 : forall vs r x y,
  schedule_voices f1 p r vs g o j = Some x ->
  schedule_voices f2 p r vs g o j = Some y -> x = y.
Proof.
  induction vs as [|v vs IH]; intros r x y H1 H2; cbn in H1, H2; [congruence|].
  destruct (schedule_voice f1 p r v g o j) as [[r1 v1]|] eqn:E1; [|discriminate].
  destruct (schedule_voice f2 p r v g o j) as [[r2 v2]|] eqn:E2; [|discriminate].
  pose proof (schedule_voice_fuel _ _ _ _ _ _ _ _ _ _ E1 E2) as E.
  injection E as <- <-. cbn in H1, H2.
  destruct (schedule_voices f1 p r1 vs g o j) as [[r3 vs3]|] eqn:E3; [|discriminate].
  destruct (schedule_voices f2 p r1 vs g o j) as [[r4 vs4]|] eqn:E4; [|discriminate].
  pose proof (IH _ _ _ E3 E4) as E.
  injection E as <- <-. cbn in H1, H2. congruence.
Qed.

Lemma process_fuel f1 f2 sr q params p r1 r2 :
  process f1 sr q params p = Some r1 ->
  process f2 sr q params p = Some r2 -> r1 = r2.
Proof.
  unfold process. destruct (_ || _); [congruence|].
  intros H1 H2.
  destruct (schedule_voices f1 _ _ _ _ _ _) as [[ra va]|] eqn:E1; [|discriminate].
  destruct (schedule_voices f2 _ _ _ _ _ _) as [[rb vb]|] eqn:E2; [|discriminate].
  pose proof (schedule_voices_fuel _ _ _ _ _ _ _ _ _ _ E1 E2) as E.
  injection E as <- <-. cbn in H1, H2. congruence.
Qed.

Lemma scheduleGrainForVoice_clock p r v g o j :
  (0 < frames p)%Z ->
  Voice.time (snd (scheduleGrainForVoice p r v g o j)) = Voice.time v
  /\ Voice.nextGrainAt (snd (scheduleGrainForVoice p r v g o j))
     = Voice.nextGrainAt v + intervalSec_of g o.
Proof.
  intros Hlen. rewrite scheduleGrainForVoice_loaded by exact Hlen.
  split; reflexivity.
Qed.

(** The loop is left after finitely many grains: each one moves the
    next-grain time by at least a millisecond. *)
Lemma schedule_loop_terminates p g o j :
  (0 < frames p)%Z ->
  forall n r v,
    Voice.time v + 1e-6 - Voice.nextGrainAt v < inject_Z (Z.of_nat n) * 0.001 ->
    forall fuel, (n <= fuel)%nat ->
      is_Some (schedule_loop fuel p r v g o j).
Proof.
  intros Hlen. induction n as [|n IH]; intros r v Hn fuel Hfuel.
  - assert (Hexit : Qle_bool (Voice.nextGrainAt v) (Voice.time v + 1e-6) = false).
    { destruct (Qle_bool _ _) eqn:E; [|reflexivity].
      apply Qle_bool_iff in E.
      change (inject_Z (Z.of_nat 0)) with 0 in Hn. lra. }
    destruct fuel; cbn [schedule_loop]; rewrite Hexit; eauto.
  - destruct fuel as [|fuel]; [lia|]. cbn [schedule_loop].
    destruct (Qle_bool _ _) eqn:E; [|eauto].
    pose proof (scheduleGrainForVoice_clock p r v g o j Hlen) as [Ht Hnext].
    destruct (scheduleGrainForVoice p r v g o j) as [r1 v1]. cbn [snd] in *.
    apply IH; [|lia]. rewrite Ht, Hnext.
    pose proof (Math_max_lb 0.001 (g * (1 - o))) as Hstep.
    unfold intervalSec_of.
    rewrite Nat2Z.inj_succ in Hn. unfold Z.succ in Hn.
    rewrite inject_Z_plus in Hn. change (inject_Z 1) with 1 in Hn. lra.
Qed.

Lemma archimedes (x : Q) : exists n : nat, x < inject_Z (Z.of_nat n) * 0.001.
Proof.
  exists (Z.to_nat (Z.max 0 (Qfloor (x * 1000) + 1))).
  rewrite Z2Nat.id by lia.
  pose proof (Qlt_floor (x * 1000)) as Hfl.
  assert (Hm : inject_Z (Qfloor (x * 1000) + 1)
               <= inject_Z (Z.max 0 (Qfloor (x * 1000) + 1)))
    by (rewrite <- Zle_Qle; lia).
  lra.
Qed.

Lemma schedule_voice_terminates p g o j r v :
  (0 < frames p)%Z ->
  exists n, forall fuel, (n <= fuel)%nat ->
    is_Some (schedule_voice fuel p r v g o j).
Proof.
  intros Hlen. unfold schedule_voice.
  destruct (Qle_bool _ _); [|exists 0%nat; eauto].
  set (v1 := if Qeq_bool (Voice.time v) 0 then Voice.set_nextGrainAt 0 v else v).
  destruct (archimedes (Voice.time v1 + 1e-6 - Voice.nextGrainAt v1)) as [n Hn].
  exists n. intros fuel Hfuel.
  eapply schedule_loop_terminates; eassumption.
Qed.

Lemma schedule_loop_more_fuel p g o j : forall f r v x,
  schedule_loop f p r v g o j = Some x ->
  forall f', (f <= f')%nat -> schedule_loop f' p r v g o j = Some x.
Proof.
  intros f r v x H f' Hle.
  destruct (schedule_loop f' p r v g o j) as [y|] eqn:E.
  - f_equal. eapply schedule_loop_fuel; eassumption.
  - exfalso. revert r v x f' Hle H E.
    induction f as [|f IH]; intros r v x f' Hle H E.
    + cbn in H. destruct f'; cbn in E; destruct (Qle_bool _ _); congruence.
    + destruct f' as [|f']; [lia|]. cbn in H, E.
      destruct (Qle_bool _ _); [|congruence].
      destruct (scheduleGrainForVoice p r v g o j) as [r1 v1].
      eapply (IH r1 v1 x f'); [lia| |]; eassumption.
Qed.

Lemma schedule_voices_terminates p g o j :
  (0 < frames p)%Z ->
  forall vs r, exists n, forall fuel, (n <= fuel)%nat ->
    is_Some (schedule_voices fuel p r vs g o j).
Proof.
  intros Hlen. induction vs as [|v vs IH]; intros r.
  - exists 0%nat. intros fuel _. cbn. eauto.
  - destruct (schedule_voice_terminates p g o j r v Hlen) as [n1 H1].
    destruct (H1 n1 ltac:(lia)) as [[r1 v1] E1].
    destruct (IH r1) as [n2 H2].
    exists (Nat.max n1 n2). intros fuel Hfuel. cbn.
    destruct (H1 fuel ltac:(lia)) as [[r1' v1'] E1'].
    assert (Heq : (r1', v1') = (r1, v1))
      by (eapply schedule_voice_fuel; eassumption).
    injection Heq as -> ->. rewrite E1'. cbn.
    destruct (H2 fuel ltac:(lia)) as [[r2 vs2] E2]. rewrite E2. cbn. eauto.
Qed.

(** Every render block completes once the fuel is large enough. *)
Lemma process_completes sr q params p :
  exists n, forall fuel, (n <= fuel)%nat -> is_Some (process fuel sr q params p).
Proof.
  unfold process.
  destruct ((frames p <=? 0)%Z || (length (bufferL p) =? 0)%nat) eqn:E.
  - exists 0%nat. eauto.
  - apply orb_false_iff in E as [E _]. apply Z.leb_gt in E.
    destruct (schedule_voices_terminates p (grainSize params)
                (clamp (overlap params) 0 0.95) (clamp (jitter params) 0 0.02)
                E (voices p) (rng p)) as [n Hn].
    exists n. intros fuel Hfuel.
    destruct (Hn fuel Hfuel) as [[r vs] ->]. cbn.
    destruct (render_block _ _ _) as [p2 [ls rs]]. eauto.
Qed.

Lemma process_more_fuel f sr q params p r :
  process f sr q params p = Some r ->
  forall f', (f <= f')%nat -> process f' sr q params p = Some r.
Proof.
  intros H f' Hle.
  destruct (process_completes sr q params p) as [n Hn].
  destruct (Hn (Nat.max n f') ltac:(lia)) as [rbig Ebig].
  destruct (process f' sr q params p) as [r'|] eqn:E.
  - f_equal. eapply process_fuel; eassumption.
  - exfalso. revert H E. unfold process.
    destruct (_ || _); [congruence|].
    destruct (schedule_voices f _ _ _ _ _ _) as [[ra va]|] eqn:E1; [|discriminate].
    intros _.
    destruct (schedule_voices f' _ _ _ _ _ _) as [[rb vb]|] eqn:E2;
      [cbn; destruct (render_block _ _ _) as [? [? ?]]; discriminate|].
    intros _. clear Ebig Hn.
    revert E1 E2. generalize (rng p) as r0. generalize (voices p) as vs.
    intros vs. revert ra va.
    induction vs as [|v vs IH]; intros ra va r0 E1 E2; cbn in E1, E2;
      [discriminate|].
    destruct (schedule_voice f p r0 v _ _ _) as [[r1 v1]|] eqn:Ev; [|discriminate].
    assert (Ev' : schedule_voice f' p r0 v (grainSize params)
                    (clamp (overlap params) 0 0.95) (clamp (jitter params) 0 0.02)
                  = Some (r1, v1)).
    { revert Ev. unfold schedule_voice.
      destruct (Qle_bool _ _); [|easy].
      intros Ev. eapply schedule_loop_more_fuel; eassumption. }
    rewrite Ev' in E2. cbn in E1, E2.
    destruct (schedule_voices f p r1 vs _ _ _) as [[r2 vs2]|] eqn:Er; [|discriminate].
    destruct (schedule_voices f' p r1 vs _ _ _) as [[r3 vs3]|] eqn:Er';
      [discriminate|].
    eapply IH; eassumption.
Qed.

(** Every sequence of events runs to its end once the fuel is large
    enough. *)
Lemma run_completes sr : forall evs p,
  exists n, forall fuel, (n <= fuel)%nat -> is_Some (run fuel sr evs p).
Proof.
  induction evs as [|[m|q params] evs IH]; intros p.
  - exists 0%nat. intros fuel _. cbn. eauto.
  - destruct (IH (handleMessage m p)) as [n Hn]. exists n. exact Hn.
  - destruct (process_completes sr q params p) as [n1 H1].
    destruct (H1 n1 ltac:(lia)) as [r E].
    destruct (IH (after r)) as [n2 H2].
    exists (Nat.max n1 n2). intros fuel Hfuel. cbn.
    rewrite (process_more_fuel n1 sr q params p r E fuel ltac:(lia)). cbn.
    destruct (H2 fuel ltac:(lia)) as [[outs p'] ->]. cbn. eauto.
Qed.

(** The result of a run does not depend on the fuel that its loops were
    given, once the fuel is enough for the run to complete. *)
Lemma run_fuel_irrelevant f1 f2 sr : forall evs p outs1 p1 outs2 p2,
  run f1 sr evs p = Some (outs1, p1) ->
  run f2 sr evs p = Some (outs2, p2) ->
  outs1 = outs2 /\ p1 = p2.
Proof.
  induction evs as [|[m|q params] evs IH]; intros p outs1 p1 outs2 p2 H1 H2;
    cbn in H1, H2.
  - split; congruence.
  - eapply IH; eassumption.
  - destruct (process f1 sr q params p) as [ra|] eqn:E1; [|discriminate].
    destruct (process f2 sr q params p) as [rb|] eqn:E2; [|discriminate].
    pose proof (process_fuel _ _ _ _ _ _ _ _ E1 E2) as <-. cbn in H1, H2.
    destruct (run f1 sr evs (after ra)) as [[oa pa]|] eqn:E3; [|discriminate].
    destruct (run f2 sr evs (after ra)) as [[ob pb]|] eqn:E4; [|discriminate].
    destruct (IH _ _ _ _ _ E3 E4) as [<- <-]. cbn in H1, H2.
    split; congruence.
Qed.

(** C6: without a segment (a segment length of 0, or an empty left buffer)
    a render block returns [true] with both channels all zero and leaves
    the processor, its voices included, as it was. *)
Theorem silence_without_segment fuel sr quantum params p :
  (frames p <= 0)%Z \/ bufferL p = [] ->
  process fuel sr quantum params p
  = Some (mkRendered true (replicate quantum (Val 0)) (replicate quantum (Val 0)) p).
Proof.
  intros H. unfold process.
  destruct ((frames p <=? 0)%Z || (length (bufferL p) =? 0)%nat) eqn:E;
    [reflexivity|].
  apply orb_false_iff in E as [E1 E2].
  apply Z.leb_gt in E1. apply Nat.eqb_neq in E2.
  destruct H as [H|H]; [lia|]. rewrite H in E2. cbn in E2. congruence.
Qed.

End Fuel.

Lemma silence_without_segment_witness :
  let p := handleMessage (NoteOn (Some 7%Z) None None) constructor in
  ((frames p <= 0)%Z \/ bufferL p = [])
  /\ process (host := polyHost) 0 48000 128 defaults p
     = Some (mkRendered true (replicate 128 (Val 0)) (replicate 128 (Val 0)) p).
Proof.
  cbv zeta. split; [right; reflexivity|].
  apply (silence_without_segment (host := polyHost)).
  right. reflexivity.
Defined.

(** ** Release *)

Section Release.

Context `{host : MathHost}.

(** The scheduler never looks at the [on] flag: a released voice is
    scheduled exactly as a held one. *)
Lemma scheduleGrainForVoice_on b p r v g o j :
  scheduleGrainForVoice p r (Voice.set_on b v) g o j
  = (fst (scheduleGrainForVoice p r v g o j),
     Voice.set_on b (snd (scheduleGrainForVoice p r v g o j))).
Proof.
  unfold scheduleGrainForVoice.
  destruct (frames p <=? 0)%Z; [reflexivity|].
  destruct (RingRNG.next r) as [r1 u1].
  destruct (RingRNG.norm r1) as [r2 u2]. reflexivity.
Qed.

Lemma schedule_loop_on b p g o j : forall fuel r v,
  schedule_loop fuel p r (Voice.set_on b v) g o j
  = prod_map id (Voice.set_on b) <$> schedule_loop fuel p r v g o j.
Proof.
  induction fuel as [|fuel IH]; intros r v; cbn;
    destruct (Qle_bool _ _); try reflexivity.
  rewrite scheduleGrainForVoice_on.
  destruct (scheduleGrainForVoice p r v g o j) as [r1 v1]. cbn [fst snd].
  apply IH.
Qed.

Lemma schedule_voice_on b fuel p r v g o j :
  schedule_voice fuel p r (Voice.set_on b v) g o j
  = prod_map id (Voice.set_on b) <$> schedule_voice fuel p r v g o j.
Proof.
  unfold schedule_voice. cbn [Voice.set_on Voice.nextGrainAt Voice.time].
  destruct (Qle_bool _ _); [|reflexivity].
  destruct (Qeq_bool _ _);
    [exact (schedule_loop_on b p g o j fuel r (Voice.set_nextGrainAt 0 v))
    |apply schedule_loop_on].
Qed.

Lemma scheduleGrainForVoice_grains p r v g o j :
  (0 < frames p)%Z ->
  length (Voice.grains (snd (scheduleGrainForVoice p r v g o j)))
  = S (length (Voice.grains v)).
Proof.
  intros Hlen. rewrite scheduleGrainForVoice_loaded by exact Hlen.
  cbn [snd Voice.grains]. rewrite length_app. cbn. lia.
Qed.

Lemma schedule_loop_grains p g o j :
  (0 < frames p)%Z ->
  forall fuel r v r' v',
    schedule_loop fuel p r v g o j = Some (r', v') ->
    (length (Voice.grains v) <= length (Voice.grains v'))%nat.
Proof.
  intros Hlen. induction fuel as [|fuel IH]; intros r v r' v' H;
    cbn [schedule_loop] in H; destruct (Qle_bool _ _);
    try discriminate; try (injection H as <- <-; lia).
  pose proof (scheduleGrainForVoice_grains p r v g o j Hlen) as Hg.
  destruct (scheduleGrainForVoice p r v g o j) as [r1 v1]. cbn [snd] in Hg.
  apply IH in H. lia.
Qed.

(** With a segment loaded, a released voice whose next-grain time has come
    is given at least one new grain by the scheduling loop of [process],
    and stays released. *)
Lemma released_voice_gets_a_grain fuel p r v g o j r' v' :
  (0 < frames p)%Z ->
  Voice.on v = false ->
  Qle_bool (Voice.nextGrainAt v) (Voice.time v + 1e-6) = true ->
  schedule_voice fuel p r v g o j = Some (r', v') ->
  (length (Voice.grains v) < length (Voice.grains v'))%nat /\ Voice.on v' = false.
Proof.
  intros Hlen Hoff Hdue H.
  pose proof (schedule_voice_id _ _ _ _ _ _ _ _ _ H) as [_ Hon].
  split; [|congruence].
  unfold schedule_voice in H. rewrite Hdue in H.
  set (v1 := if Qeq_bool (Voice.time v) 0 then Voice.set_nextGrainAt 0 v else v) in H.
  assert (Hg1 : Voice.grains v1 = Voice.grains v)
    by (unfold v1; destruct (Qeq_bool _ _); reflexivity).
  assert (Hdue1 : Qle_bool (Voice.nextGrainAt v1) (Voice.time v1 + 1e-6) = true).
  { unfold v1. destruct (Qeq_bool (Voice.time v) 0) eqn:E; [|exact Hdue].
    cbn [Voice.set_nextGrainAt Voice.nextGrainAt Voice.time].
    apply Qeq_bool_iff in E. apply Qle_bool_iff. rewrite E. discriminate. }
  destruct fuel as [|fuel]; cbn [schedule_loop] in H; rewrite Hdue1 in H;
    [discriminate|].
  pose proof (scheduleGrainForVoice_grains p r v1 g o j Hlen) as Hg.
  destruct (scheduleGrainForVoice p r v1 g o j) as [r2 v2]. cbn [snd] in Hg.
  apply (schedule_loop_grains p g o j Hlen) in H. rewrite <- Hg1. lia.
Qed.

(** C1, the code at the failing input: a voice released before its first
    block has no grain, and the next block gives it one; a voice released
    after its first block is given a second grain six blocks later, while
    the first one is still playing. *)
Theorem released_voice_is_scheduled :
  let load := OnMessage (LoadBuffer (Some 48000) (Some [silence48k; silence48k])) in
  let on_ := OnMessage (NoteOn (Some 2%Z) (Some 1) (Some 1)) in
  let off := OnMessage (NoteOff (Some 2%Z)) in
  let block := OnBlock 128 defaults in
  let pool evs := voice_summary ∘ snd <$> run 1 48000 evs constructor in
  pool [load; on_; off] = Some [(2%Z, false, [])]
  /\ pool [load; on_; off; block] = Some [(2%Z, false, [128%Z])]
  /\ pool ([load; on_; block; off] ++ replicate 5 block)
     = Some [(2%Z, false, [768%Z])]
  /\ pool ([load; on_; block; off] ++ replicate 6 block)
     = Some [(2%Z, false, [896%Z; 128%Z])].
Proof. cbv zeta. repeat split; reflexivity. Qed.

End Release.

(** ** Reads of the segment *)

Section Reads.

Context `{host : MathHost}.

Lemma readInterp_in_bounds buf pos :
  0 <= pos -> pos < inject_Z (Z.of_nat (length buf)) ->
  in_bounds buf (fst (readInterp_indices buf pos))
  /\ in_bounds buf (snd (readInterp_indices buf pos))
  /\ is_NaN (readInterp buf pos) = false.
Proof.
  intros H0 Hlt. unfold readInterp_indices, readInterp, in_bounds. cbn [fst snd].
  unfold JS.Math_floor.
  assert (Hi0 : (0 <= Qfloor pos)%Z).
  { rewrite <- (Qfloor_Z 0). apply Qfloor_resp_le. exact H0. }
  assert (Hi1 : (Qfloor pos < Z.of_nat (length buf))%Z).
  { apply Z.lt_nge. intros Hge. rewrite Zle_Qle in Hge.
    pose proof (Qfloor_le pos). lra. }
  split; [lia|].
  destruct (Z.of_nat (length buf) <=? Qfloor pos + 1)%Z eqn:E.
  - split; [lia|].
    change (buf_get buf 0) with (buf !! 0%nat).
    unfold buf_get.
    destruct (Qfloor pos <? 0)%Z eqn:E0; [apply Z.ltb_lt in E0; lia|].
    destruct (lookup_lt_is_Some_2 buf (Z.to_nat (Qfloor pos)) ltac:(lia)) as [a ->].
    destruct (lookup_lt_is_Some_2 buf 0%nat ltac:(lia)) as [b ->].
    reflexivity.
  - apply Z.leb_gt in E. split; [lia|].
    unfold buf_get.
    destruct (Qfloor pos <? 0)%Z eqn:E0; [apply Z.ltb_lt in E0; lia|].
    destruct (Qfloor pos + 1 <? 0)%Z eqn:E1; [apply Z.ltb_lt in E1; lia|].
    destruct (lookup_lt_is_Some_2 buf (Z.to_nat (Qfloor pos)) ltac:(lia)) as [a ->].
    destruct (lookup_lt_is_Some_2 buf (Z.to_nat (Qfloor pos + 1)) ltac:(lia))
      as [b ->].
    reflexivity.
Qed.

(** A rate of at most the segment length is what the single subtraction of
    [process] can take back into the segment. *)
Lemma step_grain_wraps srcL srcR len g mix g' mix' :
  0 <= Grain.posL g -> Grain.posL g < inject_Z len ->
  0 <= Grain.rate g -> Grain.rate g <= inject_Z len ->
  step_grain srcL srcR len g mix = (Some g', mix') ->
  0 <= Grain.posL g' /\ Grain.posL g' < inject_Z len
  /\ Grain.rate g' = Grain.rate g.
Proof.
  intros Hp0 Hp1 Hr0 Hr1. unfold step_grain.
  destruct (Grain.length g <=? Grain.i g + 1)%Z; [discriminate|].
  intros H. injection H as <- _. cbn.
  destruct (Qle_bool (inject_Z len) (Grain.posL g + Grain.rate g)) eqn:E.
  - apply Qle_bool_iff in E. repeat split; lra.
  - assert (~ inject_Z len <= Grain.posL g + Grain.rate g)
      by (intros Hc; apply Qle_bool_iff in Hc; congruence).
    repeat split; lra.
Qed.

(** C7, the code at the failing input: on a segment of one frame a grain of
    rate 2 is at position 1 after its first sample, so the second sample
    reads index 1 of a one-frame buffer; from there on every output sample
    is not-a-number, and after 128 samples the grain stands at position
    128. *)
Theorem wrap_misses_short_segment :
  let p := handleMessage (NoteOn (Some 2%Z) (Some 2) (Some 1))
             (handleMessage (LoadBuffer (Some 48000) (Some [[0]; [0]])) constructor) in
  let r := process 1 48000 128 defaults p in
  (frames p = 1%Z /\ bufferL p = [0] /\ bufferR p = [0])
  /\ map is_NaN ∘ outL <$> r = Some (false :: replicate 127 true)
  /\ map is_NaN ∘ outR <$> r = Some (false :: replicate 127 true)
  /\ map Qred ∘ grain_positions ∘ after <$> r = Some [128]
  /\ readInterp_indices [0] 1 = (1%Z, 0%Z)
  /\ ~ in_bounds [0] 1
  /\ readInterp [0] 1 = NaN.
Proof.
  cbv zeta. repeat split; try reflexivity.
  unfold in_bounds. cbn. lia.
Qed.

End Reads.

(** ** The timbre shaper *)

Section Shaper.

Context `{host : MathHost}.


End Shaper.

(** ** Edge fades *)

Lemma foldl_alter_untouched (f : nat -> Q -> Q) (idx : nat -> nat) (k : nat) :
  forall (ixs : list nat) (data : list Q),
    Forall (fun i => idx i <> k) ixs ->
    foldl (fun d i => alter (f i) (idx i) d) data ixs !! k = data !! k.
Proof.
  induction ixs as [|i ixs IH]; intros data Hne; cbn; [reflexivity|].
  inversion Hne as [|? ? Hi Hixs]; subst.
  rewrite IH by exact Hixs.
  apply list_lookup_alter_ne. exact Hi.
Qed.

Lemma fadeN_of_half n fadeSec sr :
  (0 <= n < JS.two31)%Z -> (fadeN_of n fadeSec sr <= n / 2)%Z.
Proof. intros Hn. unfold fadeN_of. rewrite shr_half by exact Hn. lia. Qed.

Lemma half_twice (n : Z) : (n / 2 * 2 <= n)%Z.
Proof.
  pose proof (Z.mod_pos_bound n 2). pose proof (Z.div_mod n 2). lia.
Qed.

Lemma fade_in_last fadeN (data : list Q) :
  (fadeN <= Z.of_nat (length data) / 2)%Z ->
  fade_in fadeN data !! pred (length data) = data !! pred (length data).
Proof.
  intros Hf. unfold fade_in.
  apply (foldl_alter_untouched
           (fun i x => x * (inject_Z (Z.of_nat i) / inject_Z fadeN)) (fun i => i)).
  apply Forall_forall. intros i Hi.
  apply list_elem_of_In, in_seq in Hi.
  pose proof (half_twice (Z.of_nat (length data))). lia.
Qed.

Lemma fade_in_length fadeN (data : list Q) :
  length (fade_in fadeN data) = length data.
Proof.
  unfold fade_in. generalize (seq 0 (Z.to_nat fadeN)). intros ixs.
  revert data. induction ixs as [|i ixs IH]; intros data; cbn; [reflexivity|].
  rewrite IH. apply length_alter.
Qed.

Lemma fade_out_length n fadeN (data : list Q) :
  length (fade_out n fadeN data) = length data.
Proof.
  unfold fade_out. generalize (seq 0 (Z.to_nat fadeN)). intros ixs.
  revert data. induction ixs as [|i ixs IH]; intros data; cbn; [reflexivity|].
  rewrite IH. apply length_alter.
Qed.

Lemma fade_out_last fadeN (data : list Q) :
  (1 <= fadeN <= Z.of_nat (length data) / 2)%Z ->
  fade_out (Z.of_nat (length data)) fadeN data !! pred (length data)
  = (fun x => x * (1 - inject_Z 0 / inject_Z fadeN)) <$> data !! pred (length data).
Proof.
  intros Hf. unfold fade_out.
  pose proof (half_twice (Z.of_nat (length data))) as Hhalf.
  destruct (Z.to_nat fadeN) as [|m] eqn:Em; [lia|].
  cbn [seq foldl].
  rewrite (foldl_alter_untouched
             (fun i x => x * (1 - inject_Z (Z.of_nat i) / inject_Z fadeN))
             (fun i => Z.to_nat (Z.of_nat (length data) - 1 - Z.of_nat i))).
  - replace (Z.to_nat (Z.of_nat (length data) - 1 - Z.of_nat 0))
      with (pred (length data)) by lia.
    apply list_lookup_alter_eq.
  - apply Forall_forall. intros i Hi.
    apply list_elem_of_In, in_seq in Hi. lia.
Qed.

(** The fade-out loop starts at the last sample with the gain 1: whatever
    the fade length, [applyEdgeFades] leaves the last sample of a channel
    as it was. *)
Lemma edge_fades_keep_last_sample (data : list Q) (fadeSec sr x : Q) :
  let n := Z.of_nat (length data) in
  let fadeN := fadeN_of n fadeSec sr in
  (n < JS.two31)%Z ->
  last data = Some x ->
  exists y, last (fade_out n fadeN (fade_in fadeN data)) = Some y /\ y == x.
Proof.
  intros n fadeN Hn Hx.
  pose proof (fadeN_of_half n fadeSec sr ltac:(lia)) as Hhalf. fold fadeN in Hhalf.
  rewrite last_lookup in Hx.
  destruct (Z_lt_le_dec fadeN 1) as [Hsmall|Hbig].
  - exists x. split; [|reflexivity].
    unfold fade_out, fade_in.
    replace (Z.to_nat fadeN) with 0%nat by lia. cbn.
    rewrite last_lookup. exact Hx.
  - exists (x * (1 - inject_Z 0 / inject_Z fadeN)). split.
    + rewrite last_lookup, fade_out_length, fade_in_length.
      pose proof (fade_out_last fadeN (fade_in fadeN data)) as Hout.
      rewrite fade_in_length in Hout. fold n in Hout.
      rewrite Hout by lia.
      rewrite fade_in_last by (fold n; lia).
      rewrite Hx. reflexivity.
    + unfold Qdiv. change (inject_Z 0) with 0. ring.
Qed.

(** C2, the code at the failing input: of a region of 90 frames of full
    scale at 8 kHz the fades span 4 frames; the first four samples rise
    0, 1/4, 1/2, 3/4, and the last four rise again, 1/4, 1/2, 3/4, 1: the
    last sample of the prepared segment is at full scale. *)
Theorem fade_out_ramps_up_to_the_end :
  map (map Qred) (ab_channels (prepare_segment recording 0 1))
  = [[0; 1 # 4; 1 # 2; 3 # 4] ++ replicate 82 1 ++ [1 # 4; 1 # 2; 3 # 4; 1]].
Proof. vm_compute. reflexivity. Qed.

(** ** The control interface *)

Section ControlFacts.

Context `{host : MathHost}.

Lemma sounding_snoc msgs m :
  sounding (msgs ++ [m]) = sounding_step (sounding msgs) m.
Proof. unfold sounding. rewrite foldl_app. reflexivity. Qed.

(** [noteOff] of a note that is not active does nothing, so the test of
    [noteOn] can be dropped. *)
Lemma noteOn_releases_first midi (s : Instrument) :
  (if decide (is_Some (active s !! midi)) then noteOff midi s else s)
  = noteOff midi s.
Proof.
  destruct (decide _) as [Hs|Hn]; [reflexivity|].
  unfold noteOff. destruct (active s !! midi) eqn:E; [|reflexivity].
  exfalso. apply Hn. eauto.
Qed.

Lemma noteOn_unfold midi velocity s :
  noteOn midi velocity s =
    let s1 := noteOff midi s in
    let id := JS.to_uint32 (idGen_i s1 + 1) in
    mkInstrument (baseNote s1) (transpose s1) (formantShift s1) (p_brightness s1)
      id (<[midi := id]> (active s1))
      (port s1 ++ [NoteOn (Some id) (Some (midiToPlaybackRate s1 midi))
                     (Some (clamp (default 0.9 velocity) 0.001 1))]).
Proof. unfold noteOn. rewrite noteOn_releases_first. reflexivity. Qed.

Lemma noteOff_fields midi s :
  baseNote (noteOff midi s) = baseNote s
  /\ transpose (noteOff midi s) = transpose s
  /\ idGen_i (noteOff midi s) = idGen_i s
  /\ port (noteOff midi s)
     = port s ++ match active s !! midi with
                 | Some old => [NoteOff (Some old)]
                 | None => []
                 end
  /\ (forall id, <[midi := id]> (active (noteOff midi s))
                 = <[midi := id]> (active s)).
Proof.
  unfold noteOff. destruct (active s !! midi) eqn:E; cbn.
  - repeat split. intros id. apply insert_delete_eq.
  - rewrite app_nil_r. repeat split.
Qed.

Lemma noteOff_clears midi s : active (noteOff midi s) !! midi = None.
Proof.
  unfold noteOff. destruct (active s !! midi) eqn:E; [|exact E].
  cbn. apply lookup_delete_eq.
Qed.

Lemma noteOff_consistent midi s :
  consistent s -> consistent (noteOff midi s).
Proof.
  intros [Hc Hp Ha Hi Hs]. unfold noteOff.
  destruct (active s !! midi) as [old|] eqn:E; [|constructor; assumption].
  constructor; cbn.
  - exact Hc.
  - intros i r g Hin. apply elem_of_app in Hin as [Hin|Hin]; [eauto|].
    apply list_elem_of_singleton in Hin. discriminate.
  - intros m i Hm. apply lookup_delete_Some in Hm as [_ Hm]. eauto.
  - intros m1 m2 i H1 H2.
    apply lookup_delete_Some in H1 as [_ H1].
    apply lookup_delete_Some in H2 as [_ H2]. eauto.
  - intros i. rewrite sounding_snoc. cbn.
    rewrite elem_of_difference, Hs, elem_of_singleton. split.
    + intros [[m Hm] Hne]. exists m. apply lookup_delete_Some. split; [|exact Hm].
      intros <-. congruence.
    + intros [m Hm]. apply lookup_delete_Some in Hm as [Hne Hm].
      split; [eauto|]. intros ->. apply Hne. eapply Hi; eassumption.
Qed.

Lemma setParams_consistent next s : consistent s -> consistent (setParams next s).
Proof.
  intros [Hc Hp Ha Hi Hs]. constructor; cbn; try assumption.
  - intros i r g Hin. apply elem_of_app in Hin as [Hin|Hin]; [eauto|].
    apply list_elem_of_singleton in Hin. discriminate.
  - intros i. rewrite sounding_snoc. cbn. apply Hs.
Qed.

Lemma noteOn_consistent midi velocity s :
  consistent s -> (idGen_i s + 1 < JS.two32)%Z ->
  consistent (noteOn midi velocity s).
Proof.
  intros Hs Hw. rewrite noteOn_unfold. cbv zeta.
  pose proof (noteOff_clears midi s) as Hclear.
  pose proof (noteOff_fields midi s) as (_ & _ & Hid & _ & _).
  apply (noteOff_consistent midi) in Hs.
  destruct Hs as [Hc Hp Ha Hi Hsnd].
  set (s1 := noteOff midi s) in *. rewrite Hid in *.
  assert (Hfresh : JS.to_uint32 (idGen_i s + 1) = (idGen_i s + 1)%Z)
    by (unfold JS.to_uint32; apply Z.mod_small; lia).
  rewrite Hfresh.
  constructor; cbn.
  - lia.
  - intros i r g Hin. apply elem_of_app in Hin as [Hin|Hin].
    + apply Hp in Hin. lia.
    + apply list_elem_of_singleton in Hin. injection Hin as -> _ _. lia.
  - intros m i Hm. apply lookup_insert_Some in Hm as [[_ <-]|[_ Hm]]; [lia|].
    apply Ha in Hm. lia.
  - intros m1 m2 i H1 H2.
    apply lookup_insert_Some in H1 as [[<- <-]|[Hn1 H1]];
      apply lookup_insert_Some in H2 as [[<- E2]|[Hn2 H2]]; try reflexivity.
    + apply Ha in H2. lia.
    + apply Ha in H1. lia.
    + eapply Hi; eassumption.
  - intros i. rewrite sounding_snoc. cbn.
    rewrite elem_of_union, elem_of_singleton, Hsnd. split.
    + intros [->|[m Hm]].
      * exists midi. apply lookup_insert_eq.
      * exists m. rewrite lookup_insert_ne; [exact Hm|]. congruence.
    + intros [m Hm]. apply lookup_insert_Some in Hm as [[_ <-]|[_ Hm]]; eauto.
Qed.

Lemma imap_indexed {A} (l : list A) : forall j,
  map fst (imap (fun ch data => ((j + ch)%nat, data)) l) = seq j (length l)
  /\ map snd (imap (fun ch data => ((j + ch)%nat, data)) l) = l.
Proof.
  induction l as [|x l IH]; intros j; [split; reflexivity|].
  rewrite imap_cons. cbn [map fst snd length seq].
  rewrite (imap_ext _ (fun ch data => ((S j + ch)%nat, data)))
    by (intros i y _; cbn; f_equal; lia).
  destruct (IH (S j)) as [-> ->]. rewrite Nat.add_0_r. split; reflexivity.
Qed.

(** A mono segment: the transfer list names one buffer twice. *)
Lemma tryCreateWorkletEngine_mono seg c :
  ab_channels seg = [c] -> tryCreateWorkletEngine seg = None.
Proof. intros H. unfold tryCreateWorkletEngine. rewrite H. reflexivity. Qed.

Lemma tryCreateWorkletEngine_stereo seg L R more :
  ab_channels seg = L :: R :: more ->
  tryCreateWorkletEngine seg
  = Some [LoadBuffer (Some (ab_sampleRate seg)) (Some (L :: R :: more))].
Proof.
  intros H. unfold tryCreateWorkletEngine. rewrite H.
  destruct (imap_indexed (L :: R :: more) 0) as [Hf Hs].
  cbn [Nat.add] in Hf, Hs.
  set (chs := imap (fun ch data => (ch, data)) (L :: R :: more)) in *.
  assert (Hlen : length chs = S (S (length more)))
    by (unfold chs; rewrite length_imap; reflexivity).
  clearbody chs. destruct chs as [|a [|b t]]; try discriminate.
  cbv zeta. rewrite Hf, Hs.
  rewrite bool_decide_true by apply NoDup_seq. reflexivity.
Qed.

Lemma tryCreateWorkletEngine_posts seg posted :
  tryCreateWorkletEngine seg = Some posted ->
  exists channels, posted = [LoadBuffer (Some (ab_sampleRate seg)) (Some channels)].
Proof.
  unfold tryCreateWorkletEngine. cbv zeta.
  destruct (bool_decide _); [|discriminate]. intros [= <-]. eauto.
Qed.

Lemma createGranularInstrument_consistent ab start end_ base s0 :
  createGranularInstrument ab start end_ base = Some s0 ->
  consistent s0 /\ idGen_i s0 = 1%Z /\ baseNote s0 = base /\ transpose s0 = 0.
Proof.
  unfold createGranularInstrument. cbv zeta.
  destruct (tryCreateWorkletEngine _) as [posted|] eqn:E; [|discriminate].
  destruct (tryCreateWorkletEngine_posts _ _ E) as [channels ->].
  cbn [mbind option_bind]. intros [= <-].
  split; [|repeat split].
  constructor; cbn.
  - unfold JS.two32. rewrite to_int32_small; unfold JS.two31; lia.
  - intros i r g Hin.
    apply elem_of_cons in Hin as [Hin|Hin]; [discriminate|].
    apply list_elem_of_singleton in Hin. discriminate.
  - intros m i Hm. rewrite lookup_empty in Hm. discriminate.
  - intros m1 m2 i Hm. rewrite lookup_empty in Hm. discriminate.
  - intros i. split.
    + intros Hin. vm_compute in Hin. set_solver.
    + intros [m Hm]. rewrite lookup_empty in Hm. discriminate.
Qed.

Lemma call_consistent c s :
  consistent s -> (idGen_i s + 1 < JS.two32)%Z ->
  consistent (call c s)
  /\ (idGen_i (call c s) <= idGen_i s + 1)%Z.
Proof.
  intros Hs Hw. destruct c as [midi velocity|midi|next]; cbn [call].
  - split; [apply noteOn_consistent; assumption|].
    rewrite noteOn_unfold. cbv zeta. cbn.
    pose proof (noteOff_fields midi s) as (_ & _ & Hid & _ & _).
    pose proof (counter_range s Hs).
    rewrite Hid. unfold JS.to_uint32.
    rewrite Z.mod_small by lia. lia.
  - split; [apply noteOff_consistent; assumption|].
    pose proof (noteOff_fields midi s) as (_ & _ & Hid & _ & _). lia.
  - split; [apply setParams_consistent; assumption|]. cbn. lia.
Qed.

Lemma call_baseNote c s : baseNote (call c s) = baseNote s.
Proof.
  destruct c as [midi velocity|midi|next]; cbn [call].
  - rewrite noteOn_unfold. cbv zeta. cbn. apply noteOff_fields.
  - apply noteOff_fields.
  - reflexivity.
Qed.

Lemma calls_baseNote : forall cs s, baseNote (calls cs s) = baseNote s.
Proof.
  induction cs as [|c cs IH]; intros s; [reflexivity|].
  change (calls (c :: cs) s) with (calls cs (call c s)).
  rewrite IH. apply call_baseNote.
Qed.

Lemma calls_consistent : forall cs s,
  consistent s -> (idGen_i s + Z.of_nat (length cs) < JS.two32)%Z ->
  consistent (calls cs s)
  /\ (idGen_i (calls cs s) <= idGen_i s + Z.of_nat (length cs))%Z.
Proof.
  induction cs as [|c cs IH]; intros s Hs Hw.
  - cbn. split; [exact Hs|lia].
  - change (calls (c :: cs) s) with (calls cs (call c s)).
    cbn [length] in *.
    destruct (call_consistent c s Hs ltac:(lia)) as (Hc & Hi).
    destruct (IH (call c s) Hc ltac:(lia)) as (Hc' & Hi').
    split; [exact Hc'|lia].
Qed.

Lemma call_transpose c s :
  transpose (call c s)
  = match c with
    | CallSetParams (mkPatch (Some t') _ _) => t'
    | _ => transpose s
    end.
Proof.
  destruct c as [midi velocity|midi|[[t'|] f b]]; cbn [call].
  - rewrite noteOn_unfold. cbv zeta. cbn. apply noteOff_fields.
  - apply noteOff_fields.
  - reflexivity.
  - reflexivity.
Qed.

Lemma calls_transpose : forall cs s,
  transpose s = 0 -> transpose (calls cs s) = transpose_after cs.
Proof.
  intros cs s Hs. unfold transpose_after. rewrite <- Hs. clear Hs.
  revert s. induction cs as [|c cs IH]; intros s; [reflexivity|].
  change (calls (c :: cs) s) with (calls cs (call c s)).
  rewrite IH, call_transpose. reflexivity.
Qed.

Lemma clamp_gain v :
  (1 <= v -> clamp v 0.001 1 = 1)
  /\ (v <= 0.001 -> clamp v 0.001 1 = 0.001)
  /\ (0.001 < v -> v < 1 -> clamp v 0.001 1 = v).
Proof.
  unfold clamp, JS.Math_max, JS.Math_min. repeat split.
  - intros H. apply Qle_bool_iff in H. rewrite H. reflexivity.
  - intros H. destruct (Qle_bool 1 v) eqn:E1; [apply Qle_bool_iff in E1; lra|].
    apply Qle_bool_iff in H. rewrite H. reflexivity.
  - intros Hlo Hhi.
    destruct (Qle_bool 1 v) eqn:E1; [apply Qle_bool_iff in E1; lra|].
    destruct (Qle_bool v 0.001) eqn:E2; [apply Qle_bool_iff in E2; lra|].
    reflexivity.
Qed.

Lemma noteOn_idGen midi velocity s :
  idGen_i (noteOn midi velocity s) = JS.to_uint32 (idGen_i s + 1).
Proof.
  rewrite noteOn_unfold. cbv zeta. cbn [idGen_i].
  pose proof (noteOff_fields midi s) as (_ & _ & -> & _ & _). reflexivity.
Qed.

Lemma noteOff_active midi s : active (noteOff midi s) = delete midi (active s).
Proof.
  unfold noteOff. destruct (active s !! midi) eqn:E; [reflexivity|].
  symmetry. apply delete_id. exact E.
Qed.

Lemma noteOn_active midi velocity s m :
  active (noteOn midi velocity s) !! m
  = if decide (m = midi) then Some (JS.to_uint32 (idGen_i s + 1))
    else active s !! m.
Proof.
  rewrite noteOn_unfold. cbv zeta. cbn [active].
  pose proof (noteOff_fields midi s) as (_ & _ & -> & _ & _).
  destruct (decide (m = midi)) as [->|Hne].
  - apply lookup_insert_eq.
  - rewrite lookup_insert_ne by congruence.
    rewrite noteOff_active. apply lookup_delete_ne. congruence.
Qed.

(** The same key pressed [n] times over: the counter goes round modulo
    2^32, the other keys keep their voices. *)
Lemma noteOn_repeated midi velocity : forall n s,
  (0 <= idGen_i s < JS.two32)%Z ->
  let s' := calls (replicate n (CallNoteOn midi velocity)) s in
  idGen_i s' = ((idGen_i s + Z.of_nat n) mod JS.two32)%Z
  /\ (forall m, m <> midi -> active s' !! m = active s !! m).
Proof.
  induction n as [|n IH]; intros s Hs; cbv zeta.
  - cbn [replicate calls foldl]. rewrite Z.add_0_r, Z.mod_small by exact Hs.
    split; [reflexivity|]. intros m _. reflexivity.
  - change (calls (replicate (S n) (CallNoteOn midi velocity)) s)
      with (calls (replicate n (CallNoteOn midi velocity)) (noteOn midi velocity s)).
    destruct (IH (noteOn midi velocity s)) as [Hi Ha].
    { rewrite noteOn_idGen. apply to_uint32_range. }
    split.
    + rewrite Hi, noteOn_idGen. unfold JS.to_uint32.
      rewrite Z.add_mod_idemp_l by (unfold JS.two32; lia).
      f_equal. lia.
    + intros m Hm. rewrite (Ha m Hm), noteOn_active.
      rewrite decide_False by exact Hm. reflexivity.
Qed.

(** Key 60, then key 61 pressed 2^32 - 1 times, on an instrument whose
    counter stands at 1: the counter has gone round to 1, so that the next
    press of key 61 gets the id 2, which key 60 still holds. *)
Lemma counter_goes_round s0 n :
  idGen_i s0 = 1%Z -> Z.of_nat n = 4294967295%Z ->
  let s := calls (CallNoteOn 60 None :: replicate n (CallNoteOn 61 None)) s0 in
  let s' := noteOn 61 None s in
  active s !! 60%Z = Some 2%Z
  /\ (exists rate gain, last (port s') = Some (NoteOn (Some 2%Z) rate gain))
  /\ active s' !! 60%Z = Some 2%Z
  /\ active s' !! 61%Z = Some 2%Z.
Proof.
  intros H0 Hn. cbv zeta.
  change (calls (CallNoteOn 60 None :: replicate n (CallNoteOn 61 None)) s0)
    with (calls (replicate n (CallNoteOn 61 None)) (noteOn 60 None s0)).
  set (s1 := noteOn 60 None s0).
  assert (H1 : idGen_i s1 = 2%Z) by (unfold s1; rewrite noteOn_idGen, H0; reflexivity).
  assert (A1 : active s1 !! 60%Z = Some 2%Z).
  { unfold s1. rewrite noteOn_active, decide_True by reflexivity.
    rewrite H0. reflexivity. }
  clearbody s1.
  destruct (noteOn_repeated 61 None n s1) as [Hi Ha].
  { rewrite H1. unfold JS.two32. lia. }
  set (s := calls (replicate n (CallNoteOn 61 None)) s1) in *.
  rewrite H1, Hn in Hi.
  change ((2 + 4294967295) mod JS.two32)%Z with 1%Z in Hi.
  assert (A60 : active s !! 60%Z = Some 2%Z) by (rewrite Ha by lia; exact A1).
  split; [exact A60|]. split; [|split].
  - rewrite noteOn_unfold. cbv zeta. cbn [port].
    pose proof (noteOff_fields 61 s) as (_ & _ & -> & _ & _).
    rewrite Hi. eexists _, _. rewrite last_snoc. reflexivity.
  - rewrite noteOn_active, decide_False by lia. exact A60.
  - rewrite noteOn_active, decide_True by reflexivity. rewrite Hi. reflexivity.
Qed.

(** C8, as amended: on an instrument of the worklet engine that any calls
    have been made on, noteOn(pitch, velocity) posts, after a NoteOff for
    the voice of that pitch if there is one, one NoteOn.  Its id is the next
    value of the 32-bit counter, (previous + 1) mod 2^32.  Its rate is
    2^((pitch - baseNote + t) / 12), t being the transposition that the last
    setParams naming one has given (0 before any, and 0 counted as 0).  Its
    gain is the velocity (0.9 when none is given) clamped into [0.001, 1]: 1
    from 1 upwards, 0.001 up to 0.001, the velocity in between.  That id
    becomes the voice of the pitch.  As long as the counter has not wrapped
    (fewer than 2^32 - 2 calls so far) the id is previous + 1, was never
    posted and is no pitch's voice, the voices that sound in the command
    stream are exactly the recorded voices of the pitches, and no two
    pitches share one. *)
Theorem noteOn_forwards audioBuffer start end_ base s0 cs midi velocity :
  createGranularInstrument audioBuffer start end_ base = Some s0 ->
  let s := calls cs s0 in
  let s' := noteOn midi velocity s in
  let id := ((idGen_i s + 1) mod 4294967296)%Z in
  let t := transpose_after cs in
  let v := match velocity with Some v => v | None => 0.9 end in
  exists rate gain,
    port s' = port s
              ++ match active s !! midi with
                 | Some old => [NoteOff (Some old)]
                 | None => []
                 end
              ++ [NoteOn (Some id) (Some rate) (Some gain)]
    /\ (t == 0 -> rate = Math_pow 2 ((inject_Z midi - inject_Z base + 0) / 12))
    /\ (~ t == 0 -> rate = Math_pow 2 ((inject_Z midi - inject_Z base + t) / 12))
    /\ (1 <= v -> gain = 1)
    /\ (v <= 0.001 -> gain = 0.001)
    /\ (0.001 < v -> v < 1 -> gain = v)
    /\ active s' = <[midi := id]> (active s)
    /\ ((Z.of_nat (length cs) + 2 < 4294967296)%Z ->
        id = (idGen_i s + 1)%Z
        /\ (forall i r g, NoteOn (Some i) r g ∈ port s -> i <> id)
        /\ (forall m, active s !! m <> Some id)
        /\ (forall i, i ∈ sounding (port s') <-> exists m, active s' !! m = Some i)
        /\ (forall m1 m2 i,
              active s' !! m1 = Some i -> active s' !! m2 = Some i -> m1 = m2)).
Proof.
  intros Hcreate s s' id t v.
  destruct (createGranularInstrument_consistent _ _ _ _ _ Hcreate)
    as (H0 & Hi0 & Hb0 & Ht0).
  pose proof (noteOff_fields midi s) as (Hbase & Htr & Hid & Hport & Hact).
  pose proof (calls_baseNote cs s0) as Hb. fold s in Hb. rewrite Hb0 in Hb.
  pose proof (calls_transpose cs s0 Ht0) as Ht. fold s t in Ht.
  destruct (clamp_gain v) as (G1 & G2 & G3).
  exists (midiToPlaybackRate (noteOff midi s) midi), (clamp v 0.001 1).
  split; [|split; [|split; [|split; [|split; [|split; [|split]]]]]];
    try assumption.
  - unfold s'. rewrite noteOn_unfold. cbv zeta. cbn [port].
    rewrite Hid, Hport, <- app_assoc. reflexivity.
  - intros Hz. unfold midiToPlaybackRate, or_default.
    rewrite Hbase, Htr, Hb, Ht.
    apply Qeq_bool_iff in Hz. rewrite Hz. reflexivity.
  - intros Hnz. unfold midiToPlaybackRate, or_default.
    rewrite Hbase, Htr, Hb, Ht.
    destruct (Qeq_bool t 0) eqn:E; [|reflexivity].
    apply Qeq_bool_iff in E. contradiction.
  - unfold s'. rewrite noteOn_unfold. cbv zeta. cbn [active].
    rewrite Hid. apply Hact.
  - intros Hw.
    destruct (calls_consistent cs _ H0 ltac:(rewrite Hi0; unfold JS.two32; lia))
      as (Hs & Hi).
    fold s in Hs, Hi. rewrite Hi0 in Hi.
    assert (Hnowrap : (idGen_i s + 1 < JS.two32)%Z) by (unfold JS.two32; lia).
    pose proof (noteOn_consistent midi velocity s Hs Hnowrap) as Hs'.
    fold s' in Hs'.
    pose proof (counter_range s Hs) as Hc.
    assert (Hfresh : id = (idGen_i s + 1)%Z)
      by (unfold id; apply Z.mod_small; unfold JS.two32 in *; lia).
    split; [exact Hfresh|]. split; [|split; [|split]].
    + intros i r g Hin. apply (posted_below s Hs) in Hin. lia.
    + intros m Hm. apply (active_below s Hs) in Hm. lia.
    + exact (active_sounding s' Hs').
    + exact (active_inj s' Hs').
Qed.

End ControlFacts.

Lemma noteOn_forwards_witness :
  exists s0,
    createGranularInstrument stereo_recording 0 1 60 = Some s0
    /\ let s := calls (host := polyHost) octave_up s0 in
       let s' := noteOn (host := polyHost) 60 (Some 5) s in
       let rate := Math_pow (MathHost := polyHost) 2
                     ((inject_Z 60 - inject_Z 60 + 12) / 12) in
       active s !! 60%Z = Some 2%Z
       /\ port s' = port s ++ [NoteOff (Some 2%Z)]
                           ++ [NoteOn (Some 3%Z) (Some rate) (Some 1)]
       /\ rate == 2
       /\ active s' = <[60%Z := 3%Z]> (active s)
       /\ (forall m, active s !! m <> Some 3%Z)
       /\ (forall i, i ∈ sounding (port s') <-> exists m, active s' !! m = Some i).
Proof.
  eexists. split; [reflexivity|]. cbv zeta.
  match goal with
  | |- context [calls octave_up ?x] =>
      pose proof (noteOn_forwards (host := polyHost) stereo_recording 0 1 60 x
                    octave_up 60 (Some 5) eq_refl) as H
  end.
  cbv zeta in H.
  destruct H as (rate & gain & Hport & _ & Hrate & Hgain & _ & _ & Hact & Hfresh).
  assert (Ht : ~ transpose_after octave_up == 0) by (vm_compute; discriminate).
  assert (Hv : 1 <= 5) by (vm_compute; discriminate).
  assert (Hw : (Z.of_nat (length octave_up) + 2 < 4294967296)%Z) by reflexivity.
  rewrite (Hrate Ht), (Hgain Hv) in Hport.
  destruct (Hfresh Hw) as (_ & _ & Hfree & Hsound & _).
  match type of Hport with
  | context [active ?s !! _] =>
      assert (Ha : active s !! 60%Z = Some 2%Z) by (vm_compute; reflexivity);
      assert (Hi : ((idGen_i s + 1) mod 4294967296 = 3)%Z)
        by (vm_compute; reflexivity)
  end.
  rewrite Ha, Hi in Hport. rewrite Hi in Hact, Hfree.
  split; [exact Ha|]. split; [exact Hport|]. split; [reflexivity|].
  split; [exact Hact|]. split; [exact Hfree | exact Hsound].
Defined.

(** C8, as stated, fails once the 32-bit counter has gone round: after a
    press of key 60 (voice 2) and 2^32 - 1 presses of key 61, the next
    press of key 61 is posted under the id 2 again, which is still the
    voice of key 60; the two keys then share one voice. *)
Lemma noteOn_fresh_id_counterexample :
  exists s0,
    createGranularInstrument stereo_recording 0 1 60 = Some s0
    /\ let cs := CallNoteOn 60 None
                 :: replicate (Z.to_nat 4294967295) (CallNoteOn 61 None) in
       let s := calls (host := polyHost) cs s0 in
       let s' := noteOn (host := polyHost) 61 None s in
       active s !! 60%Z = Some 2%Z
       /\ (exists rate gain, last (port s') = Some (NoteOn (Some 2%Z) rate gain))
       /\ active s' !! 60%Z = Some 2%Z
       /\ active s' !! 61%Z = Some 2%Z.
Proof.
  eexists. split; [reflexivity|].
  apply (counter_goes_round (host := polyHost)).
  - reflexivity.
  - apply Z2Nat.id. lia.
Qed.

(** The second press of a key: the first voice of the key is released, the
    key gets the third id that the generator hands out. *)
Example second_press_of_a_key :
  exists s0,
    createGranularInstrument stereo_recording 0 1 60 = Some s0
    /\ let s := calls (host := polyHost) two_notes s0 in
       let s' := noteOn (host := polyHost) 60 (Some 2) s in
       let header m :=
         match m with
         | NoteOn i _ g => (true, i, g)
         | NoteOff i => (false, i, None)
         | _ => (false, None, None)
         end in
       map header (drop (length (port s)) (port s'))
       = [(false, Some 2%Z, None); (true, Some 4%Z, Some 1)]
       /\ active s = {[60%Z := 2%Z; 64%Z := 3%Z]}
       /\ active s' = {[60%Z := 4%Z; 64%Z := 3%Z]}.
Proof. eexists. split; [reflexivity|]. vm_compute. repeat split. Qed.
(** * Further properties of the processor *)

Lemma clamp_range v a b : a <= b -> a <= clamp v a b /\ clamp v a b <= b.
Proof.
  intros Hab. unfold clamp, JS.Math_max, JS.Math_min.
  destruct (Qle_bool b v) eqn:E1.
  - destruct (Qle_bool b a) eqn:E2.
    + split; [apply Qle_refl | exact Hab].
    + split; [exact Hab | apply Qle_refl].
  - assert (Hv : v < b).
    { apply Qnot_le_lt. intros Hc. apply Qle_bool_iff in Hc. congruence. }
    destruct (Qle_bool v a) eqn:E2.
    + split; [apply Qle_refl | exact Hab].
    + assert (Ha : a < v).
      { apply Qnot_le_lt. intros Hc. apply Qle_bool_iff in Hc. congruence. }
      split; lra.
Qed.

Lemma clamp_inside v a b : a < v -> v < b -> clamp v a b = v.
Proof.
  intros Ha Hb. unfold clamp, JS.Math_max, JS.Math_min.
  destruct (Qle_bool b v) eqn:E1; [apply Qle_bool_iff in E1; lra|].
  destruct (Qle_bool v a) eqn:E2; [apply Qle_bool_iff in E2; lra|].
  reflexivity.
Qed.

Section Invariants.

Context `{host : MathHost}.

(** A property of the processor that messages and render blocks keep is
    kept by every run. *)
Lemma run_preserves (I : Processor -> Prop) fuel sr :
  (forall m p, I p -> I (handleMessage m p)) ->
  (forall q params p r, process fuel sr q params p = Some r -> I p -> I (after r)) ->
  forall evs p outs p', run fuel sr evs p = Some (outs, p') -> I p -> I p'.
Proof.
  intros Hm Hp. induction evs as [|[m|q params] evs IH]; intros p outs p' H Hi;
    cbn in H.
  - injection H as _ <-. exact Hi.
  - eapply IH; [exact H|]. apply Hm. exact Hi.
  - destruct (process fuel sr q params p) as [r|] eqn:E; [|discriminate].
    cbn in H.
    destruct (run fuel sr evs (after r)) as [[outs1 p1]|] eqn:E1; [|discriminate].
    cbn in H. injection H as _ <-.
    eapply IH; [exact E1|]. eapply Hp; eassumption.
Qed.

(** What a render block leaves alone. *)
Lemma render_sample_fields sr p :
  let p' := fst (render_sample sr p) in
  sampleRateSrc p' = sampleRateSrc p /\ bufferL p' = bufferL p
  /\ bufferR p' = bufferR p /\ frames p' = frames p
  /\ rng p' = rng p /\ formantTilt p' = formantTilt p
  /\ brightness p' = brightness p.
Proof.
  unfold render_sample.
  destruct (render_voices _ _ _ _ _) as [vs [mixL mixR]].
  destruct (applyEQ _ mixL _ sr) as [oL eL].
  destruct (applyEQ _ mixR _ sr) as [oR eR]. cbn. repeat split.
Qed.

Lemma render_block_fields sr : forall k p,
  let p' := fst (render_block k sr p) in
  sampleRateSrc p' = sampleRateSrc p /\ bufferL p' = bufferL p
  /\ bufferR p' = bufferR p /\ frames p' = frames p
  /\ rng p' = rng p /\ formantTilt p' = formantTilt p
  /\ brightness p' = brightness p.
Proof.
  induction k as [|k IH]; intros p; cbn; [repeat split|].
  pose proof (render_sample_fields sr p) as H.
  destruct (render_sample sr p) as [p1 [l r]]. cbn [fst] in *.
  specialize (IH p1).
  destruct (render_block k sr p1) as [p2 [ls rs]]. cbn [fst] in *.
  destruct H as (H1 & H2 & H3 & H4 & H5 & H6 & H7).
  destruct IH as (I1 & I2 & I3 & I4 & I5 & I6 & I7).
  repeat split; congruence.
Qed.

Lemma process_fields fuel sr q params p r :
  process fuel sr q params p = Some r ->
  sampleRateSrc (after r) = sampleRateSrc p /\ bufferL (after r) = bufferL p
  /\ bufferR (after r) = bufferR p /\ frames (after r) = frames p
  /\ formantTilt (after r) = formantTilt p
  /\ brightness (after r) = brightness p.
Proof.
  unfold process. intros H.
  destruct (_ || _); [injection H as <-; cbn; repeat split|].
  destruct (schedule_voices _ _ _ _ _ _ _) as [[r1 vs]|]; [|discriminate].
  cbn in H.
  pose proof (render_block_fields sr q (set_voices vs (set_rng r1 p))) as Hf.
  destruct (render_block _ _ _) as [p2 [ls rs]]. cbn [fst] in *.
  injection H as <-. cbn in *.
  destruct Hf as (H1 & H2 & H3 & H4 & _ & H6 & H7). repeat split; assumption.
Qed.

(** X1: whatever messages and render blocks a new processor has seen, its
    formantTilt and its brightness lie in [-1, 1]: [handleMessage] stores
    them clamped and nothing else writes them. *)
Theorem shaper_parameters_stay_clamped fuel sr evs outs p :
  run fuel sr evs constructor = Some (outs, p) ->
  (-1 <= formantTilt p /\ formantTilt p <= 1)
  /\ (-1 <= brightness p /\ brightness p <= 1).
Proof.
  intros H.
  apply (run_preserves
           (fun p => (-1 <= formantTilt p /\ formantTilt p <= 1)
                     /\ (-1 <= brightness p /\ brightness p <= 1))
           fuel sr) with (evs := evs) (p := constructor) (outs := outs);
    [| |exact H|].
  - intros m q [Ht Hb].
    destruct m as [s [[|L more]|] | [id|] rate gain | [id|] | [t|] [b|] |]; cbn;
      try (split; assumption);
      try (destruct (_ <=? _)%nat; split; assumption).
    + split; apply clamp_range; discriminate.
    + split; [apply clamp_range; discriminate | exact Hb].
    + split; [exact Ht | apply clamp_range; discriminate].
  - intros q params p0 r E [Ht Hb].
    apply process_fields in E as (_ & _ & _ & _ & -> & ->). split; assumption.
  - cbn. repeat split; discriminate.
Qed.

End Invariants.

Lemma shaper_parameters_stay_clamped_witness :
  exists outs p,
    run (host := polyHost) 2 48000 session constructor = Some (outs, p)
    /\ (-1 <= formantTilt p /\ formantTilt p <= 1)
    /\ (-1 <= brightness p /\ brightness p <= 1).
Proof.
  assert (H : is_Some (run (host := polyHost) 2 48000 session constructor))
    by (apply (bool_decide_unpack _); lazy; reflexivity).
  destruct H as [[outs p] E]. exists outs, p. split; [exact E|].
  exact (shaper_parameters_stay_clamped (host := polyHost) 2 48000 session outs p E).
Defined.

(** ** The voice map *)

Lemma voices_get_in id vs v :
  voices_get id vs = Some v -> v ∈ vs /\ Voice.id v = id.
Proof.
  induction vs as [|w vs IH]; cbn; [discriminate|].
  destruct (Voice.id w =? id)%Z eqn:E.
  - intros [= <-]. apply Z.eqb_eq in E. split; [left | exact E].
  - intros H. apply IH in H as [H1 H2]. split; [right; exact H1 | exact H2].
Qed.

Lemma voices_get_None id vs :
  voices_get id vs = None <-> id ∉ map Voice.id vs.
Proof.
  induction vs as [|w vs IH]; cbn.
  - split; [intros _; apply not_elem_of_nil | reflexivity].
  - destruct (Voice.id w =? id)%Z eqn:E.
    + apply Z.eqb_eq in E. split; [discriminate|].
      intros Hn. exfalso. apply Hn. rewrite E. left.
    + apply Z.eqb_neq in E. rewrite IH, not_elem_of_cons. intuition congruence.
Qed.

Lemma voices_set_ids id v vs :
  Voice.id v = id ->
  map Voice.id (voices_set id v vs)
  = if decide (id ∈ map Voice.id vs) then map Voice.id vs
    else map Voice.id vs ++ [id].
Proof.
  intros Hv. induction vs as [|w vs IH]; cbn.
  - rewrite Hv. rewrite decide_False by apply not_elem_of_nil. reflexivity.
  - destruct (Voice.id w =? id)%Z eqn:E.
    + apply Z.eqb_eq in E. cbn. rewrite Hv, E.
      rewrite decide_True by left. reflexivity.
    + apply Z.eqb_neq in E. cbn. rewrite IH.
      destruct (decide (id ∈ map Voice.id vs)) as [Hin|Hn].
      * rewrite decide_True by (right; exact Hin). reflexivity.
      * rewrite decide_False; [reflexivity|].
        intros Hin. apply elem_of_cons in Hin as [Heq|Hin]; [congruence|tauto].
Qed.

Lemma voices_get_set_eq id v vs :
  Voice.id v = id -> voices_get id (voices_set id v vs) = Some v.
Proof.
  intros Hv. induction vs as [|w vs IH]; cbn.
  - rewrite Hv, Z.eqb_refl. reflexivity.
  - destruct (Voice.id w =? id)%Z eqn:E; cbn.
    + rewrite Hv, Z.eqb_refl. reflexivity.
    + rewrite E. exact IH.
Qed.

Lemma voices_get_set_ne id id' v vs :
  Voice.id v = id -> id <> id' ->
  voices_get id' (voices_set id v vs) = voices_get id' vs.
Proof.
  intros Hv Hne. induction vs as [|w vs IH]; cbn.
  - rewrite Hv. destruct (id =? id')%Z eqn:E; [apply Z.eqb_eq in E; tauto|].
    reflexivity.
  - destruct (Voice.id w =? id)%Z eqn:E; cbn.
    + apply Z.eqb_eq in E. rewrite Hv, E.
      destruct (id =? id')%Z eqn:E'; [apply Z.eqb_eq in E'; tauto|]. reflexivity.
    + destruct (Voice.id w =? id')%Z; [reflexivity | exact IH].
Qed.

Lemma voices_release_ids id vs :
  map Voice.id (voices_release id vs) = map Voice.id vs.
Proof.
  induction vs as [|w vs IH]; cbn; [reflexivity|].
  destruct (Voice.id w =? id)%Z; cbn; [reflexivity | f_equal; exact IH].
Qed.

Lemma voices_release_absent id vs :
  id ∉ map Voice.id vs -> voices_release id vs = vs.
Proof.
  induction vs as [|w vs IH]; cbn; [reflexivity|].
  intros Hn. apply not_elem_of_cons in Hn as [Hne Hn].
  destruct (Voice.id w =? id)%Z eqn:E; [apply Z.eqb_eq in E; congruence|].
  f_equal. apply IH. exact Hn.
Qed.

Lemma voices_get_release id id' vs :
  voices_get id' (voices_release id vs)
  = if (id =? id')%Z then Voice.set_on false <$> voices_get id' vs
    else voices_get id' vs.
Proof.
  induction vs as [|w vs IH]; cbn.
  - destruct (id =? id')%Z; reflexivity.
  - destruct (Voice.id w =? id)%Z eqn:E; cbn.
    + apply Z.eqb_eq in E. rewrite E.
      destruct (id =? id')%Z; reflexivity.
    + destruct (Voice.id w =? id')%Z eqn:E'.
      * apply Z.eqb_eq in E'. apply Z.eqb_neq in E.
        destruct (id =? id')%Z eqn:E''; [apply Z.eqb_eq in E''; congruence|].
        reflexivity.
      * exact IH.
Qed.

Section VoiceMap.

Context `{host : MathHost}.

Lemma grain_after_spec srcL srcR len g mix :
  fst (step_grain srcL srcR len g mix) = grain_after len g.
Proof.
  unfold step_grain, grain_after.
  destruct (Grain.length g <=? Grain.i g + 1)%Z; reflexivity.
Qed.

Lemma advance_grains_spec srcL srcR len : forall gs mix,
  fst (advance_grains srcL srcR len gs mix) = omap (grain_after len) gs.
Proof.
  induction gs as [|g gs IH]; intros mix; cbn; [reflexivity|].
  specialize (IH mix).
  destruct (advance_grains srcL srcR len gs mix) as [rest mix1]. cbn [fst] in IH.
  pose proof (grain_after_spec srcL srcR len g mix1) as Hg.
  destruct (step_grain srcL srcR len g mix1) as [og mix2]. cbn [fst] in *.
  rewrite <- Hg, <- IH. destruct og; reflexivity.
Qed.

Lemma render_voices_filter srcL srcR len : forall vs mix,
  fst (render_voices srcL srcR len vs mix)
  = filter (fun v => voice_stays v = true) (map (voice_after len) vs).
Proof.
  induction vs as [|v vs IH]; intros mix; [reflexivity|].
  cbn [render_voices map].
  pose proof (advance_grains_spec srcL srcR len (Voice.grains v) mix) as Hg.
  destruct (advance_grains srcL srcR len (Voice.grains v) mix) as [gs mix1].
  cbn [fst] in Hg. specialize (IH mix1).
  destruct (render_voices srcL srcR len vs mix1) as [rest mix2]. cbn [fst] in *.
  subst gs. rewrite filter_cons, <- IH.
  change (Voice.set_grains (omap (grain_after len) (Voice.grains v)) v)
    with (voice_after len v).
  assert (Hs : voice_stays (voice_after len v)
               = negb (negb (Voice.on (voice_after len v))
                       && (length (Voice.grains (voice_after len v)) =? 0)%nat)).
  { unfold voice_stays.
    destruct (Voice.on _), (length _ =? 0)%nat; reflexivity. }
  destruct (negb (Voice.on (voice_after len v))
            && (length (Voice.grains (voice_after len v)) =? 0)%nat);
    cbn [negb] in Hs; cbn [fst].
  - rewrite decide_False by (rewrite Hs; discriminate). reflexivity.
  - rewrite decide_True by exact Hs. reflexivity.
Qed.

Lemma render_voices_ids srcL srcR len vs mix :
  map Voice.id (fst (render_voices srcL srcR len vs mix))
    `sublist_of` map Voice.id vs.
Proof.
  rewrite render_voices_filter.
  induction vs as [|v vs IH]; [constructor|].
  cbn [map]. rewrite filter_cons. destruct (decide _); cbn [map].
  - apply sublist_skip. exact IH.
  - apply sublist_cons. exact IH.
Qed.

End VoiceMap.

(** ** Properties of voices that a render block keeps *)

Section VoiceInvariant.

Context `{host : MathHost}.

Variable V : Voice.t -> Prop.
Variable p0 : Processor.
Variables g0 o0 j0 : Q.

Hypothesis V_schedule : forall r v,
  V v -> V (snd (scheduleGrainForVoice p0 r v g0 o0 j0)).
Hypothesis V_nextGrainAt : forall x v, V v -> V (Voice.set_nextGrainAt x v).
Hypothesis V_after : forall v, V v -> V (voice_after (frames p0) v).

Lemma schedule_loop_keeps : forall fuel r v r' v',
  schedule_loop fuel p0 r v g0 o0 j0 = Some (r', v') -> V v -> V v'.
Proof using V_schedule.
  induction fuel as [|fuel IH]; intros r v r' v' H Hv; cbn [schedule_loop] in H;
    destruct (Qle_bool _ _); try discriminate;
    try (injection H as _ <-; exact Hv).
  pose proof (V_schedule r v Hv) as Hs.
  destruct (scheduleGrainForVoice p0 r v g0 o0 j0) as [r1 v1]. cbn [snd] in Hs.
  eapply IH; eassumption.
Qed.

Lemma schedule_voice_keeps fuel r v r' v' :
  schedule_voice fuel p0 r v g0 o0 j0 = Some (r', v') -> V v -> V v'.
Proof using V_schedule V_nextGrainAt.
  unfold schedule_voice. intros H Hv.
  destruct (Qle_bool _ _); [|injection H as _ <-; exact Hv].
  eapply schedule_loop_keeps; [exact H|].
  destruct (Qeq_bool _ _); [apply V_nextGrainAt|]; exact Hv.
Qed.

Lemma schedule_voices_keep fuel : forall vs r r' vs',
  schedule_voices fuel p0 r vs g0 o0 j0 = Some (r', vs') ->
  Forall V vs -> Forall V vs'.
Proof using V_schedule V_nextGrainAt.
  induction vs as [|v vs IH]; intros r r' vs' H Hvs; cbn in H.
  - injection H as _ <-. constructor.
  - destruct (schedule_voice fuel p0 r v g0 o0 j0) as [[r1 v1]|] eqn:E1;
      [|discriminate]. cbn in H.
    destruct (schedule_voices fuel p0 r1 vs g0 o0 j0) as [[r2 vs2]|] eqn:E2;
      [|discriminate]. cbn in H.
    injection H as _ <-. inversion Hvs as [|? ? Hv Hrest]; subst.
    constructor.
    + eapply schedule_voice_keeps; eassumption.
    + eapply IH; eassumption.
Qed.

Lemma render_voices_keep srcL srcR vs mix :
  Forall V vs -> Forall V (fst (render_voices srcL srcR (frames p0) vs mix)).
Proof using V_after.
  intros Hvs. rewrite render_voices_filter.
  apply Forall_forall. intros v Hv.
  apply list_elem_of_filter in Hv as [_ Hv].
  apply list_elem_of_fmap in Hv as (w & -> & Hw).
  apply V_after. rewrite Forall_forall in Hvs. apply Hvs. exact Hw.
Qed.

Lemma render_sample_keeps sr p :
  frames p = frames p0 ->
  Forall V (voices p) -> Forall V (voices (fst (render_sample sr p))).
Proof using V_after.
  intros Hf Hvs. unfold render_sample.
  pose proof (render_voices_keep (bufferL p) (bufferR p) (voices p) (Val 0, Val 0) Hvs)
    as H.
  rewrite <- Hf in H.
  destruct (render_voices _ _ _ _ _) as [vs [mixL mixR]]. cbn [fst] in H.
  destruct (applyEQ _ mixL _ sr) as [oL eL].
  destruct (applyEQ _ mixR _ sr) as [oR eR]. exact H.
Qed.

Lemma render_block_keeps sr : forall k p,
  frames p = frames p0 ->
  Forall V (voices p) -> Forall V (voices (fst (render_block k sr p))).
Proof using V_after.
  induction k as [|k IH]; intros p Hf Hvs; cbn [render_block]; [exact Hvs|].
  pose proof (render_sample_keeps sr p Hf Hvs) as H1.
  pose proof (render_sample_fields sr p) as (_ & _ & _ & Hf1 & _).
  destruct (render_sample sr p) as [p1 [l r]]. cbn [fst] in *.
  pose proof (IH p1 ltac:(congruence) H1) as H2.
  destruct (render_block k sr p1) as [p2 [ls rs]]. exact H2.
Qed.

End VoiceInvariant.

Section VoiceFacts.

Context `{host : MathHost}.

(** A property of single voices that scheduling a grain, moving the two
    clocks and rendering a sample keep is kept by a whole render block. *)
Lemma process_keeps (V : Voice.t -> Prop) fuel sr q params p r :
  (forall r v, V v ->
     V (snd (scheduleGrainForVoice p r v (grainSize params)
               (clamp (overlap params) 0 0.95) (clamp (jitter params) 0 0.02)))) ->
  (forall x v, V v -> V (Voice.set_nextGrainAt x v)) ->
  (forall x v, V v -> V (Voice.set_time x v)) ->
  (forall v, V v -> V (voice_after (frames p) v)) ->
  process fuel sr q params p = Some r ->
  Forall V (voices p) -> Forall V (voices (after r)).
Proof.
  intros Hs Hn Ht Ha H Hvs. unfold process in H.
  destruct (_ || _); [injection H as <-; exact Hvs|].
  destruct (schedule_voices _ _ _ _ _ _ _) as [[r1 vs]|] eqn:E; [|discriminate].
  cbn in H.
  pose proof (schedule_voices_keep V p _ _ _ Hs Hn fuel _ _ _ _ E Hvs) as H1.
  pose proof (render_block_keeps V p Ha sr q (set_voices vs (set_rng r1 p))
                eq_refl H1) as H2.
  destruct (render_block _ _ _) as [p2 [ls rs]]. cbn [fst] in *.
  injection H as <-. cbn. apply Forall_fmap.
  eapply Forall_impl; [exact H2|]. intros v Hv. apply Ht. exact Hv.
Qed.

(** X2: one rendered sample advances every grain of every voice by one
    frame ([voice_after]: position moved by the rate and wrapped once, a
    grain spliced out at the end of its window), and then keeps exactly the
    voices that are on or still hold a grain, in their order. *)
Theorem render_keeps_sounding_voices sr p :
  voices (fst (render_sample sr p))
  = filter (fun v => voice_stays v = true)
      (map (voice_after (frames p)) (voices p)).
Proof.
  unfold render_sample.
  pose proof (render_voices_filter (bufferL p) (bufferR p) (frames p) (voices p)
                (Val 0, Val 0)) as H.
  destruct (render_voices _ _ _ _ _) as [vs [mixL mixR]]. cbn [fst] in H.
  destruct (applyEQ _ mixL _ sr) as [oL eL].
  destruct (applyEQ _ mixR _ sr) as [oR eR]. exact H.
Qed.

Lemma render_sample_ids sr p :
  map Voice.id (voices (fst (render_sample sr p)))
    `sublist_of` map Voice.id (voices p).
Proof.
  unfold render_sample.
  pose proof (render_voices_ids (bufferL p) (bufferR p) (frames p) (voices p)
                (Val 0, Val 0)) as H.
  destruct (render_voices _ _ _ _ _) as [vs [mixL mixR]]. cbn [fst] in H.
  destruct (applyEQ _ mixL _ sr) as [oL eL].
  destruct (applyEQ _ mixR _ sr) as [oR eR]. exact H.
Qed.

Lemma render_block_ids sr : forall k p,
  map Voice.id (voices (fst (render_block k sr p)))
    `sublist_of` map Voice.id (voices p).
Proof.
  induction k as [|k IH]; intros p; cbn [render_block]; [reflexivity|].
  pose proof (render_sample_ids sr p) as H1.
  destruct (render_sample sr p) as [p1 [l r]]. cbn [fst] in *.
  specialize (IH p1).
  destruct (render_block k sr p1) as [p2 [ls rs]]. cbn [fst] in *.
  etransitivity; eassumption.
Qed.

Lemma process_ids fuel sr q params p r :
  process fuel sr q params p = Some r ->
  map Voice.id (voices (after r)) `sublist_of` map Voice.id (voices p).
Proof.
  unfold process. intros H.
  destruct (_ || _); [injection H as <-; reflexivity|].
  destruct (schedule_voices _ _ _ _ _ _ _) as [[r1 vs]|] eqn:E; [|discriminate].
  cbn in H. apply schedule_voices_ids in E.
  pose proof (render_block_ids sr q (set_voices vs (set_rng r1 p))) as H1.
  destruct (render_block _ _ _) as [p2 [ls rs]]. cbn [fst] in *.
  injection H as <-. cbn in *.
  rewrite map_map. cbn. rewrite <- E. exact H1.
Qed.

Lemma handleMessage_NoDup m p :
  NoDup (map Voice.id (voices p)) ->
  NoDup (map Voice.id (voices (handleMessage m p))).
Proof.
  intros Hq.
  destruct m as [s [[|L more]|] | [id|] rate gain | [id|] | [t|] [b|] |]; cbn;
    try exact Hq; try (destruct (_ <=? _)%nat; exact Hq).
  - destruct (_ <=? _)%nat; [exact Hq|]. cbn.
    rewrite voices_set_ids by reflexivity.
    destruct (decide _) as [Hin|Hn]; [exact Hq|].
    apply NoDup_app. split; [exact Hq|]. split; [|apply NoDup_singleton].
    intros x Hx Hx'. apply list_elem_of_singleton in Hx'. subst. tauto.
  - rewrite voices_release_ids. exact Hq.
Qed.

(** X3: the voices of the processor never hold two voices with one id,
    whatever messages and render blocks came before. *)
Theorem voice_ids_are_unique fuel sr evs outs p :
  run fuel sr evs constructor = Some (outs, p) ->
  NoDup (map Voice.id (voices p)).
Proof.
  intros H.
  apply (run_preserves (fun p => NoDup (map Voice.id (voices p))) fuel sr)
    with (evs := evs) (p := constructor) (outs := outs); [| |exact H|].
  - apply handleMessage_NoDup.
  - intros q params p1 r E Hq.
    eapply sublist_NoDup; [exact Hq | eapply process_ids; exact E].
  - constructor.
Qed.

(** X4: below the voice limit, NoteOn with an id makes [voices.get(id)] a new
    voice (on, time 0, no grains, rate and gain defaulting to 1 and 0.9)
    and leaves every other id's voice alone; a known id keeps its place in
    the map, a new one is appended. *)
Theorem noteOn_adds_a_fresh_voice id rate gain p :
  (length (voices p) < maxVoices p)%nat ->
  let v := Voice.constructor id (default 1 rate) (default 0.9 gain) in
  let p' := handleMessage (NoteOn (Some id) rate gain) p in
  voices_get id (voices p') = Some v
  /\ (forall id', id' <> id -> voices_get id' (voices p') = voices_get id' (voices p))
  /\ map Voice.id (voices p')
     = (if decide (id ∈ map Voice.id (voices p)) then map Voice.id (voices p)
        else map Voice.id (voices p) ++ [id]).
Proof.
  intros Hroom v p'. unfold p'. cbn.
  destruct (maxVoices p <=? length (voices p))%nat eqn:E;
    [apply Nat.leb_le in E; lia|].
  cbn. split; [apply voices_get_set_eq; reflexivity|]. split.
  - intros id' Hne. apply voices_get_set_ne; [reflexivity | congruence].
  - apply voices_set_ids. reflexivity.
Qed.

Lemma set_voices_same p : set_voices (voices p) p = p.
Proof. destruct p. reflexivity. Qed.

(** X5: NoteOff for an id clears the [on] flag of that id's voice and changes
    nothing else: no voice is removed by the message, an unknown id and a
    missing id leave the processor as it was. *)
Theorem noteOff_clears_one_flag id p :
  (forall id',
     voices_get id' (voices (handleMessage (NoteOff (Some id)) p))
     = if (id =? id')%Z then Voice.set_on false <$> voices_get id' (voices p)
       else voices_get id' (voices p))
  /\ map Voice.id (voices (handleMessage (NoteOff (Some id)) p))
     = map Voice.id (voices p)
  /\ (voices_get id (voices p) = None ->
      handleMessage (NoteOff (Some id)) p = p)
  /\ handleMessage (NoteOff None) p = p.
Proof.
  split; [|split; [|split]].
  - intros id'. cbn. apply voices_get_release.
  - cbn. apply voices_release_ids.
  - intros Hnone. cbn. apply voices_get_None in Hnone.
    rewrite voices_release_absent by exact Hnone. apply set_voices_same.
  - reflexivity.
Qed.

Lemma scheduleGrainForVoice_grains_eq p r v g o j :
  Voice.grains (snd (scheduleGrainForVoice p r v g o j)) = Voice.grains v
  \/ exists sL : Z,
       (0 < frames p)%Z
       /\ sL = clampInt
                 (JS.Math_floor (snd (RingRNG.next r)
                                 * inject_Z (frames p - grainFrames_of g (sampleRateSrc p) - 1))
                  + JS.Math_floor (j * sampleRateSrc p
                                   * snd (RingRNG.norm (fst (RingRNG.next r)))))
                 0 (frames p - grainFrames_of g (sampleRateSrc p) - 1)
       /\ Voice.grains (snd (scheduleGrainForVoice p r v g o j))
          = Voice.grains v
            ++ [Grain.mk (inject_Z sL) (inject_Z sL)
                  (grainFrames_of g (sampleRateSrc p)) 0 (Voice.rate v) (Voice.gain v)].
Proof.
  destruct (Z_lt_le_dec 0 (frames p)) as [Hlen|Hlen].
  - right. eexists. split; [exact Hlen|]. split; [reflexivity|].
    rewrite scheduleGrainForVoice_loaded by exact Hlen. reflexivity.
  - left. unfold scheduleGrainForVoice.
    destruct (frames p <=? 0)%Z eqn:E; [reflexivity|].
    apply Z.leb_gt in E. lia.
Qed.

Lemma voices_set_Forall (P : Voice.t -> Prop) id v vs :
  P v -> Forall P vs -> Forall P (voices_set id v vs).
Proof.
  intros Hv Hvs. induction Hvs as [|w ws Hw Hws IH]; cbn.
  - constructor; [exact Hv | constructor].
  - destruct (Voice.id w =? id)%Z; constructor; assumption.
Qed.

Lemma voices_release_Forall (P : Voice.t -> Prop) id vs :
  (forall w, P w -> P (Voice.set_on false w)) ->
  Forall P vs -> Forall P (voices_release id vs).
Proof.
  intros Hoff Hvs. induction Hvs as [|w ws Hw Hws IH]; cbn; [constructor|].
  destruct (Voice.id w =? id)%Z; constructor; auto.
Qed.

(** X6: every grain that a processor holds between messages and render
    blocks satisfies 0 <= i < length and length >= 16, so [hann] is only
    ever called inside its window and never with n = 1. *)
Theorem grains_stay_in_their_window fuel sr evs outs p :
  run fuel sr evs constructor = Some (outs, p) ->
  Forall (fun v => Forall grain_in_window (Voice.grains v)) (voices p).
Proof.
  intros H.
  apply (run_preserves
           (fun p => Forall (fun v => Forall grain_in_window (Voice.grains v))
                       (voices p)) fuel sr)
    with (evs := evs) (p := constructor) (outs := outs); [| |exact H|].
  - intros m q Hq.
    destruct m as [s [[|L more]|] | [id|] rate gain | [id|] | [t|] [b|] |]; cbn;
      try exact Hq; try (destruct (_ <=? _)%nat; exact Hq).
    + destruct (_ <=? _)%nat; [exact Hq|]. cbn.
      apply voices_set_Forall; [constructor | exact Hq].
    + apply voices_release_Forall; [|exact Hq]. intros w Hw. exact Hw.
  - intros q params p1 r E Hq.
    eapply (process_keeps (fun v => Forall grain_in_window (Voice.grains v)));
      [| | | |exact E|exact Hq].
    + intros r0 v Hv.
      destruct (scheduleGrainForVoice_grains_eq p1 r0 v (grainSize params)
                  (clamp (overlap params) 0 0.95) (clamp (jitter params) 0 0.02))
        as [->|(sL & _ & _ & ->)]; [exact Hv|].
      apply Forall_app. split; [exact Hv|]. constructor; [|constructor].
      unfold grain_in_window, grainFrames_of. cbn. lia.
    + intros x v Hv. exact Hv.
    + intros x v Hv. exact Hv.
    + intros v Hv. unfold voice_after. cbn [Voice.grains Voice.set_grains].
      induction Hv as [|g gs Hg Hgs IH]; cbn; [constructor|].
      unfold grain_after at 1.
      destruct (Grain.length g <=? Grain.i g + 1)%Z eqn:E1; [exact IH|].
      constructor; [|exact IH].
      apply Z.leb_gt in E1. destruct Hg as [Hi Hl].
      unfold grain_in_window. cbn. lia.
  - constructor.
Qed.

End VoiceFacts.

Lemma voice_ids_are_unique_witness :
  exists outs p,
    run (host := polyHost) 2 48000 session constructor = Some (outs, p)
    /\ NoDup (map Voice.id (voices p)).
Proof.
  assert (H : is_Some (run (host := polyHost) 2 48000 session constructor))
    by (apply (bool_decide_unpack _); lazy; reflexivity).
  destruct H as [[outs p] E]. exists outs, p. split; [exact E|].
  exact (voice_ids_are_unique (host := polyHost) 2 48000 session outs p E).
Defined.

Lemma noteOn_adds_a_fresh_voice_witness :
  (length (voices session_start) < maxVoices session_start)%nat
  /\ voices_get 5 (voices (handleMessage (NoteOn (Some 5%Z) None (Some 0.5))
                             session_start))
     = Some (Voice.constructor 5 1 0.5)
  /\ map Voice.id (voices (handleMessage (NoteOn (Some 5%Z) None (Some 0.5))
                             session_start))
     = [1; 2; 5]%Z.
Proof.
  assert (Hroom : (length (voices session_start) < maxVoices session_start)%nat)
    by (vm_compute; lia).
  destruct (noteOn_adds_a_fresh_voice 5 None (Some 0.5) session_start Hroom)
    as (Hget & _ & Hids).
  split; [exact Hroom|]. split; [exact Hget|].
  rewrite Hids. reflexivity.
Defined.

Lemma grains_stay_in_their_window_witness :
  exists outs p,
    run (host := polyHost) 2 48000 session constructor = Some (outs, p)
    /\ Forall (fun v => Forall grain_in_window (Voice.grains v)) (voices p).
Proof.
  assert (H : is_Some (run (host := polyHost) 2 48000 session constructor))
    by (apply (bool_decide_unpack _); lazy; reflexivity).
  destruct H as [[outs p] E]. exists outs, p. split; [exact E|].
  exact (grains_stay_in_their_window (host := polyHost) 2 48000 session outs p E).
Defined.

(** ** Rendering inside the segment *)

Lemma is_NaN_lift2 f a b : is_NaN (lift2 f a b) = is_NaN a || is_NaN b.
Proof. destruct a, b; reflexivity. Qed.

Lemma grain_after_in_segment n g g' :
  grain_in_segment n g -> grain_after n g = Some g' -> grain_in_segment n g'.
Proof.
  intros ((HL0 & HL1) & (HR0 & HR1) & (Hr0 & Hr1)). unfold grain_after.
  destruct (Grain.length g <=? Grain.i g + 1)%Z; [discriminate|].
  intros [= <-]. unfold grain_in_segment. cbn.
  destruct (Qle_bool (inject_Z n) (Grain.posL g + Grain.rate g)) eqn:EL;
    destruct (Qle_bool (inject_Z n) (Grain.posR g + Grain.rate g)) eqn:ER;
    repeat match goal with
           | H : Qle_bool _ _ = true |- _ => apply Qle_bool_iff in H
           | H : Qle_bool ?a ?b = false |- _ =>
               assert (~ a <= b) by (intros Hc; apply Qle_bool_iff in Hc; congruence);
               clear H
           end;
    repeat split; lra.
Qed.

Lemma voice_after_in_segment n v :
  voice_in_segment n v -> voice_in_segment n (voice_after n v).
Proof.
  intros [Hr Hgs]. split; [exact Hr|].
  unfold voice_after. cbn [Voice.grains Voice.set_grains].
  apply Forall_forall. intros g' Hg'.
  apply list_elem_of_omap in Hg' as (g & Hg & Hstep).
  rewrite Forall_forall in Hgs.
  eapply grain_after_in_segment; [apply Hgs; exact Hg | exact Hstep].
Qed.

Lemma scheduleGrainForVoice_in_segment p r v g o j :
  (frames p < JS.two31)%Z ->
  voice_in_segment (frames p) v ->
  voice_in_segment (frames p) (snd (scheduleGrainForVoice p r v g o j)).
Proof.
  intros Hn [Hr Hgs].
  pose proof (scheduleGrainForVoice_id p r v g o j) as _.
  destruct (scheduleGrainForVoice_grains_eq p r v g o j)
    as [Heq|(sL & Hlen & HsL & Heq)].
  - split; [|rewrite Heq; exact Hgs].
    unfold scheduleGrainForVoice.
    destruct (frames p <=? 0)%Z; [exact Hr|].
    destruct (RingRNG.next r) as [r1 u1].
    destruct (RingRNG.norm r1) as [r2 u2]. exact Hr.
  - split.
    + rewrite scheduleGrainForVoice_loaded by exact Hlen. exact Hr.
    + rewrite Heq. apply Forall_app. split; [exact Hgs|].
      constructor; [|constructor].
      set (lim := (frames p - grainFrames_of g (sampleRateSrc p) - 1)%Z) in *.
      assert (Hs : (0 <= sL < frames p)%Z).
      { assert (Hg16 : (16 <= grainFrames_of g (sampleRateSrc p))%Z)
          by (unfold grainFrames_of; lia).
        destruct (Z_lt_le_dec lim 0) as [Hneg|Hpos].
        - rewrite HsL, clampInt_degenerate by exact Hneg. lia.
        - pose proof (clampInt_range
                        (JS.Math_floor (snd (RingRNG.next r) * inject_Z lim)
                         + JS.Math_floor (j * sampleRateSrc p
                                          * snd (RingRNG.norm (fst (RingRNG.next r)))))
                        lim ltac:(unfold lim in *; lia)) as Hc.
          rewrite <- HsL in Hc. unfold lim in *. lia. }
      destruct Hs as [Hs0 Hs1]. rewrite Zle_Qle in Hs0. rewrite Zlt_Qlt in Hs1.
      change (inject_Z 0) with 0 in Hs0.
      unfold grain_in_segment. cbn. repeat split; try assumption; apply Hr.
Qed.

Section Finite.

Context `{host : MathHost}.

Lemma readInterp_finite buf n pos :
  (n <= Z.of_nat (length buf))%Z -> 0 <= pos -> pos < inject_Z n ->
  is_NaN (readInterp buf pos) = false.
Proof.
  intros Hn H0 H1. rewrite Zle_Qle in Hn.
  apply readInterp_in_bounds; [exact H0 | lra].
Qed.

Lemma step_grain_finite srcL srcR n g mix :
  (n <= Z.of_nat (length srcL))%Z -> (n <= Z.of_nat (length srcR))%Z ->
  grain_in_segment n g ->
  is_NaN (fst mix) = false -> is_NaN (snd mix) = false ->
  is_NaN (fst (snd (step_grain srcL srcR n g mix))) = false
  /\ is_NaN (snd (snd (step_grain srcL srcR n g mix))) = false.
Proof.
  intros HL HR ((HL0 & HL1) & (HR0 & HR1) & _) Hm1 Hm2.
  pose proof (readInterp_finite srcL n (Grain.posL g) HL HL0 HL1) as H1.
  pose proof (readInterp_finite srcR n (Grain.posR g) HR HR0 HR1) as H2.
  unfold step_grain.
  destruct (Grain.length g <=? Grain.i g + 1)%Z; cbn [fst snd];
    unfold sadd, smul; rewrite !is_NaN_lift2, H1, H2, Hm1, Hm2; split; reflexivity.
Qed.

Lemma advance_grains_finite srcL srcR n :
  (n <= Z.of_nat (length srcL))%Z -> (n <= Z.of_nat (length srcR))%Z ->
  forall gs mix,
    Forall (grain_in_segment n) gs ->
    is_NaN (fst mix) = false -> is_NaN (snd mix) = false ->
    is_NaN (fst (snd (advance_grains srcL srcR n gs mix))) = false
    /\ is_NaN (snd (snd (advance_grains srcL srcR n gs mix))) = false.
Proof.
  intros HL HR. induction gs as [|g gs IH]; intros mix Hgs Hm1 Hm2;
    cbn [advance_grains]; [split; assumption|].
  inversion Hgs as [|? ? Hg Hrest]; subst.
  destruct (IH mix Hrest Hm1 Hm2) as [I1 I2].
  destruct (advance_grains srcL srcR n gs mix) as [rest mix1]. cbn [fst snd] in *.
  pose proof (step_grain_finite srcL srcR n g mix1 HL HR Hg I1 I2) as [S1 S2].
  destruct (step_grain srcL srcR n g mix1) as [og mix2]. cbn [fst snd] in *.
  split; assumption.
Qed.

Lemma render_voices_finite srcL srcR n :
  (n <= Z.of_nat (length srcL))%Z -> (n <= Z.of_nat (length srcR))%Z ->
  forall vs mix,
    Forall (voice_in_segment n) vs ->
    is_NaN (fst mix) = false -> is_NaN (snd mix) = false ->
    is_NaN (fst (snd (render_voices srcL srcR n vs mix))) = false
    /\ is_NaN (snd (snd (render_voices srcL srcR n vs mix))) = false.
Proof.
  intros HL HR. induction vs as [|v vs IH]; intros mix Hvs Hm1 Hm2;
    cbn [render_voices]; [split; assumption|].
  inversion Hvs as [|? ? [_ Hv] Hrest]; subst.
  pose proof (advance_grains_finite srcL srcR n HL HR (Voice.grains v) mix Hv Hm1 Hm2)
    as [A1 A2].
  destruct (advance_grains srcL srcR n (Voice.grains v) mix) as [gs mix1].
  cbn [fst snd] in *.
  destruct (IH mix1 Hrest A1 A2) as [I1 I2].
  destruct (render_voices srcL srcR n vs mix1) as [rest mix2]. cbn [fst snd] in *.
  destruct (negb _ && _); split; assumption.
Qed.

Lemma applyEQ_finite p x st sr :
  is_NaN x = false -> is_NaN (lp st) = false -> is_NaN (hp st) = false ->
  is_NaN (fst (applyEQ p x st sr)) = false
  /\ is_NaN (lp (snd (applyEQ p x st sr))) = false
  /\ is_NaN (hp (snd (applyEQ p x st sr))) = false.
Proof.
  intros Hx Hl Hh. unfold applyEQ. cbn [fst snd lp hp].
  unfold sadd, ssub, smul. rewrite !is_NaN_lift2, Hx, Hl, Hh.
  repeat split.
Qed.

Lemma render_sample_finite sr p :
  in_segment p -> eq_finite p ->
  let res := render_sample sr p in
  (is_NaN (fst (snd res)) = false /\ is_NaN (snd (snd res)) = false)
  /\ in_segment (fst res) /\ eq_finite (fst res).
Proof.
  intros (Hn & HL & HR & Hvs) (E1 & E2 & E3 & E4). cbv zeta.
  pose proof (render_voices_finite (bufferL p) (bufferR p) (frames p) HL HR
                (voices p) (Val 0, Val 0) Hvs eq_refl eq_refl) as [M1 M2].
  pose proof (render_voices_keep (voice_in_segment (frames p)) p
                (voice_after_in_segment (frames p))
                (bufferL p) (bufferR p) (voices p) (Val 0, Val 0) Hvs) as Hk.
  unfold render_sample.
  destruct (render_voices _ _ _ _ _) as [vs [mixL mixR]]. cbn [fst snd] in *.
  pose proof (applyEQ_finite (set_voices vs p) mixL (eqStateL p) sr M1 E1 E2)
    as (A1 & A2 & A3).
  cbn [eqStateL eqStateR set_voices] in *.
  destruct (applyEQ (set_voices vs p) mixL (eqStateL p) sr) as [oL eL].
  cbn [fst snd] in *.
  pose proof (applyEQ_finite (set_eq eL (eqStateR p) (set_voices vs p)) mixR
                (eqStateR p) sr M2 E3 E4) as (B1 & B2 & B3).
  cbn [eqStateL eqStateR set_voices set_eq] in *.
  destruct (applyEQ _ mixR (eqStateR p) sr) as [oR eR]. cbn [fst snd] in *.
  split; [split; assumption|]. split.
  - unfold in_segment. cbn. repeat split; try assumption; apply Hn.
  - unfold eq_finite. cbn. repeat split; assumption.
Qed.

Lemma render_block_finite sr : forall k p,
  in_segment p -> eq_finite p ->
  let res := render_block k sr p in
  (Forall (fun x => is_NaN x = false) (fst (snd res))
   /\ Forall (fun x => is_NaN x = false) (snd (snd res)))
  /\ in_segment (fst res) /\ eq_finite (fst res).
Proof.
  induction k as [|k IH]; intros p Hs He; cbv zeta; cbn [render_block].
  - split; [split; constructor|]. split; assumption.
  - pose proof (render_sample_finite sr p Hs He) as ((O1 & O2) & Hs1 & He1).
    destruct (render_sample sr p) as [p1 [l r]]. cbn [fst snd] in *.
    pose proof (IH p1 Hs1 He1) as ((L1 & L2) & Hs2 & He2).
    destruct (render_block k sr p1) as [p2 [ls rs]]. cbn [fst snd] in *.
    split; [split; constructor; assumption|]. split; assumption.
Qed.

(** A render block on a processor whose voices and grains are inside the
    segment writes no not-a-number and leaves them inside. *)
Lemma process_finite fuel sr q params p r :
  in_segment p -> eq_finite p ->
  process fuel sr q params p = Some r ->
  (Forall (fun x => is_NaN x = false) (outL r)
   /\ Forall (fun x => is_NaN x = false) (outR r))
  /\ in_segment (after r) /\ eq_finite (after r).
Proof.
  intros Hs He H. unfold process in H.
  destruct (_ || _).
  - injection H as <-. cbn.
    split; [|split; assumption].
    split; apply Forall_replicate; reflexivity.
  - destruct (schedule_voices _ _ _ _ _ _ _) as [[r1 vs]|] eqn:E; [|discriminate].
    cbn in H.
    destruct Hs as (Hn & HL & HR & Hvs).
    pose proof (schedule_voices_keep (voice_in_segment (frames p)) p _ _ _
                  (fun r0 v Hv =>
                     scheduleGrainForVoice_in_segment p r0 v _ _ _ (proj2 Hn) Hv)
                  (fun x v Hv => Hv) fuel _ _ _ _ E Hvs) as Hvs1.
    assert (Hs1 : in_segment (set_voices vs (set_rng r1 p)))
      by (unfold in_segment; cbn; repeat split; try assumption; apply Hn).
    assert (He1 : eq_finite (set_voices vs (set_rng r1 p))) by exact He.
    pose proof (render_block_finite sr q _ Hs1 He1) as ((L1 & L2) & Hs2 & He2).
    destruct (render_block _ _ _) as [p2 [ls rs]]. cbn [fst snd] in *.
    injection H as <-. cbn.
    split; [split; assumption|]. split; [|exact He2].
    destruct Hs2 as (Hn2 & HL2 & HR2 & Hvs2).
    unfold in_segment. cbn. repeat split; try assumption; try apply Hn2.
    apply Forall_fmap. eapply Forall_impl; [exact Hvs2|].
    intros v Hv. exact Hv.
Qed.

Lemma handleMessage_in_segment m p :
  tame (frames p) (OnMessage m) -> in_segment p -> eq_finite p ->
  in_segment (handleMessage m p) /\ eq_finite (handleMessage m p)
  /\ frames (handleMessage m p) = frames p.
Proof.
  intros Ht Hs He.
  assert (Hsame : in_segment p /\ eq_finite p /\ frames p = frames p)
    by (split; [exact Hs | split; [exact He | reflexivity]]).
  pose proof Hs as (Hn & HL & HR & Hvs).
  destruct m as [s ch | id rate gain | id | tilt bright |].
  - contradiction.
  - cbn [handleMessage]. destruct (_ <=? _)%nat; [exact Hsame|].
    destruct id as [id|]; [|exact Hsame].
    split; [|split; [exact He | reflexivity]].
    split; [exact Hn|]. split; [exact HL|]. split; [exact HR|].
    cbn [voices frames set_voices].
    apply voices_set_Forall; [|exact Hvs].
    split; [exact Ht | constructor].
  - cbn [handleMessage]. destruct id as [id|]; [|exact Hsame].
    split; [|split; [exact He | reflexivity]].
    split; [exact Hn|]. split; [exact HL|]. split; [exact HR|].
    cbn [voices frames set_voices].
    apply voices_release_Forall; [|exact Hvs]. intros w Hw. exact Hw.
  - cbn [handleMessage]. destruct tilt, bright; exact Hsame.
  - exact Hsame.
Qed.

Lemma run_in_segment fuel sr : forall evs p outs p',
  in_segment p -> eq_finite p ->
  Forall (tame (frames p)) evs ->
  run fuel sr evs p = Some (outs, p') ->
  Forall (fun o => Forall (fun x => is_NaN x = false) (fst o)
                   /\ Forall (fun x => is_NaN x = false) (snd o)) outs
  /\ in_segment p' /\ frames p' = frames p.
Proof.
  induction evs as [|[m|q params] evs IH]; intros p outs p' Hs He Ht H;
    cbn [run] in H.
  - injection H as <- <-. split; [constructor|]. split; [exact Hs | reflexivity].
  - inversion Ht as [|? ? Hm Hrest]; subst.
    destruct (handleMessage_in_segment m p Hm Hs He) as (Hs1 & He1 & Hf).
    rewrite <- Hf.
    eapply IH; [exact Hs1 | exact He1 | rewrite Hf; exact Hrest | exact H].
  - inversion Ht as [|? ? _ Hrest]; subst.
    destruct (process fuel sr q params p) as [r|] eqn:E; [|discriminate].
    cbn in H.
    destruct (run fuel sr evs (after r)) as [[outs1 p1]|] eqn:E1; [|discriminate].
    cbn in H. injection H as <- <-.
    pose proof (process_finite fuel sr q params p r Hs He E) as (Ho & Hs1 & He1).
    pose proof (process_fields fuel sr q params p r E) as (_ & _ & _ & Hf & _).
    destruct (IH (after r) outs1 p1 Hs1 He1 ltac:(rewrite Hf; exact Hrest) E1)
      as (Houts & Hp & Hfr).
    split; [constructor; [exact Ho | exact Houts]|].
    split; [exact Hp | congruence].
Qed.

(** X7: once a segment of n >= 1 frames is loaded in a new processor, and as
    long as no other segment is loaded and every note is started at a rate
    between 0 and n, no render block writes a not-a-number, and every
    grain stays at a position in [0, n). *)
Theorem rendering_stays_in_the_segment fuel sr s L more evs outs p :
  let R := match more with [] => L | R :: _ => R end in
  let n := Z.min (Z.of_nat (length L)) (Z.of_nat (length R)) in
  (0 < n < JS.two31)%Z ->
  Forall (tame n) evs ->
  run fuel sr (OnMessage (LoadBuffer s (Some (L :: more))) :: evs) constructor
    = Some (outs, p) ->
  Forall (fun o => Forall (fun x => is_NaN x = false) (fst o)
                   /\ Forall (fun x => is_NaN x = false) (snd o)) outs
  /\ in_segment p /\ frames p = n.
Proof.
  intros R n Hn Ht H. cbn [run] in H.
  set (p0 := handleMessage (LoadBuffer s (Some (L :: more))) constructor) in *.
  assert (Hf : frames p0 = n).
  { unfold p0. cbn [handleMessage]. fold R. fold n. cbn [frames set_buffers].
    apply to_int32_small. unfold JS.two31 in *. lia. }
  assert (Hs : in_segment p0).
  { split; [rewrite Hf; exact Hn|]. rewrite Hf.
    unfold p0. cbn [handleMessage]. fold R.
    cbn [bufferL bufferR voices set_buffers constructor].
    split; [unfold n; lia|]. split; [unfold n; lia | constructor]. }
  assert (He : eq_finite p0) by (repeat split).
  rewrite <- Hf in Ht.
  destruct (run_in_segment fuel sr evs p0 outs p Hs He Ht H) as (Ho & Hp & Hfr).
  split; [exact Ho|]. split; [exact Hp | congruence].
Qed.

End Finite.

Lemma rendering_stays_in_the_segment_witness :
  (0 < 64 < JS.two31)%Z
  /\ Forall (tame 64) session_notes
  /\ exists outs p,
       run (host := polyHost) 2 48000 session constructor = Some (outs, p)
       /\ Forall (fun o => Forall (fun x => is_NaN x = false) (fst o)
                           /\ Forall (fun x => is_NaN x = false) (snd o)) outs
       /\ in_segment p /\ frames p = 64%Z.
Proof.
  assert (Hn : (0 < 64 < JS.two31)%Z) by (split; reflexivity).
  assert (Ht : Forall (tame 64) session_notes).
  { repeat constructor; discriminate. }
  assert (H : is_Some (run (host := polyHost) 2 48000 session constructor))
    by (apply (bool_decide_unpack _); lazy; reflexivity).
  destruct H as [[outs p] E].
  split; [exact Hn|]. split; [exact Ht|].
  exists outs, p. split; [exact E|].
  exact (rendering_stays_in_the_segment (host := polyHost) 2 48000 (Some 1024)
           ramp [ramp] session_notes outs p Hn Ht E).
Defined.

(** ** The scheduling pass and the clocks *)

Lemma scheduleGrainForVoice_time p r v g o j :
  Voice.time (snd (scheduleGrainForVoice p r v g o j)) = Voice.time v.
Proof.
  unfold scheduleGrainForVoice.
  destruct (frames p <=? 0)%Z; [reflexivity|].
  destruct (RingRNG.next r) as [r1 u1].
  destruct (RingRNG.norm r1) as [r2 u2]. reflexivity.
Qed.

Lemma scheduleGrainForVoice_unloaded p r v g o j :
  (frames p <= 0)%Z -> scheduleGrainForVoice p r v g o j = (r, v).
Proof.
  intros H. unfold scheduleGrainForVoice.
  destruct (Z.leb_spec (frames p) 0); [reflexivity | lia].
Qed.

Lemma schedule_loop_unloaded p g o j : forall fuel r v,
  (frames p <= 0)%Z ->
  Qle_bool (Voice.nextGrainAt v) (Voice.time v + 1e-6) = true ->
  schedule_loop fuel p r v g o j = None.
Proof.
  induction fuel as [|fuel IH]; intros r v Hlen Hdue; cbn [schedule_loop];
    rewrite Hdue; [reflexivity|].
  rewrite scheduleGrainForVoice_unloaded by exact Hlen.
  apply IH; assumption.
Qed.

Lemma Qle_bool_false a b : Qle_bool a b = false <-> b < a.
Proof.
  split.
  - intros H. apply Qnot_le_lt. intros Hc. apply Qle_bool_iff in Hc. congruence.
  - intros H. destruct (Qle_bool a b) eqn:E; [|reflexivity].
    apply Qle_bool_iff in E. lra.
Qed.

Lemma scheduleGrainForVoice_length p r v g o j :
  (0 < frames p)%Z ->
  length (Voice.grains (snd (scheduleGrainForVoice p r v g o j)))
  = S (length (Voice.grains v)).
Proof.
  intros Hlen. rewrite scheduleGrainForVoice_loaded by exact Hlen.
  cbv zeta. cbn [snd Voice.grains]. rewrite length_app. cbn [length]. lia.
Qed.

(** The loop of [process] on one voice: clock untouched, one grain per
    interval, left as soon as the next grain lies after the clock. *)
Lemma schedule_loop_post p g o j : forall fuel r v r' v',
  schedule_loop fuel p r v g o j = Some (r', v') ->
  Voice.time v' = Voice.time v
  /\ Voice.time v' + 1e-6 < Voice.nextGrainAt v'
  /\ (exists k : nat,
        length (Voice.grains v') = (length (Voice.grains v) + k)%nat
        /\ Voice.nextGrainAt v'
           == Voice.nextGrainAt v + inject_Z (Z.of_nat k) * intervalSec_of g o
        /\ (k = 0%nat -> v' = v)
        /\ (k <> 0%nat ->
            Voice.nextGrainAt v' <= Voice.time v + 1e-6 + intervalSec_of g o)).
Proof.
  induction fuel as [|fuel IH]; intros r v r' v' H; cbn [schedule_loop] in H;
    destruct (Qle_bool (Voice.nextGrainAt v) (Voice.time v + 1e-6)) eqn:Hdue;
    try discriminate.
  - injection H as _ <-. split; [reflexivity|].
    split; [apply Qle_bool_false; exact Hdue|].
    exists 0%nat. split; [lia|]. split; [|split; [reflexivity | congruence]].
    change (inject_Z (Z.of_nat 0)) with 0. ring.
  - destruct (Z_le_gt_dec (frames p) 0) as [Hlen|Hlen].
    { rewrite scheduleGrainForVoice_unloaded in H by exact Hlen.
      rewrite schedule_loop_unloaded in H by assumption. discriminate. }
    assert (Hpos : (0 < frames p)%Z) by lia.
    pose proof (scheduleGrainForVoice_clock p r v g o j Hpos) as [Ht Hn].
    pose proof (scheduleGrainForVoice_length p r v g o j Hpos) as Hg.
    destruct (scheduleGrainForVoice p r v g o j) as [r1 v1].
    cbn [snd] in Ht, Hn, Hg.
    destruct (IH r1 v1 r' v' H) as (Ht' & Hexit & k & Hlen' & Hnext & Hk0 & Hk).
    split; [congruence|]. split; [exact Hexit|].
    exists (S k). split; [lia|]. split; [|split; [discriminate|]].
    + rewrite Hnext, Hn, Nat2Z.inj_succ. unfold Z.succ.
      rewrite inject_Z_plus. change (inject_Z 1) with 1. ring.
    + intros _. apply Qle_bool_iff in Hdue.
      destruct k as [|k].
      * rewrite (Hk0 eq_refl), Hn. lra.
      * pose proof (Hk ltac:(discriminate)) as Hb. rewrite Ht in Hb. exact Hb.
  - injection H as _ <-. split; [reflexivity|].
    split; [apply Qle_bool_false; exact Hdue|].
    exists 0%nat. split; [lia|]. split; [|split; [reflexivity | congruence]].
    change (inject_Z (Z.of_nat 0)) with 0. ring.
Qed.

(** X8: when the scheduling pass of [process] is done with a voice, the
    voice's clock is unchanged and its next grain lies more than 1e-6 s
    after it; a voice that was not due is untouched and draws no random
    number, and a voice that was due is left at most one grain interval
    past its clock. *)
Theorem scheduling_leaves_no_voice_due fuel p r v g o j r' v' :
  schedule_voice fuel p r v g o j = Some (r', v') ->
  Voice.time v' = Voice.time v
  /\ Voice.time v' + 1e-6 < Voice.nextGrainAt v'
  /\ (Voice.time v + 1e-6 < Voice.nextGrainAt v -> v' = v /\ r' = r)
  /\ (Voice.nextGrainAt v <= Voice.time v + 1e-6 ->
      Voice.nextGrainAt v' <= Voice.time v + 1e-6 + intervalSec_of g o).
Proof.
  unfold schedule_voice. intros H.
  destruct (Qle_bool _ _) eqn:Hdue.
  - set (v0 := if Qeq_bool (Voice.time v) 0 then Voice.set_nextGrainAt 0 v else v)
      in *.
    assert (Ht0 : Voice.time v0 = Voice.time v)
      by (unfold v0; destruct (Qeq_bool _ _); reflexivity).
    assert (Hdue0 : Voice.nextGrainAt v0 <= Voice.time v0 + 1e-6).
    { unfold v0. destruct (Qeq_bool (Voice.time v) 0) eqn:E.
      - apply Qeq_bool_iff in E. change (0 <= Voice.time v + 1e-6).
        assert (Heps : 0 < 1e-6) by reflexivity. lra.
      - apply Qle_bool_iff. exact Hdue. }
    destruct (schedule_loop_post p g o j fuel r v0 r' v' H)
      as (Ht & Hexit & k & _ & _ & Hk0 & Hk).
    split; [congruence|]. split; [exact Hexit|]. split.
    + intros Hnot. apply Qle_bool_iff in Hdue. lra.
    + intros _. destruct k as [|k].
      * rewrite (Hk0 eq_refl) in Hexit. lra.
      * pose proof (Hk ltac:(discriminate)) as Hb. rewrite Ht0 in Hb. exact Hb.
  - injection H as <- <-. apply Qle_bool_false in Hdue.
    split; [reflexivity|]. split; [exact Hdue|]. split; [easy|]. lra.
Qed.

(** X9: the scheduling pass adds k >= 0 grains to a voice, and when k > 0
    the next-grain time ends k intervals after where the pass started: at
    0 for a voice whose clock is 0, else at its previous value. *)
Theorem one_grain_per_interval fuel p r v g o j r' v' :
  schedule_voice fuel p r v g o j = Some (r', v') ->
  exists k : nat,
    length (Voice.grains v') = (length (Voice.grains v) + k)%nat
    /\ (k <> 0%nat ->
        Voice.nextGrainAt v'
        == (if Qeq_bool (Voice.time v) 0 then 0 else Voice.nextGrainAt v)
           + inject_Z (Z.of_nat k) * intervalSec_of g o).
Proof.
  unfold schedule_voice. intros H.
  destruct (Qle_bool _ _) eqn:Hdue.
  - destruct (schedule_loop_post p g o j fuel r _ r' v' H)
      as (_ & _ & k & Hlen & Hnext & _ & _).
    exists k. split.
    + rewrite Hlen. destruct (Qeq_bool _ _); reflexivity.
    + intros _. rewrite Hnext. destruct (Qeq_bool _ _); reflexivity.
  - injection H as <- <-. exists 0%nat. split; [lia | congruence].
Qed.

Lemma schedule_voice_clock fuel p r v g o j r' v' :
  schedule_voice fuel p r v g o j = Some (r', v') ->
  Voice.id v' = Voice.id v /\ Voice.time v' = Voice.time v.
Proof.
  intros H. split; [eapply schedule_voice_id; exact H|].
  unfold schedule_voice in H.
  destruct (Qle_bool _ _); [|injection H as _ <-; reflexivity].
  apply schedule_loop_post in H as (Ht & _). rewrite Ht.
  destruct (Qeq_bool _ _); reflexivity.
Qed.

Lemma schedule_voices_clocks fuel p g o j : forall vs r r' vs',
  schedule_voices fuel p r vs g o j = Some (r', vs') ->
  map (fun v => (Voice.id v, Voice.time v)) vs'
  = map (fun v => (Voice.id v, Voice.time v)) vs.
Proof.
  induction vs as [|v vs IH]; intros r r' vs' H; cbn in H.
  - injection H as _ <-. reflexivity.
  - destruct (schedule_voice fuel p r v g o j) as [[r1 v1]|] eqn:E1;
      [|discriminate]. cbn in H.
    destruct (schedule_voices fuel p r1 vs g o j) as [[r2 vs2]|] eqn:E2;
      [|discriminate]. cbn in H.
    injection H as _ <-. cbn [map].
    apply schedule_voice_clock in E1 as [-> ->].
    f_equal. eapply IH. exact E2.
Qed.

Lemma sublist_map {A B} (f : A -> B) (l1 l2 : list A) :
  l1 `sublist_of` l2 -> map f l1 `sublist_of` map f l2.
Proof.
  induction 1; cbn [map]; [constructor | apply sublist_skip | apply sublist_cons];
    assumption.
Qed.

Section Clocks.

Context `{host : MathHost}.

Lemma render_voices_clocks srcL srcR len vs mix :
  map (fun v => (Voice.id v, Voice.time v)) (fst (render_voices srcL srcR len vs mix))
    `sublist_of` map (fun v => (Voice.id v, Voice.time v)) vs.
Proof.
  rewrite render_voices_filter.
  induction vs as [|v vs IH]; [constructor|].
  cbn [map]. rewrite filter_cons. destruct (decide _); cbn [map].
  - apply sublist_skip. exact IH.
  - apply sublist_cons. exact IH.
Qed.

Lemma render_sample_clocks sr p :
  map (fun v => (Voice.id v, Voice.time v)) (voices (fst (render_sample sr p)))
    `sublist_of` map (fun v => (Voice.id v, Voice.time v)) (voices p).
Proof.
  unfold render_sample.
  pose proof (render_voices_clocks (bufferL p) (bufferR p) (frames p) (voices p)
                (Val 0, Val 0)) as H.
  destruct (render_voices _ _ _ _ _) as [vs [mixL mixR]]. cbn [fst] in H.
  destruct (applyEQ _ mixL _ sr) as [oL eL].
  destruct (applyEQ _ mixR _ sr) as [oR eR]. exact H.
Qed.

Lemma render_block_clocks sr : forall k p,
  map (fun v => (Voice.id v, Voice.time v)) (voices (fst (render_block k sr p)))
    `sublist_of` map (fun v => (Voice.id v, Voice.time v)) (voices p).
Proof.
  induction k as [|k IH]; intros p; cbn [render_block]; [reflexivity|].
  pose proof (render_sample_clocks sr p) as H1.
  destruct (render_sample sr p) as [p1 [l r]]. cbn [fst] in *.
  specialize (IH p1).
  destruct (render_block k sr p1) as [p2 [ls rs]]. cbn [fst] in *.
  etransitivity; eassumption.
Qed.

Lemma render_block_length sr : forall k p,
  length (fst (snd (render_block k sr p))) = k
  /\ length (snd (snd (render_block k sr p))) = k.
Proof.
  induction k as [|k IH]; intros p; cbn [render_block]; [split; reflexivity|].
  destruct (render_sample sr p) as [p1 [l r]].
  specialize (IH p1).
  destruct (render_block k sr p1) as [p2 [ls rs]]. cbn [fst snd length] in *.
  destruct IH as [-> ->]. split; reflexivity.
Qed.

(** X10: a render block of q frames adds q / sampleRate to the clock of
    every voice it keeps, and keeps the voices in order; with no segment
    loaded it returns early and leaves the processor, clocks included,
    unchanged. *)
Theorem block_advances_the_clocks fuel sr q params p r :
  process fuel sr q params p = Some r ->
  if (frames p <=? 0)%Z || (length (bufferL p) =? 0)%nat
  then after r = p
  else
    map (fun v => (Voice.id v, Voice.time v)) (voices (after r))
      `sublist_of`
    map (fun v => (Voice.id v, Voice.time v + inject_Z (Z.of_nat q) / sr)) (voices p).
Proof.
  unfold process. intros H.
  destruct (_ || _); [injection H as <-; reflexivity|].
  destruct (schedule_voices _ _ _ _ _ _ _) as [[r1 vs]|] eqn:E; [|discriminate].
  cbn in H. apply schedule_voices_clocks in E.
  pose proof (render_block_clocks sr q (set_voices vs (set_rng r1 p))) as H1.
  destruct (render_block _ _ _) as [p2 [ls rs]]. cbn [fst] in *.
  injection H as <-. cbn [after voices set_voices set_rng] in *.
  rewrite E in H1.
  apply (sublist_map (fun c : Z * Q => (fst c, snd c + inject_Z (Z.of_nat q) / sr)))
    in H1.
  rewrite !map_map in H1. rewrite map_map. exact H1.
Qed.

(** A render block writes exactly the quantum of samples on both channels, and
    zeros when no segment is loaded. *)
Lemma process_fills_the_quantum fuel sr q params p r :
  process fuel sr q params p = Some r ->
  length (outL r) = q /\ length (outR r) = q /\ keepAlive r = true
  /\ ((frames p <= 0)%Z \/ bufferL p = [] ->
      outL r = replicate q (Val 0) /\ outR r = replicate q (Val 0)).
Proof.
  unfold process. intros H.
  destruct (Z.leb_spec (frames p) 0) as [Hf|Hf]; cbn [orb] in H.
  - injection H as <-. cbn. rewrite !length_replicate. repeat split.
  - destruct (bufferL p) as [|x xs] eqn:Eb; cbn [length Nat.eqb] in H.
    + injection H as <-. cbn. rewrite !length_replicate. repeat split.
    + destruct (schedule_voices _ _ _ _ _ _ _) as [[r1 vs]|] eqn:E; [|discriminate].
      cbn in H.
      pose proof (render_block_length sr q (set_voices vs (set_rng r1 p))) as [L1 L2].
      destruct (render_block _ _ _) as [p2 [ls rs]]. cbn [fst snd] in *.
      injection H as <-. cbn.
      split; [exact L1|]. split; [exact L2|]. split; [reflexivity|].
      intros [Hc|Hc]; [lia | discriminate].
Qed.

End Clocks.

Lemma scheduling_leaves_no_voice_due_witness :
  exists r' v',
    schedule_voice 1 session_start (rng session_start) (Voice.constructor 1 1 0.9)
      0.03125 0.5 0 = Some (r', v')
    /\ Voice.time v' = 0
    /\ Voice.time v' + 1e-6 < Voice.nextGrainAt v'
    /\ Voice.nextGrainAt v' <= 0 + 1e-6 + intervalSec_of 0.03125 0.5.
Proof.
  assert (H : is_Some (schedule_voice 1 session_start (rng session_start)
                         (Voice.constructor 1 1 0.9) 0.03125 0.5 0))
    by (apply (bool_decide_unpack _); vm_compute; reflexivity).
  destruct H as [[r' v'] E]. exists r', v'. split; [exact E|].
  destruct (scheduling_leaves_no_voice_due 1 session_start (rng session_start)
              (Voice.constructor 1 1 0.9) 0.03125 0.5 0 r' v' E)
    as (Ht & Hnext & _ & Hdue).
  split; [exact Ht|]. split; [exact Hnext|].
  apply Hdue. discriminate.
Defined.

Lemma one_grain_per_interval_witness :
  exists r' v',
    schedule_voice 1 session_start (rng session_start) (Voice.constructor 1 1 0.9)
      0.03125 0.5 0 = Some (r', v')
    /\ exists k : nat,
         length (Voice.grains v') = (0 + k)%nat
         /\ (k <> 0%nat ->
             Voice.nextGrainAt v'
             == 0 + inject_Z (Z.of_nat k) * intervalSec_of 0.03125 0.5).
Proof.
  assert (H : is_Some (schedule_voice 1 session_start (rng session_start)
                         (Voice.constructor 1 1 0.9) 0.03125 0.5 0))
    by (apply (bool_decide_unpack _); vm_compute; reflexivity).
  destruct H as [[r' v'] E]. exists r', v'. split; [exact E|].
  exact (one_grain_per_interval 1 session_start (rng session_start)
           (Voice.constructor 1 1 0.9) 0.03125 0.5 0 r' v' E).
Defined.

Lemma block_advances_the_clocks_witness :
  exists r,
    process (host := polyHost) 1 48000 8 defaults session_start = Some r
    /\ map (fun v => (Voice.id v, Voice.time v)) (voices (after r))
         `sublist_of`
       map (fun v => (Voice.id v, Voice.time v + inject_Z (Z.of_nat 8) / 48000))
         (voices session_start).
Proof.
  assert (H : is_Some (process (host := polyHost) 1 48000 8 defaults session_start))
    by (apply (bool_decide_unpack _); lazy; reflexivity).
  destruct H as [r E]. exists r. split; [exact E|].
  exact (block_advances_the_clocks (host := polyHost) 1 48000 8 defaults
           session_start r E).
Defined.

(** ** The generator *)

Lemma to_int32_mod z : (JS.to_int32 z mod JS.two32 = z mod JS.two32)%Z.
Proof.
  unfold JS.to_int32. rewrite Zminus_mod_idemp_l. f_equal. lia.
Qed.

Lemma testbit_low_mod z i :
  (0 <= i < 32)%Z -> Z.testbit (z mod JS.two32) i = Z.testbit z i.
Proof.
  intros Hi. change JS.two32 with (2 ^ 32)%Z.
  apply Z.mod_pow2_bits_low. lia.
Qed.

Lemma testbit_to_int32 z i :
  (0 <= i < 32)%Z -> Z.testbit (JS.to_int32 z) i = Z.testbit z i.
Proof.
  intros Hi. rewrite <- (testbit_low_mod (JS.to_int32 z)) by exact Hi.
  rewrite to_int32_mod. apply testbit_low_mod. exact Hi.
Qed.

Lemma testbit_to_uint32 z i :
  (0 <= i)%Z ->
  Z.testbit (JS.to_uint32 z) i = if (i <? 32)%Z then Z.testbit z i else false.
Proof.
  intros Hi. unfold JS.to_uint32. change JS.two32 with (2 ^ 32)%Z.
  destruct (Z.ltb_spec i 32).
  - apply Z.mod_pow2_bits_low. lia.
  - apply Z.mod_pow2_bits_high. lia.
Qed.

Lemma testbit_xor_shl x k i :
  (0 <= k < 32)%Z -> (0 <= i < 32)%Z ->
  Z.testbit (JS.xor x (JS.shl x k)) i
  = xorb (Z.testbit x i) (if (i <? k)%Z then false else Z.testbit x (i - k)).
Proof.
  intros Hk Hi. unfold JS.xor, JS.shl.
  rewrite Z.lxor_spec, !testbit_to_int32 by exact Hi.
  replace (Z.land k 31) with k.
  2:{ change 31%Z with (Z.ones 5). rewrite Z.land_ones by lia.
      rewrite Z.mod_small; [reflexivity | change (2 ^ 5)%Z with 32%Z; lia]. }
  rewrite Z.shiftl_spec by lia. f_equal.
  destruct (Z.ltb_spec i k).
  - apply Z.testbit_neg_r. lia.
  - apply testbit_to_int32. lia.
Qed.

Lemma testbit_xor_shru x k i :
  (0 <= k < 32)%Z -> (0 <= i < 32)%Z ->
  Z.testbit (JS.xor x (JS.shru x k)) i
  = xorb (Z.testbit x i) (if (i + k <? 32)%Z then Z.testbit x (i + k) else false).
Proof.
  intros Hk Hi. unfold JS.xor, JS.shru.
  rewrite Z.lxor_spec, !testbit_to_int32 by exact Hi.
  replace (Z.land k 31) with k.
  2:{ change 31%Z with (Z.ones 5). rewrite Z.land_ones by lia.
      rewrite Z.mod_small; [reflexivity | change (2 ^ 5)%Z with 32%Z; lia]. }
  rewrite Z.shiftr_spec by lia. f_equal.
  apply testbit_to_uint32. lia.
Qed.

Lemma xor_shl_zero x k :
  (0 < k < 32)%Z ->
  (forall i, (0 <= i < 32)%Z -> Z.testbit (JS.xor x (JS.shl x k)) i = false) ->
  forall i, (0 <= i < 32)%Z -> Z.testbit x i = false.
Proof.
  intros Hk H.
  assert (Hn : forall n : nat, forall i,
             (0 <= i < 32)%Z -> (i < Z.of_nat n)%Z -> Z.testbit x i = false).
  { induction n as [|n IH]; intros i Hi Hlt; [lia|].
    pose proof (H i Hi) as Hb.
    rewrite testbit_xor_shl in Hb by lia.
    destruct (Z.ltb_spec i k).
    - destruct (Z.testbit x i); [discriminate | reflexivity].
    - rewrite (IH (i - k)%Z) in Hb by lia.
      destruct (Z.testbit x i); [discriminate | reflexivity]. }
  intros i Hi. apply (Hn 32%nat); lia.
Qed.

Lemma xor_shru_zero x k :
  (0 < k < 32)%Z ->
  (forall i, (0 <= i < 32)%Z -> Z.testbit (JS.xor x (JS.shru x k)) i = false) ->
  forall i, (0 <= i < 32)%Z -> Z.testbit x i = false.
Proof.
  intros Hk H.
  assert (Hn : forall n : nat, forall i,
             (0 <= i < 32)%Z -> (32 - Z.of_nat n <= i)%Z -> Z.testbit x i = false).
  { induction n as [|n IH]; intros i Hi Hlt; [lia|].
    pose proof (H i Hi) as Hb.
    rewrite testbit_xor_shru in Hb by lia.
    destruct (Z.ltb_spec (i + k) 32).
    - rewrite (IH (i + k)%Z) in Hb by lia.
      destruct (Z.testbit x i); [discriminate | reflexivity].
    - destruct (Z.testbit x i); [discriminate | reflexivity]. }
  intros i Hi. apply (Hn 32%nat); lia.
Qed.

Lemma low_bits_zero z :
  (forall i, (0 <= i < 32)%Z -> Z.testbit z i = false) <-> JS.to_uint32 z = 0%Z.
Proof.
  split.
  - intros H. apply Z.bits_inj'. intros i Hi.
    rewrite testbit_to_uint32, Z.bits_0 by exact Hi.
    destruct (Z.ltb_spec i 32); [apply H; lia | reflexivity].
  - intros H i Hi.
    pose proof (testbit_to_uint32 z i ltac:(lia)) as Hb.
    rewrite H, Z.bits_0 in Hb.
    destruct (Z.ltb_spec i 32); [congruence | lia].
Qed.

Lemma testbit_ext_low a b :
  (forall i, (0 <= i < 32)%Z -> Z.testbit a i = Z.testbit b i) ->
  JS.to_uint32 a = JS.to_uint32 b.
Proof.
  intros H. apply Z.bits_inj'. intros i Hi.
  rewrite !testbit_to_uint32 by exact Hi.
  destruct (Z.ltb_spec i 32); [apply H; lia | reflexivity].
Qed.

(** The xorshift step maps the zero state, and no other, to zero. *)
Lemma RingRNG_step_zero r :
  RingRNG.s (RingRNG.step r) = 0%Z <-> JS.to_uint32 (RingRNG.s r) = 0%Z.
Proof.
  unfold RingRNG.step. cbn [RingRNG.s]. split.
  - intros H. apply low_bits_zero. pose proof (proj2 (low_bits_zero _) H) as Hb.
    apply (xor_shl_zero _ 13 ltac:(lia)).
    apply (xor_shru_zero _ 17 ltac:(lia)).
    apply (xor_shl_zero _ 5 ltac:(lia)). exact Hb.
  - intros H. rewrite <- low_bits_zero in H. apply low_bits_zero.
    assert (H1 : forall i, (0 <= i < 32)%Z ->
               Z.testbit (JS.xor (RingRNG.s r) (JS.shl (RingRNG.s r) 13)) i = false).
    { intros i Hi. rewrite testbit_xor_shl by lia.
      rewrite (H i Hi). destruct (Z.ltb_spec i 13); [reflexivity|].
      rewrite H by lia. reflexivity. }
    set (x1 := JS.xor (RingRNG.s r) (JS.shl (RingRNG.s r) 13)) in *.
    assert (H2 : forall i, (0 <= i < 32)%Z ->
               Z.testbit (JS.xor x1 (JS.shru x1 17)) i = false).
    { intros i Hi. rewrite testbit_xor_shru by lia.
      rewrite (H1 i Hi). destruct (Z.ltb_spec (i + 17) 32); [|reflexivity].
      rewrite H1 by lia. reflexivity. }
    set (x2 := JS.xor x1 (JS.shru x1 17)) in *.
    intros i Hi. rewrite testbit_xor_shl by lia.
    rewrite (H2 i Hi). destruct (Z.ltb_spec i 5); [reflexivity|].
    rewrite H2 by lia. reflexivity.
Qed.

Lemma RingRNG_step_alive r :
  (0 < RingRNG.s r < JS.two32)%Z ->
  (0 < RingRNG.s (RingRNG.step r) < JS.two32)%Z.
Proof.
  intros Hr. pose proof (RingRNG_step_range r) as Hs.
  assert (RingRNG.s (RingRNG.step r) <> 0%Z); [|lia].
  intros Hz. apply RingRNG_step_zero in Hz.
  unfold JS.to_uint32 in Hz. rewrite Z.mod_small in Hz by lia. lia.
Qed.

(** X11: [next()] returns k / 2^31 for an integer 0 <= k < 2^31, so a number
    in [0, 1); [norm()] is 2 * next() - 1, in [-1, 1), and draws one
    number; the state stays an unsigned 32-bit integer. *)
Theorem generator_numbers_in_range r :
  (0 <= snd (RingRNG.next r) /\ snd (RingRNG.next r) < 1)
  /\ (-1 <= snd (RingRNG.norm r) /\ snd (RingRNG.norm r) < 1)
  /\ snd (RingRNG.norm r) == 2 * snd (RingRNG.next r) - 1
  /\ fst (RingRNG.norm r) = fst (RingRNG.next r)
  /\ (0 <= RingRNG.s (fst (RingRNG.next r)) < JS.two32)%Z
  /\ exists k : Z,
       (0 <= k < JS.two31)%Z
       /\ snd (RingRNG.next r) = inject_Z k / inject_Z JS.two31.
Proof.
  split; [apply RingRNG_next_range|]. split; [apply RingRNG_norm_range|].
  split; [|split; [|split]].
  - unfold RingRNG.norm. destruct (RingRNG.next r) as [r1 u]. cbn [snd]. ring.
  - unfold RingRNG.norm. destruct (RingRNG.next r) as [r1 u]. reflexivity.
  - apply RingRNG_step_range.
  - exists (JS.and (RingRNG.s (RingRNG.step r)) 2147483647).
    split; [apply and_low31_range | reflexivity].
Qed.

(** X12: the state after [next()] is 0 exactly when the state before is 0
    modulo 2^32: a generator in state 0 stays there, returning 0 from
    [next()] and -1 from [norm()], and no other state leads to it. *)
Theorem generator_sticks_only_at_zero r :
  (RingRNG.s (fst (RingRNG.next r)) = 0%Z <-> JS.to_uint32 (RingRNG.s r) = 0%Z)
  /\ (JS.to_uint32 (RingRNG.s r) = 0%Z ->
      fst (RingRNG.next r) = RingRNG.mk 0
      /\ snd (RingRNG.next r) == 0 /\ snd (RingRNG.norm r) == -1).
Proof.
  split; [apply RingRNG_step_zero|].
  intros Hz. apply RingRNG_step_zero in Hz.
  assert (Hs : RingRNG.step r = RingRNG.mk 0).
  { destruct (RingRNG.step r) as [s]. cbn in Hz. rewrite Hz. reflexivity. }
  unfold RingRNG.norm, RingRNG.next. rewrite Hs. cbn [fst snd RingRNG.s].
  split; [reflexivity|]. split; reflexivity.
Qed.

(** ** The processor's generator stays alive *)

Lemma scheduleGrainForVoice_rng p r v g o j :
  (0 < RingRNG.s r < JS.two32)%Z ->
  (0 < RingRNG.s (fst (scheduleGrainForVoice p r v g o j)) < JS.two32)%Z.
Proof.
  intros Hr. unfold scheduleGrainForVoice.
  destruct (frames p <=? 0)%Z; [exact Hr|].
  pose proof (RingRNG_step_alive r Hr) as H1.
  pose proof (RingRNG_step_alive (RingRNG.step r) H1) as H2.
  unfold RingRNG.norm, RingRNG.next. cbn [fst]. exact H2.
Qed.

Lemma schedule_loop_rng p g o j : forall fuel r v r' v',
  schedule_loop fuel p r v g o j = Some (r', v') ->
  (0 < RingRNG.s r < JS.two32)%Z -> (0 < RingRNG.s r' < JS.two32)%Z.
Proof.
  induction fuel as [|fuel IH]; intros r v r' v' H Hr; cbn [schedule_loop] in H;
    destruct (Qle_bool _ _); try discriminate;
    try (injection H as <- _; exact Hr).
  pose proof (scheduleGrainForVoice_rng p r v g o j Hr) as H1.
  destruct (scheduleGrainForVoice p r v g o j) as [r1 v1]. cbn [fst] in H1.
  eapply IH; eassumption.
Qed.

Lemma schedule_voices_rng fuel p g o j : forall vs r r' vs',
  schedule_voices fuel p r vs g o j = Some (r', vs') ->
  (0 < RingRNG.s r < JS.two32)%Z -> (0 < RingRNG.s r' < JS.two32)%Z.
Proof.
  induction vs as [|v vs IH]; intros r r' vs' H Hr; cbn in H.
  - injection H as <- _. exact Hr.
  - destruct (schedule_voice fuel p r v g o j) as [[r1 v1]|] eqn:E1;
      [|discriminate]. cbn in H.
    destruct (schedule_voices fuel p r1 vs g o j) as [[r2 vs2]|] eqn:E2;
      [|discriminate]. cbn in H.
    injection H as <- _. eapply IH; [exact E2|].
    unfold schedule_voice in E1.
    destruct (Qle_bool _ _); [|injection E1 as <- _; exact Hr].
    eapply schedule_loop_rng; eassumption.
Qed.

Section Generator.

Context `{host : MathHost}.

Lemma process_rng fuel sr q params p r :
  process fuel sr q params p = Some r ->
  (0 < RingRNG.s (rng p) < JS.two32)%Z ->
  (0 < RingRNG.s (rng (after r)) < JS.two32)%Z.
Proof.
  unfold process. intros H Hr.
  destruct (_ || _); [injection H as <-; exact Hr|].
  destruct (schedule_voices _ _ _ _ _ _ _) as [[r1 vs]|] eqn:E; [|discriminate].
  cbn in H. apply schedule_voices_rng in E; [|exact Hr].
  pose proof (render_block_fields sr q (set_voices vs (set_rng r1 p)))
    as (_ & _ & _ & _ & Hg & _).
  destruct (render_block _ _ _) as [p2 [ls rs]]. cbn [fst] in *.
  injection H as <-. cbn [after rng set_voices]. rewrite Hg. exact E.
Qed.

Lemma handleMessage_rng m p : rng (handleMessage m p) = rng p.
Proof.
  destruct m as [s [[|L more]|] | [id|] rate gain | [id|] | [t|] [b|] |]; cbn;
    try reflexivity; destruct (_ <=? _)%nat; reflexivity.
Qed.

(** X13: the generator of the processor, seeded with 123456, never reaches
    the state 0, whatever messages and render blocks came before. *)
Theorem processor_generator_stays_alive fuel sr evs outs p :
  run fuel sr evs constructor = Some (outs, p) ->
  (0 < RingRNG.s (rng p) < JS.two32)%Z.
Proof.
  intros H.
  apply (run_preserves (fun p => (0 < RingRNG.s (rng p) < JS.two32)%Z) fuel sr)
    with (evs := evs) (p := constructor) (outs := outs); [| |exact H|].
  - intros m q Hq. rewrite handleMessage_rng. exact Hq.
  - intros q params p1 r E Hq. eapply process_rng; eassumption.
  - vm_compute. split; reflexivity.
Qed.

End Generator.

(** ** Reading and shaping *)

(** X14: for 0 <= pos < buf.length, [readInterp] reads two defined samples
    (the second index wraps to 0 at the end of the buffer), returns a
    number between the two, and returns the first one when pos is an
    integer. *)
Theorem readInterp_interpolates buf pos :
  0 <= pos -> pos < inject_Z (Z.of_nat (length buf)) ->
  exists a b v : Q,
    buf_get buf (fst (readInterp_indices buf pos)) = Some a
    /\ buf_get buf (snd (readInterp_indices buf pos)) = Some b
    /\ readInterp buf pos = Val v
    /\ Qmin a b <= v /\ v <= Qmax a b
    /\ (pos == inject_Z (JS.Math_floor pos) -> v == a).
Proof.
  intros H0 Hlt.
  assert (Hi0 : (0 <= Qfloor pos)%Z).
  { rewrite <- (Qfloor_Z 0). apply Qfloor_resp_le. exact H0. }
  assert (Hi1 : (Qfloor pos < Z.of_nat (length buf))%Z).
  { apply Z.lt_nge. intros Hge. rewrite Zle_Qle in Hge.
    pose proof (Qfloor_le pos). lra. }
  pose proof (Qfloor_le pos) as Hfl. pose proof (Qlt_floor pos) as Hfu.
  rewrite inject_Z_plus in Hfu. change (inject_Z 1) with 1 in Hfu.
  unfold readInterp_indices, readInterp, JS.Math_floor. cbn [fst snd].
  set (i := Qfloor pos) in *.
  set (i1 := if (Z.of_nat (length buf) <=? i + 1)%Z then 0%Z else (i + 1)%Z).
  assert (Hi1' : (0 <= i1 < Z.of_nat (length buf))%Z)
    by (unfold i1; destruct (Z.leb_spec (Z.of_nat (length buf)) (i + 1)); lia).
  assert (Ha : exists a, buf_get buf i = Some a).
  { unfold buf_get. destruct (Z.ltb_spec i 0); [lia|].
    apply lookup_lt_is_Some. lia. }
  assert (Hb : exists b, buf_get buf i1 = Some b).
  { unfold buf_get. destruct (Z.ltb_spec i1 0); [lia|].
    apply lookup_lt_is_Some. lia. }
  destruct Ha as [a Ha], Hb as [b Hb].
  exists a, b, (a * (1 - (pos - inject_Z i)) + b * (pos - inject_Z i)).
  rewrite Ha, Hb. split; [reflexivity|]. split; [reflexivity|].
  split; [reflexivity|].
  set (f := pos - inject_Z i) in *.
  assert (Hf : 0 <= f /\ f < 1) by (unfold f; lra).
  split; [|split].
  - destruct (Q.min_spec a b) as [[Hab ->]|[Hab ->]]; nra.
  - destruct (Q.max_spec a b) as [[Hab ->]|[Hab ->]]; nra.
  - intros Hint. assert (f == 0) by (unfold f; lra). nra.
Qed.

Section Shaper.

Context `{host : MathHost}.

(** X15: on a constant input x with both filter states at x, [applyEQ]
    leaves the states at x and returns x * (0.5 - 0.5 * brightness): the
    high-passed part vanishes, whatever the tilt and the sample rate. *)
Theorem shaper_steady_state sr p x :
  exists y l h : Q,
    applyEQ p (Val x) (mkEq (Val x) (Val x)) sr = (Val y, mkEq (Val l) (Val h))
    /\ y == x * (0.5 - 0.5 * brightness p) /\ l == x /\ h == x.
Proof.
  unfold applyEQ. cbn [lp hp sadd ssub smul lift2].
  eexists _, _, _. split; [reflexivity|].
  split; [|split]; ring.
Qed.

End Shaper.

Lemma processor_generator_stays_alive_witness :
  exists outs p,
    run (host := polyHost) 2 48000 session constructor = Some (outs, p)
    /\ (0 < RingRNG.s (rng p) < JS.two32)%Z.
Proof.
  assert (H : is_Some (run (host := polyHost) 2 48000 session constructor))
    by (apply (bool_decide_unpack _); lazy; reflexivity).
  destruct H as [[outs p] E]. exists outs, p. split; [exact E|].
  exact (processor_generator_stays_alive (host := polyHost) 2 48000 session outs p E).
Defined.

Lemma readInterp_interpolates_witness :
  0 <= 1.5 /\ 1.5 < inject_Z (Z.of_nat (length [0; 1; 3]))
  /\ exists a b v : Q,
       buf_get [0; 1; 3] (fst (readInterp_indices [0; 1; 3] 1.5)) = Some a
       /\ buf_get [0; 1; 3] (snd (readInterp_indices [0; 1; 3] 1.5)) = Some b
       /\ readInterp [0; 1; 3] 1.5 = Val v
       /\ Qmin a b <= v /\ v <= Qmax a b
       /\ (1.5 == inject_Z (JS.Math_floor 1.5) -> v == a).
Proof.
  assert (H0 : 0 <= 1.5) by discriminate.
  assert (H1 : 1.5 < inject_Z (Z.of_nat (length [0; 1; 3]))) by reflexivity.
  split; [exact H0|]. split; [exact H1|].
  exact (readInterp_interpolates [0; 1; 3] 1.5 H0 H1).
Defined.

(** ** The processor and the command stream *)

Lemma voices_release_on (S : gset Z) id vs :
  NoDup (map Voice.id vs) ->
  Forall (fun v => Voice.on v = true -> Voice.id v ∈ S) vs ->
  Forall (fun v => Voice.on v = true -> Voice.id v ∈ S ∖ {[id]})
         (voices_release id vs).
Proof.
  induction vs as [|w ws IH]; intros Hnd Hvs; cbn [voices_release];
    [constructor|].
  cbn [map] in Hnd. apply NoDup_cons in Hnd as [Hw Hnd].
  inversion Hvs as [|? ? Hw' Hws]; subst.
  destruct (Z.eqb_spec (Voice.id w) id) as [Heq|Hne].
  - constructor; [discriminate|].
    apply Forall_forall. intros v Hv Hon.
    rewrite Forall_forall in Hws.
    assert (Voice.id v <> id).
    { intros Hv'. apply Hw. rewrite Heq, <- Hv'.
      apply list_elem_of_fmap. exists v. split; [reflexivity | exact Hv]. }
    specialize (Hws v Hv Hon). set_solver.
  - constructor; [|apply IH; assumption].
    intros Hon. specialize (Hw' Hon). set_solver.
Qed.

Lemma handleMessage_on (S : gset Z) m p :
  NoDup (map Voice.id (voices p)) ->
  Forall (fun v => Voice.on v = true -> Voice.id v ∈ S) (voices p) ->
  Forall (fun v => Voice.on v = true -> Voice.id v ∈ sounding_step S m)
         (voices (handleMessage m p)).
Proof.
  intros Hnd Hvs.
  assert (Hmono : forall S' : gset Z, S ⊆ S' ->
            Forall (fun v => Voice.on v = true -> Voice.id v ∈ S') (voices p)).
  { intros S' Hsub. eapply Forall_impl; [exact Hvs|].
    intros v Hv Hon. apply Hsub, Hv, Hon. }
  destruct m as [s ch | id rate gain | id | tilt bright |].
  - cbn [sounding_step]. destruct ch as [[|L more]|]; exact Hvs.
  - cbn [handleMessage]. destruct (_ <=? _)%nat.
    + destruct id; cbn [sounding_step]; [apply Hmono; set_solver | exact Hvs].
    + destruct id as [id|]; cbn [sounding_step]; [|exact Hvs].
      cbn [voices set_voices]. apply voices_set_Forall.
      * intros _. cbn. set_solver.
      * apply Hmono. set_solver.
  - destruct id as [id|]; cbn [handleMessage sounding_step]; [|exact Hvs].
    cbn [voices set_voices]. apply voices_release_on; assumption.
  - cbn [handleMessage sounding_step]. destruct tilt, bright; exact Hvs.
  - exact Hvs.
Qed.

Section Streams.

Context `{host : MathHost}.

Lemma run_on fuel sr : forall evs p (S : gset Z) outs p',
  NoDup (map Voice.id (voices p)) ->
  Forall (fun v => Voice.on v = true -> Voice.id v ∈ S) (voices p) ->
  run fuel sr evs p = Some (outs, p') ->
  Forall (fun v => Voice.on v = true
                   -> Voice.id v ∈ foldl sounding_step S (messages_of evs))
         (voices p').
Proof.
  induction evs as [|[m|q params] evs IH]; intros p S outs p' Hnd Hvs H;
    cbn [run] in H.
  - injection H as _ <-. exact Hvs.
  - cbn [messages_of omap foldl].
    eapply IH; [|apply handleMessage_on; eassumption | exact H].
    apply handleMessage_NoDup. exact Hnd.
  - destruct (process fuel sr q params p) as [r|] eqn:E; [|discriminate].
    cbn in H.
    destruct (run fuel sr evs (after r)) as [[outs1 p1]|] eqn:E1; [|discriminate].
    cbn in H. injection H as _ <-.
    change (messages_of (OnBlock q params :: evs)) with (messages_of evs).
    eapply IH; [| |exact E1].
    + eapply sublist_NoDup; [exact Hnd | eapply process_ids; exact E].
    + apply (process_keeps
               (fun v => Voice.on v = true -> Voice.id v ∈ S)
               fuel sr q params p r); try exact E; try exact Hvs.
      * intros r0 v Hv.
        pose proof (scheduleGrainForVoice_id p r0 v (grainSize params)
                      (clamp (overlap params) 0 0.95)
                      (clamp (jitter params) 0 0.02)) as (-> & -> & _).
        exact Hv.
      * intros x v Hv. exact Hv.
      * intros x v Hv. exact Hv.
      * intros v Hv. exact Hv.
Qed.

(** X16: every voice of the processor whose [on] flag is set has an id that
    the messages received so far started with NoteOn and did not release
    with NoteOff since. *)
Theorem only_sounding_voices_are_on fuel sr evs outs p :
  run fuel sr evs constructor = Some (outs, p) ->
  Forall (fun v => Voice.on v = true -> Voice.id v ∈ sounding (messages_of evs))
         (voices p).
Proof.
  intros H. unfold sounding.
  eapply (run_on fuel sr evs constructor ∅); [constructor | constructor | exact H].
Qed.

End Streams.

Lemma only_sounding_voices_are_on_witness :
  exists outs p,
    run (host := polyHost) 2 48000 session constructor = Some (outs, p)
    /\ Forall (fun v => Voice.on v = true
                        -> Voice.id v ∈ sounding (messages_of session))
              (voices p).
Proof.
  assert (H : is_Some (run (host := polyHost) 2 48000 session constructor))
    by (apply (bool_decide_unpack _); lazy; reflexivity).
  destruct H as [[outs p] E]. exists outs, p. split; [exact E|].
  exact (only_sounding_voices_are_on (host := polyHost) 2 48000 session outs p E).
Defined.

(** ** The prepared segment *)

Lemma foldl_alter_hit (f : nat -> Q -> Q) (idx : nat -> nat) (k i : nat) :
  forall (ixs : list nat) (data : list Q),
    NoDup (map idx ixs) -> i ∈ ixs -> idx i = k ->
    foldl (fun d i => alter (f i) (idx i) d) data ixs !! k = f i <$> data !! k.
Proof.
  induction ixs as [|i0 ixs IH]; intros data Hnd Hi Hk; [inversion Hi|].
  cbn [map] in Hnd. apply NoDup_cons in Hnd as [Hi0 Hnd]. cbn [foldl].
  apply elem_of_cons in Hi as [->|Hi].
  - rewrite foldl_alter_untouched.
    + rewrite Hk. apply list_lookup_alter_eq.
    + apply Forall_forall. intros j Hj Hc. apply Hi0.
      rewrite Hk, <- Hc. apply list_elem_of_fmap. exists j. split; [reflexivity | exact Hj].
  - rewrite IH by assumption. f_equal.
    apply list_lookup_alter_ne. intros Hc. apply Hi0.
    rewrite Hc, <- Hk. apply list_elem_of_fmap. exists i. split; [reflexivity | exact Hi].
Qed.

Lemma fade_in_lookup fadeN (data : list Q) (k : nat) :
  fade_in fadeN data !! k
  = if (Z.of_nat k <? fadeN)%Z
    then (fun x => x * (inject_Z (Z.of_nat k) / inject_Z fadeN)) <$> data !! k
    else data !! k.
Proof.
  unfold fade_in. destruct (Z.ltb_spec (Z.of_nat k) fadeN) as [Hlt|Hge].
  - apply (foldl_alter_hit
             (fun i x => x * (inject_Z (Z.of_nat i) / inject_Z fadeN)) (fun i => i)).
    + rewrite map_id. apply NoDup_seq.
    + apply elem_of_seq. lia.
    + reflexivity.
  - apply (foldl_alter_untouched
             (fun i x => x * (inject_Z (Z.of_nat i) / inject_Z fadeN)) (fun i => i)).
    apply Forall_forall. intros i Hi. apply elem_of_seq in Hi. lia.
Qed.

Lemma fade_out_lookup n fadeN (data : list Q) (k : nat) :
  (fadeN <= n)%Z -> (Z.of_nat k < n)%Z ->
  fade_out n fadeN data !! k
  = if (n - fadeN <=? Z.of_nat k)%Z
    then (fun x => x * (1 - inject_Z (n - 1 - Z.of_nat k) / inject_Z fadeN))
           <$> data !! k
    else data !! k.
Proof.
  intros Hf Hk. unfold fade_out.
  destruct (Z.leb_spec (n - fadeN) (Z.of_nat k)) as [Hin|Hout].
  - rewrite (foldl_alter_hit
               (fun i x => x * (1 - inject_Z (Z.of_nat i) / inject_Z fadeN))
               (fun i => Z.to_nat (n - 1 - Z.of_nat i)) k
               (Z.to_nat (n - 1 - Z.of_nat k))).
    + rewrite Z2Nat.id by lia. reflexivity.
    + apply (NoDup_fmap_2_strong (fun i => Z.to_nat (n - 1 - Z.of_nat i))).
      * intros i j Hi Hj Heq. apply elem_of_seq in Hi, Hj. lia.
      * apply NoDup_seq.
    + apply elem_of_seq. lia.
    + lia.
  - apply (foldl_alter_untouched
             (fun i x => x * (1 - inject_Z (Z.of_nat i) / inject_Z fadeN))
             (fun i => Z.to_nat (n - 1 - Z.of_nat i))).
    apply Forall_forall. intros i Hi. apply elem_of_seq in Hi. lia.
Qed.

Lemma fadeN_of_nonneg n fadeSec sr :
  (0 <= n < JS.two31)%Z -> (0 <= fadeN_of n fadeSec sr)%Z.
Proof.
  intros Hn. unfold fadeN_of. rewrite shr_half by exact Hn.
  pose proof (Z.div_pos n 2 ltac:(lia) ltac:(lia)). lia.
Qed.

(** The gain that the two loops of [applyEdgeFades] leave on every sample. *)
Lemma edge_fades_lookup (data : list Q) (fadeSec sr : Q) (k : nat) :
  let n := Z.of_nat (length data) in
  let fadeN := fadeN_of n fadeSec sr in
  (n < JS.two31)%Z -> (Z.of_nat k < n)%Z ->
  fade_out n fadeN (fade_in fadeN data) !! k
  = if (Z.of_nat k <? fadeN)%Z
    then (fun x => x * (inject_Z (Z.of_nat k) / inject_Z fadeN)) <$> data !! k
    else if (n - fadeN <=? Z.of_nat k)%Z
    then (fun x => x * (1 - inject_Z (n - 1 - Z.of_nat k) / inject_Z fadeN))
           <$> data !! k
    else data !! k.
Proof.
  intros n fadeN Hn Hk.
  pose proof (fadeN_of_half n fadeSec sr ltac:(lia)) as Hhalf. fold fadeN in Hhalf.
  pose proof (fadeN_of_nonneg n fadeSec sr ltac:(lia)) as Hpos. fold fadeN in Hpos.
  pose proof (half_twice n) as Htw.
  rewrite fade_out_lookup by lia. rewrite fade_in_lookup.
  destruct (Z.ltb_spec (Z.of_nat k) fadeN) as [Hlt|Hge];
    destruct (Z.leb_spec (n - fadeN) (Z.of_nat k)) as [Hin|Hout];
    try reflexivity; lia.
Qed.

(** X17: [applyEdgeFades] on a channel of n < 2^31 samples, with
    fadeN = min(n >> 1, max(1, floor(fadeSec * sr))) <= n / 2: sample k is
    multiplied by k / fadeN for k < fadeN, by 1 - (n - 1 - k) / fadeN for
    k >= n - fadeN, and is untouched in between. *)
Theorem edge_fade_gains (data : list Q) (fadeSec sr x : Q) (k : nat) :
  let n := Z.of_nat (length data) in
  let fadeN := fadeN_of n fadeSec sr in
  let out := fade_out n fadeN (fade_in fadeN data) in
  (n < JS.two31)%Z ->
  data !! k = Some x ->
  (0 <= fadeN <= n / 2)%Z
  /\ ((Z.of_nat k < fadeN)%Z ->
      out !! k = Some (x * (inject_Z (Z.of_nat k) / inject_Z fadeN)))
  /\ ((fadeN <= Z.of_nat k < n - fadeN)%Z -> out !! k = Some x)
  /\ ((n - fadeN <= Z.of_nat k)%Z ->
      out !! k = Some (x * (1 - inject_Z (n - 1 - Z.of_nat k) / inject_Z fadeN))).
Proof.
  intros n fadeN out Hn Hx.
  assert (Hk : (Z.of_nat k < n)%Z).
  { apply lookup_lt_Some in Hx. unfold n. lia. }
  pose proof (fadeN_of_half n fadeSec sr ltac:(lia)) as Hhalf. fold fadeN in Hhalf.
  pose proof (fadeN_of_nonneg n fadeSec sr ltac:(lia)) as Hpos. fold fadeN in Hpos.
  pose proof (half_twice n) as Htw.
  pose proof (edge_fades_lookup data fadeSec sr k Hn Hk) as H.
  fold n fadeN out in H. rewrite Hx in H.
  split; [lia|]. split; [|split]; intros Hcase; rewrite H.
  - destruct (Z.ltb_spec (Z.of_nat k) fadeN); [reflexivity | lia].
  - destruct (Z.ltb_spec (Z.of_nat k) fadeN); [lia|].
    destruct (Z.leb_spec (n - fadeN) (Z.of_nat k)); [lia | reflexivity].
  - destruct (Z.ltb_spec (Z.of_nat k) fadeN); [lia|].
    destruct (Z.leb_spec (n - fadeN) (Z.of_nat k)); [reflexivity | lia].
Qed.

Lemma edge_fade_gains_witness :
  let data := replicate 8 (1 : Q) in
  let out := fade_out 8 3 (fade_in 3 data) in
  fadeN_of 8 0.01 300 = 3%Z
  /\ out !! 1%nat = Some (1 * (inject_Z 1 / inject_Z 3))
  /\ out !! 4%nat = Some 1
  /\ out !! 5%nat = Some (1 * (1 - inject_Z 2 / inject_Z 3))
  /\ out !! 7%nat = Some (1 * (1 - inject_Z 0 / inject_Z 3)).
Proof.
  cbv zeta.
  assert (Hn : (Z.of_nat (length (replicate 8 (1 : Q))) < JS.two31)%Z)
    by reflexivity.
  split; [reflexivity|].
  pose proof (edge_fade_gains (replicate 8 1) 0.01 300 1 1 Hn eq_refl)
    as (_ & H1 & _).
  pose proof (edge_fade_gains (replicate 8 1) 0.01 300 1 4 Hn eq_refl)
    as (_ & _ & H4 & _).
  pose proof (edge_fade_gains (replicate 8 1) 0.01 300 1 5 Hn eq_refl)
    as (_ & _ & _ & H5).
  pose proof (edge_fade_gains (replicate 8 1) 0.01 300 1 7 Hn eq_refl)
    as (_ & _ & _ & H7).
  split; [exact (H1 eq_refl)|].
  split; [apply H4; vm_compute; split; [discriminate | reflexivity]|].
  split; [apply H5; discriminate | apply H7; discriminate].
Defined.

Lemma copyToChannel_length src dst : length (copyToChannel src dst) = length dst.
Proof.
  unfold copyToChannel. rewrite length_app, length_take, length_drop. lia.
Qed.

Lemma applyEdgeFades_shape b fadeSec :
  ab_length (applyEdgeFades b fadeSec) = ab_length b
  /\ ab_sampleRate (applyEdgeFades b fadeSec) = ab_sampleRate b
  /\ map (@length Q) (ab_channels (applyEdgeFades b fadeSec))
     = map (@length Q) (ab_channels b).
Proof.
  unfold applyEdgeFades. cbn. split; [reflexivity|]. split; [reflexivity|].
  rewrite map_map. apply map_ext. intros c.
  rewrite fade_out_length, fade_in_length. reflexivity.
Qed.

Lemma prepare_segment_fields ab start end_ :
  let sr := ab_sampleRate ab in
  let startFrame := Z.max 0 (JS.Math_floor (start * sr)) in
  let endFrame := Z.min (ab_length ab) (JS.Math_floor (end_ * sr)) in
  let seg := prepare_segment ab start end_ in
  ab_length seg = Z.max 1 (endFrame - startFrame)
  /\ (1 <= ab_length seg)%Z
  /\ ab_sampleRate seg = sr
  /\ length (ab_channels seg) = length (ab_channels ab)
  /\ Forall (fun c => Z.of_nat (length c) = ab_length seg) (ab_channels seg).
Proof.
  intros sr startFrame endFrame seg. unfold seg, prepare_segment.
  fold sr. fold startFrame. fold endFrame.
  set (len := Z.max 1 (endFrame - startFrame)).
  set (seg0 := mkAudioBuffer sr len _).
  destruct (applyEdgeFades_shape seg0 (JS.Math_min 0.01 (duration seg0 * 0.05)))
    as (Hl & Hs & Hc).
  rewrite Hl, Hs. cbn [ab_length ab_sampleRate seg0].
  split; [reflexivity|]. split; [lia|]. split; [reflexivity|].
  split.
  - apply (f_equal (@length _)) in Hc. rewrite !length_map in Hc.
    rewrite Hc. cbn [ab_channels seg0]. apply length_map.
  - apply Forall_forall. intros c Hc'.
    assert (Hin : length c ∈ map (@length Q)
                    (ab_channels (applyEdgeFades seg0
                                    (JS.Math_min 0.01 (duration seg0 * 0.05)))))
      by (apply list_elem_of_fmap; exists c; split; [reflexivity | exact Hc']).
    rewrite Hc in Hin. cbn [ab_channels seg0] in Hin.
    apply list_elem_of_fmap in Hin as (c0 & Hlen & Hc0).
    apply list_elem_of_fmap in Hc0 as (d & -> & _).
    rewrite Hlen, copyToChannel_length, length_replicate. lia.
Qed.

(** X18: the segment that [createGranularInstrument] slices has
    max(1, endFrame - startFrame) frames: one frame for an empty or
    reversed selection, else the frames of the region, never more than
    the recording has; it has the sample rate and the number of channels
    of the recording, and every channel has that many samples. *)
Theorem prepare_segment_shape ab start end_ :
  let sr := ab_sampleRate ab in
  let startFrame := Z.max 0 (JS.Math_floor (start * sr)) in
  let endFrame := Z.min (ab_length ab) (JS.Math_floor (end_ * sr)) in
  let seg := prepare_segment ab start end_ in
  ab_length seg = Z.max 1 (endFrame - startFrame)
  /\ (1 <= ab_length seg)%Z
  /\ (endFrame <= startFrame -> ab_length seg = 1)%Z
  /\ (startFrame < endFrame ->
      ab_length seg = endFrame - startFrame /\ ab_length seg <= ab_length ab)%Z
  /\ ab_sampleRate seg = sr
  /\ length (ab_channels seg) = length (ab_channels ab)
  /\ Forall (fun c => Z.of_nat (length c) = ab_length seg) (ab_channels seg).
Proof.
  intros sr startFrame endFrame seg.
  destruct (prepare_segment_fields ab start end_) as (Hn & H1 & Hsr & Hcs & Hall).
  fold sr startFrame endFrame seg in Hn, H1, Hsr, Hcs, Hall.
  split; [exact Hn|]. split; [exact H1|].
  split; [intros Hempty; rewrite Hn; lia|].
  split; [intros Hreg; rewrite Hn; unfold startFrame, endFrame in *; lia|].
  split; [exact Hsr|]. split; [exact Hcs | exact Hall].
Qed.

Lemma subarray_inside (c : list Q) (b e : Z) :
  (0 <= b <= e)%Z -> (e <= Z.of_nat (length c))%Z ->
  subarray c b e = take (Z.to_nat (e - b)) (drop (Z.to_nat b) c).
Proof.
  intros Hb He. unfold subarray, rel_index.
  destruct (Z.ltb_spec b 0); [lia|]. destruct (Z.ltb_spec e 0); [lia|].
  rewrite !Z.min_l by lia. reflexivity.
Qed.

Lemma copied_region_lookup (c : list Q) (b e : Z) (k : nat) :
  (0 <= b < e)%Z -> (e <= Z.of_nat (length c))%Z ->
  (Z.of_nat k < e - b)%Z ->
  copyToChannel (subarray c b e) (replicate (Z.to_nat (Z.max 1 (e - b))) 0) !! k
  = c !! (Z.to_nat b + k)%nat.
Proof.
  intros Hb He Hk. rewrite subarray_inside by lia.
  unfold copyToChannel. rewrite length_replicate.
  rewrite lookup_app_l.
  - rewrite !lookup_take_lt by lia. apply lookup_drop.
  - rewrite !length_take, length_drop. lia.
Qed.

Lemma prepare_segment_channels ab start end_ :
  let sr := ab_sampleRate ab in
  let startFrame := Z.max 0 (JS.Math_floor (start * sr)) in
  let endFrame := Z.min (ab_length ab) (JS.Math_floor (end_ * sr)) in
  let len := Z.max 1 (endFrame - startFrame) in
  let fadeN := fadeN_of len (JS.Math_min 0.01 (inject_Z len / sr * 0.05)) sr in
  ab_channels (prepare_segment ab start end_)
  = map (fun data =>
           fade_out len fadeN
             (fade_in fadeN
                (copyToChannel (subarray data startFrame endFrame)
                   (replicate (Z.to_nat len) 0))))
        (ab_channels ab).
Proof.
  cbv zeta. unfold prepare_segment, applyEdgeFades, duration.
  cbn [ab_channels ab_length ab_sampleRate]. rewrite map_map. reflexivity.
Qed.

(** X19: for a non-empty region of a recording shorter than 2^31 frames,
    sample k of a channel of the segment, between the two fades, is sample
    startFrame + k of that channel of the recording. *)
Theorem segment_copies_the_region ab start end_ (ch k : nat) (c : list Q) :
  let sr := ab_sampleRate ab in
  let startFrame := Z.max 0 (JS.Math_floor (start * sr)) in
  let endFrame := Z.min (ab_length ab) (JS.Math_floor (end_ * sr)) in
  let seg := prepare_segment ab start end_ in
  let n := ab_length seg in
  let fadeN := fadeN_of n (JS.Math_min 0.01 (duration seg * 0.05)) sr in
  ab_channels ab !! ch = Some c ->
  Z.of_nat (length c) = ab_length ab ->
  (ab_length ab < JS.two31)%Z ->
  (startFrame < endFrame)%Z ->
  (fadeN <= Z.of_nat k < n - fadeN)%Z ->
  exists c',
    ab_channels seg !! ch = Some c'
    /\ c' !! k = c !! (Z.to_nat startFrame + k)%nat.
Proof.
  intros sr startFrame endFrame seg n fadeN Hc Hlen Hsmall Hreg Hk.
  set (len := Z.max 1 (endFrame - startFrame)).
  assert (Hn : n = len) by reflexivity.
  assert (HfN : fadeN
                = fadeN_of len (JS.Math_min 0.01 (inject_Z len / sr * 0.05)) sr)
    by reflexivity.
  set (d := copyToChannel (subarray c startFrame endFrame)
              (replicate (Z.to_nat len) 0)).
  assert (Hdl : Z.of_nat (length d) = len).
  { unfold d. rewrite copyToChannel_length, length_replicate. lia. }
  exists (fade_out len fadeN (fade_in fadeN d)). split.
  - unfold seg. rewrite prepare_segment_channels.
    fold sr startFrame endFrame len. rewrite <- HfN.
    apply (list_lookup_fmap_Some_2
             (fun data =>
                fade_out len fadeN
                  (fade_in fadeN
                     (copyToChannel (subarray data startFrame endFrame)
                        (replicate (Z.to_nat len) 0))))). exact Hc.
  - pose proof (edge_fades_lookup d (JS.Math_min 0.01 (inject_Z len / sr * 0.05)) sr k)
      as H.
    cbv zeta in H. rewrite Hdl, <- HfN in H.
    rewrite Hn in Hk.
    assert (Hlen31 : (0 <= len < JS.two31)%Z)
      by (unfold len, startFrame, endFrame, JS.two31 in *; lia).
    assert (Hf0 : (0 <= fadeN)%Z)
      by (rewrite HfN; apply fadeN_of_nonneg; exact Hlen31).
    rewrite H by lia.
    destruct (Z.ltb_spec (Z.of_nat k) fadeN); [lia|].
    destruct (Z.leb_spec (len - fadeN) (Z.of_nat k)); [lia|].
    unfold d. apply copied_region_lookup; unfold startFrame, endFrame, len in *; lia.
Qed.

Lemma segment_copies_the_region_witness :
  exists c',
    ab_channels (prepare_segment recording 0 1) !! 0%nat = Some c'
    /\ c' !! 10%nat = replicate 90 (1 : Q) !! (Z.to_nat 0 + 10)%nat.
Proof.
  apply (segment_copies_the_region recording 0 1 0 10 (replicate 90 1)).
  - reflexivity.
  - reflexivity.
  - reflexivity.
  - reflexivity.
  - vm_compute. split; [discriminate | reflexivity].
Defined.

(** ** The instrument and its processor *)

Lemma clamp_zero a b : a < 0 -> 0 < b -> forall v, v == 0 -> clamp v a b == 0.
Proof.
  intros Ha Hb v Hv. unfold clamp, JS.Math_max, JS.Math_min.
  destruct (Qle_bool b v) eqn:E1; [apply Qle_bool_iff in E1; lra|].
  destruct (Qle_bool v a) eqn:E2; [apply Qle_bool_iff in E2; lra|].
  exact Hv.
Qed.

(** X20: what [createGranularInstrument] hands to the processor.  For a
    recording of one channel nothing: the worklet engine fails on the
    doubled transfer list and the fallback sampler is built.  For a
    recording of two or more channels with fewer than 2^31 frames two
    messages are posted, and a new processor that receives them holds the
    segment: its length is the segment's, its left and right buffers are
    the first and second channel of the segment, the segment's sample rate
    is the recording's, no voice exists, and tilt and brightness are 0. *)
Theorem instrument_loads_the_region ab start end_ base :
  let seg := prepare_segment ab start end_ in
  (ab_length ab < JS.two31)%Z ->
  (length (ab_channels ab) = 1%nat ->
   createGranularInstrument ab start end_ base = None)
  /\ ((2 <= length (ab_channels ab))%nat ->
      exists s L R,
        createGranularInstrument ab start end_ base = Some s
        /\ ab_channels seg !! 0%nat = Some L
        /\ ab_channels seg !! 1%nat = Some R
        /\ length (port s) = 2%nat
        /\ let p := foldl (fun p m => handleMessage m p) constructor (port s) in
           frames p = ab_length seg
           /\ bufferL p = L /\ bufferR p = R
           /\ voices p = []
           /\ in_segment p
           /\ (~ ab_sampleRate ab == 0 -> sampleRateSrc p = ab_sampleRate ab)
           /\ formantTilt p == 0 /\ brightness p == 0).
Proof.
  intros seg Hsmall.
  destruct (prepare_segment_fields ab start end_) as (Hn & H1 & Hsr & Hcs & Hall).
  cbv zeta in Hn, H1, Hsr, Hcs, Hall. fold seg in Hn, H1, Hsr, Hcs, Hall.
  set (n := ab_length seg) in *.
  assert (Hn31 : (1 <= n < JS.two31)%Z).
  { split; [exact H1|]. rewrite Hn. unfold JS.two31 in *. lia. }
  split.
  - intros Hone. unfold createGranularInstrument. cbv zeta. fold seg.
    destruct (ab_channels seg) as [|c [|c' t]] eqn:Eseg;
      rewrite Hone in Hcs; try discriminate.
    rewrite (tryCreateWorkletEngine_mono seg c Eseg). reflexivity.
  - intros Htwo. unfold createGranularInstrument. cbv zeta. fold seg.
    destruct (ab_channels seg) as [|L [|R more]] eqn:Eseg;
      cbn [length] in Hcs; try lia.
    rewrite (tryCreateWorkletEngine_stereo seg L R more Eseg).
    cbn [mbind option_bind].
    eexists _, L, R. split; [reflexivity|].
    split; [reflexivity|]. split; [reflexivity|]. split; [reflexivity|].
    assert (HL : Z.of_nat (length L) = n) by (inversion Hall; assumption).
    assert (HR : Z.of_nat (length R) = n).
    { inversion Hall as [|? ? _ Hmore]; subst. inversion Hmore; assumption. }
    assert (Hfr : JS.to_int32 (Z.min (Z.of_nat (length L)) (Z.of_nat (length R))) = n).
    { rewrite HL, HR, Z.min_id. apply to_int32_small. unfold JS.two31 in *. lia. }
    cbv zeta. cbn [setParams postMessage port app foldl handleMessage].
    rewrite Hfr.
    split; [reflexivity|]. split; [reflexivity|]. split; [reflexivity|].
    split; [reflexivity|]. split.
    { unfold in_segment.
      cbn [frames bufferL bufferR voices set_buffers set_formantTilt set_brightness
           constructor].
      split; [lia|]. split; [lia|]. split; [lia | constructor]. }
    split.
    { intros Hnz.
      cbn [sampleRateSrc set_buffers set_formantTilt set_brightness].
      rewrite Hsr. unfold or_default.
      destruct (Qeq_bool (ab_sampleRate ab) 0) eqn:E; [|reflexivity].
      apply Qeq_bool_iff in E. contradiction. }
    cbn. split; apply clamp_zero; reflexivity.
Qed.

Lemma instrument_loads_the_region_witness :
  (ab_length stereo_recording < JS.two31)%Z
  /\ createGranularInstrument recording 0 1 60 = None
  /\ exists s,
       createGranularInstrument stereo_recording 0 1 60 = Some s
       /\ let p := foldl (fun p m => handleMessage m p) constructor (port s) in
          frames p = 90%Z /\ voices p = [] /\ in_segment p
          /\ sampleRateSrc p = 8000.
Proof.
  assert (Hn : (ab_length stereo_recording < JS.two31)%Z) by reflexivity.
  destruct (instrument_loads_the_region stereo_recording 0 1 60 Hn) as (_ & H).
  destruct (H ltac:(cbn; lia)) as (s & L & R & Hs & _ & _ & _ & Hp).
  cbv zeta in Hp. destruct Hp as (Hf & _ & _ & Hv & Hin & Hsr & _).
  split; [exact Hn|]. split; [reflexivity|].
  exists s. split; [exact Hs|]. cbv zeta.
  split; [exact Hf|]. split; [exact Hv|]. split; [exact Hin|].
  apply Hsr. vm_compute. discriminate.
Defined.

(** ** Disposing of the instrument *)

Lemma dispose_active : forall keys s m,
  active (dispose keys s) !! m
  = if decide (m ∈ keys) then None else active s !! m.
Proof.
  induction keys as [|k ks IH]; intros s m.
  - cbn. destruct (decide (m ∈ [])) as [H|_]; [inversion H | reflexivity].
  - change (dispose (k :: ks) s) with (dispose ks (noteOff k s)).
    rewrite IH, noteOff_active.
    destruct (decide (m ∈ ks)) as [Hin|Hout].
    + rewrite decide_True by (right; exact Hin). reflexivity.
    + destruct (decide (m = k)) as [->|Hne].
      * rewrite decide_True by left. apply lookup_delete_eq.
      * rewrite decide_False by (intros Hc; apply elem_of_cons in Hc; tauto).
        apply lookup_delete_ne. congruence.
Qed.

Lemma dispose_consistent : forall keys s,
  consistent s -> consistent (dispose keys s).
Proof.
  induction keys as [|k ks IH]; intros s Hs; [exact Hs|].
  change (dispose (k :: ks) s) with (dispose ks (noteOff k s)).
  apply IH, noteOff_consistent, Hs.
Qed.

Lemma dispose_counter : forall keys s,
  idGen_i (dispose keys s) = idGen_i s.
Proof.
  induction keys as [|k ks IH]; intros s; [reflexivity|].
  change (dispose (k :: ks) s) with (dispose ks (noteOff k s)).
  rewrite IH. apply noteOff_fields.
Qed.

(** X21: [dispose] on an instrument whose id counter has not wrapped, with
    the keys of [active] in any order: afterwards no pitch is active and
    no voice sounds in the command stream, that is every NoteOn that was
    posted has been answered by its NoteOff; the id counter is unchanged. *)
Theorem dispose_releases_every_voice keys s :
  consistent s ->
  (forall m, is_Some (active s !! m) -> m ∈ keys) ->
  active (dispose keys s) = ∅
  /\ sounding (port (dispose keys s)) = ∅
  /\ idGen_i (dispose keys s) = idGen_i s.
Proof.
  intros Hs Hkeys.
  assert (Ha : active (dispose keys s) = ∅).
  { apply map_eq. intros m. rewrite dispose_active, lookup_empty.
    destruct (decide (m ∈ keys)) as [_|Hout]; [reflexivity|].
    destruct (active s !! m) eqn:E; [|reflexivity].
    exfalso. apply Hout, Hkeys. rewrite E. eauto. }
  split; [exact Ha|]. split; [|apply dispose_counter].
  pose proof (dispose_consistent keys s Hs) as Hc.
  apply leibniz_equiv, set_equiv. intros i. rewrite (active_sounding _ Hc i), Ha.
  split.
  - intros [m Hm]. rewrite lookup_empty in Hm. discriminate.
  - intros Hi. set_solver.
Qed.

(** ** The post-EQ *)

Section PostEq.

Context `{host : MathHost}.

(** X22: the gains that [updateEq] sets: the formant gain within
    [-5.4, 5.4] dB, the low shelf within [-4, 4], the high shelf within
    [-6, 6], and the two shelves always opposed, 3 * low + 2 * high = 0. *)
Theorem updateEq_gains_bounded formantShift brightness :
  let eq := updateEq formantShift brightness in
  (-5.4 <= formant_gain eq /\ formant_gain eq <= 5.4)
  /\ (-4 <= lowShelf_gain eq /\ lowShelf_gain eq <= 4)
  /\ (-6 <= highShelf_gain eq /\ highShelf_gain eq <= 6)
  /\ 3 * lowShelf_gain eq + 2 * highShelf_gain eq == 0
  /\ lowShelf_gain eq * highShelf_gain eq <= 0.
Proof.
  cbv zeta. unfold updateEq. cbn [formant_gain lowShelf_gain highShelf_gain].
  pose proof (clamp_range (or_default formantShift 0) (-3) 3 ltac:(lra)) as [S1 S2].
  pose proof (clamp_range (or_default brightness 0) (-1) 1 ltac:(lra)) as [B1 B2].
  set (st := clamp (or_default formantShift 0) (-3) 3) in *.
  set (b := clamp (or_default brightness 0) (-1) 1) in *.
  repeat split; try lra; try ring.
  nra.
Qed.

End PostEq.

Lemma dispose_releases_every_voice_witness :
  exists s0,
    createGranularInstrument stereo_recording 0 1 60 = Some s0
    /\ let s := calls (host := polyHost) two_notes s0 in
       (active s !! 60%Z = Some 2%Z /\ active s !! 64%Z = Some 3%Z)
       /\ active (dispose [64; 60]%Z s) = ∅
       /\ sounding (port (dispose [64; 60]%Z s)) = ∅.
Proof.
  eexists. split; [reflexivity|]. cbv zeta.
  match goal with
  | |- context [calls two_notes ?x] =>
      pose proof (createGranularInstrument_consistent stereo_recording 0 1 60 x
                    eq_refl) as (Hc & Hi & _);
      set (s := calls (host := polyHost) two_notes x)
  end.
  assert (Ha : active s = <[64%Z := 3%Z]> (<[60%Z := 2%Z]> ∅))
    by (vm_compute; reflexivity).
  assert (Hs : consistent s).
  { apply (calls_consistent (host := polyHost) two_notes _ Hc).
    rewrite Hi. reflexivity. }
  assert (Hk : forall m, is_Some (active s !! m) -> m ∈ [64; 60]%Z).
  { intros m. rewrite Ha. intros [i Hi'].
    apply lookup_insert_Some in Hi' as [[<- _]|[_ Hi']]; [left|].
    apply lookup_insert_Some in Hi' as [[<- _]|[_ Hi']]; [right; left|].
    rewrite lookup_empty in Hi'. discriminate. }
  destruct (dispose_releases_every_voice [64; 60]%Z s Hs Hk) as (H1 & H2 & _).
  split; [rewrite Ha; split; reflexivity|].
  split; [exact H1 | exact H2].
Defined.

(** * The pitch worker *)

Lemma shl_one_pow2 j : (0 <= j < 30)%Z -> JS.shl (2 ^ j) 1 = (2 ^ (j + 1))%Z.
Proof.
  intros Hj. unfold JS.shl. change (Z.land 1 31) with 1%Z.
  assert (H30 : (2 ^ (j + 1) <= 2 ^ 30)%Z) by (apply Z.pow_le_mono_r; lia).
  assert (Hp : (0 < 2 ^ j)%Z) by (apply Z.pow_pos_nonneg; lia).
  assert (Hs : (2 ^ (j + 1) = 2 * 2 ^ j)%Z)
    by (rewrite Z.pow_add_r by lia; change (2 ^ 1)%Z with 2%Z; lia).
  change (2 ^ 30)%Z with 1073741824%Z in H30.
  rewrite (to_int32_small (2 ^ j)) by (unfold JS.two31; lia).
  rewrite Z.shiftl_mul_pow2 by lia. change (2 ^ 1)%Z with 2%Z.
  rewrite to_int32_small by (unfold JS.two31; lia). lia.
Qed.

(** The loop of [nextPow2] from a power of two below [n]. *)
Lemma nextPow2_loop_spec n : (n <= 2 ^ 30)%Z ->
  forall fuel j,
    (0 <= j <= 30)%Z -> (30 - j <= Z.of_nat fuel)%Z ->
    (0 < j -> 2 ^ (j - 1) < n)%Z ->
    exists k, (j <= k <= 30)%Z
              /\ nextPow2_loop fuel (2 ^ j) n = Some (2 ^ k)%Z
              /\ (n <= 2 ^ k)%Z
              /\ (0 < k -> 2 ^ (k - 1) < n)%Z.
Proof.
  intros Hn. induction fuel as [|fuel IH]; intros j Hj Hfuel Hlow.
  - assert (j = 30%Z) by lia. subst j. cbn [nextPow2_loop].
    destruct (Z.ltb_spec (2 ^ 30) n) as [Hlt|Hge]; [lia|].
    exists 30%Z. split; [lia|]. split; [reflexivity|]. split; [exact Hn | exact Hlow].
  - cbn [nextPow2_loop].
    destruct (Z.ltb_spec (2 ^ j) n) as [Hlt|Hge].
    + assert (Hj30 : (j < 30)%Z).
      { destruct (Z_lt_le_dec j 30) as [H|H]; [exact H|].
        assert (j = 30%Z) by lia. subst j. lia. }
      rewrite shl_one_pow2 by lia.
      destruct (IH (j + 1)%Z ltac:(lia) ltac:(lia)) as (k & Hk & Hr & Hub & Hlb).
      { intros _. replace (j + 1 - 1)%Z with j by lia. exact Hlt. }
      exists k. split; [lia|]. split; [exact Hr|]. split; assumption.
    + exists j. split; [lia|]. split; [reflexivity|]. split; [exact Hge | exact Hlow].
Qed.

(** X23: for n <= 2^30, [nextPow2] returns, after at most 30 shifts, the
    least power of two that is at least n (1 for n <= 1). *)
Theorem nextPow2_least_power_of_two fuel n :
  (n <= 2 ^ 30)%Z -> (30 <= fuel)%nat ->
  exists k, (0 <= k <= 30)%Z
            /\ nextPow2 fuel n = Some (2 ^ k)%Z
            /\ (n <= 2 ^ k)%Z
            /\ (0 < k -> 2 ^ (k - 1) < n)%Z.
Proof.
  intros Hn Hfuel. unfold nextPow2. change 1%Z with (2 ^ 0)%Z at 1.
  apply nextPow2_loop_spec; [exact Hn | lia | lia | lia].
Qed.

Lemma nextPow2_least_power_of_two_witness :
  (5000 <= 2 ^ 30)%Z
  /\ exists k, (0 <= k <= 30)%Z
               /\ nextPow2 30 5000 = Some (2 ^ k)%Z
               /\ (5000 <= 2 ^ k)%Z
               /\ (0 < k -> 2 ^ (k - 1) < 5000)%Z.
Proof.
  assert (Hn : (5000 <= 2 ^ 30)%Z) by discriminate.
  split; [exact Hn|].
  exact (nextPow2_least_power_of_two 30 5000 Hn (le_n 30)).
Defined.

(** Past 2^30 the shift leaves the positive numbers: 2^30 << 1 is -2^31,
    and -2^31 << 1 is 0, which the shift keeps. *)
Lemma nextPow2_loop_stuck n : (2 ^ 30 < n)%Z ->
  forall fuel p,
    ((exists j, (0 <= j <= 30)%Z /\ p = (2 ^ j)%Z) \/ p = (- 2 ^ 31)%Z \/ p = 0%Z) ->
    nextPow2_loop fuel p n = None.
Proof.
  intros Hn. induction fuel as [|fuel IH]; intros p Hp; cbn [nextPow2_loop].
  - destruct (Z.ltb_spec p n) as [_|Hge]; [reflexivity|].
    destruct Hp as [(j & Hj & ->)|[->| ->]]; try (change (2 ^ 31)%Z with 2147483648%Z in *;
      change (2 ^ 30)%Z with 1073741824%Z in *; lia).
    assert ((2 ^ j <= 2 ^ 30)%Z) by (apply Z.pow_le_mono_r; lia). lia.
  - destruct (Z.ltb_spec p n) as [_|Hge].
    + apply IH. destruct Hp as [(j & Hj & ->)|[->| ->]].
      * destruct (Z_lt_le_dec j 30) as [Hlt|Hge].
        -- left. exists (j + 1)%Z. split; [lia|]. apply shl_one_pow2. lia.
        -- assert (j = 30%Z) by lia. subst j. right. left. reflexivity.
      * right. right. reflexivity.
      * right. right. reflexivity.
    + destruct Hp as [(j & Hj & ->)|[->| ->]]; try (change (2 ^ 31)%Z with 2147483648%Z in *;
        change (2 ^ 30)%Z with 1073741824%Z in *; lia).
      assert ((2 ^ j <= 2 ^ 30)%Z) by (apply Z.pow_le_mono_r; lia). lia.
Qed.

(** X24: for n > 2^30 the loop of [nextPow2] never ends: the 32-bit shift
    takes 2^30 to -2^31 and then to 0, which stays below n. *)
Theorem nextPow2_never_returns_past_2_30 fuel n :
  (2 ^ 30 < n)%Z -> nextPow2 fuel n = None.
Proof.
  intros Hn. apply nextPow2_loop_stuck; [exact Hn|].
  left. exists 0%Z. split; [lia | reflexivity].
Qed.

Lemma nextPow2_never_returns_past_2_30_witness :
  nextPow2 1000 1073741825 = None.
Proof. apply nextPow2_never_returns_past_2_30. reflexivity. Defined.

Lemma pow2_between (k : Z) (lo hi : Z) (a b : Z) :
  (0 <= k)%Z -> (0 <= a)%Z -> (0 <= b)%Z -> (2 ^ a < lo)%Z -> (hi <= 2 ^ b)%Z ->
  (lo <= 2 ^ k)%Z -> (0 < k -> 2 ^ (k - 1) < hi)%Z ->
  (a < k <= b)%Z.
Proof.
  intros Hk Ha Hb Hlo Hhi Hub Hlb. split.
  - apply (Z.pow_lt_mono_r_iff 2); lia.
  - destruct (Z_le_gt_dec k b) as [H|H]; [exact H|].
    assert (2 ^ b <= 2 ^ (k - 1))%Z by (apply Z.pow_le_mono_r; lia).
    specialize (Hlb ltac:(lia)). lia.
Qed.

(** X25: the frame size of the analysis is 2048, 4096 or 8192, at least
    min(8192, max(2048, minFrame)); it exceeds 2 * tauMax, as YIN needs,
    whenever 2 * tauMax + 4 <= 8192. *)
Theorem frame_size_choice fuel sr :
  (30 <= fuel)%nat ->
  exists fs,
    frameSize fuel sr = Some fs
    /\ (fs = 2048 \/ fs = 4096 \/ fs = 8192)%Z
    /\ (Z.min 8192 (Z.max 2048 (minFrame sr)) <= fs)%Z
    /\ (2 * tauMax sr + 4 <= 8192 -> 2 * tauMax sr < fs)%Z.
Proof.
  intros Hfuel. unfold frameSize.
  set (m := Z.min 8192 (Z.max 2048 (minFrame sr))).
  assert (Hm : (2048 <= m <= 8192)%Z) by (unfold m; lia).
  destruct (nextPow2_loop_spec m ltac:(change (2 ^ 30)%Z with 1073741824%Z; lia)
              fuel 0 ltac:(lia) ltac:(lia) ltac:(lia))
    as (k & Hk & Hr & Hub & Hlb).
  exists (2 ^ k)%Z. split; [exact Hr|].
  assert (Hk' : (10 < k <= 13)%Z).
  { apply (pow2_between k m m 10 13);
      [lia | lia | lia | change (2 ^ 10)%Z with 1024%Z; lia
       | change (2 ^ 13)%Z with 8192%Z; lia | exact Hub | exact Hlb]. }
  assert (Hcase : k = 11%Z \/ k = 12%Z \/ k = 13%Z) by lia.
  split; [|split; [exact Hub|]].
  - destruct Hcase as [->|[->| ->]]; [left | right; left | right; right]; reflexivity.
  - intros Hsmall. unfold m, minFrame in Hub. lia.
Qed.

Lemma frame_size_choice_witness :
  frameSize 30 96000 = Some 4096%Z
  /\ exists fs,
       frameSize 30 96000 = Some fs
       /\ (fs = 2048 \/ fs = 4096 \/ fs = 8192)%Z
       /\ (Z.min 8192 (Z.max 2048 (minFrame 96000)) <= fs)%Z
       /\ (2 * tauMax 96000 + 4 <= 8192 -> 2 * tauMax 96000 < fs)%Z.
Proof.
  split; [vm_compute; reflexivity|].
  exact (frame_size_choice 30 96000 (le_n 30)).
Defined.

Lemma Qfloor_inject_div (a h : Z) :
  (0 < h)%Z -> Qfloor (inject_Z a / inject_Z h) = (a / h)%Z.
Proof.
  intros Hh. destruct h as [|h|h]; try lia.
  unfold Qdiv, Qinv, Qmult, inject_Z, Qfloor. cbn [Qnum Qden].
  rewrite Z.mul_1_r. reflexivity.
Qed.

(** X26: the hop is at least 1; every analysed frame i < nFrames lies inside
    the audio, i * hop + frameSize <= length; there is no frame exactly
    when the audio is shorter than one frame, and otherwise one more frame
    would not fit. *)
Theorem frames_fit_in_the_audio len fs sr :
  (0 < fs)%Z ->
  let n := nFrames len fs sr in
  (1 <= hop sr)%Z
  /\ (0 <= n)%Z
  /\ (n = 0 <-> len < fs)%Z
  /\ (forall i, 0 <= i < n -> i * hop sr + fs <= len)%Z
  /\ (fs <= len -> len < n * hop sr + fs)%Z.
Proof.
  intros Hfs n. unfold n, nFrames, JS.Math_floor.
  assert (Hh : (1 <= hop sr)%Z) by (unfold hop; lia).
  rewrite Qfloor_inject_div by lia.
  set (h := hop sr) in *. set (a := (len - fs)%Z).
  pose proof (Z.mul_div_le a h ltac:(lia)) as Hle.
  pose proof (Z.mul_succ_div_gt a h ltac:(lia)) as Hgt.
  split; [exact Hh|]. split; [lia|].
  destruct (Z_lt_le_dec len fs) as [Hshort|Hlong].
  - assert (Hneg : (a / h < 0)%Z) by (apply Z.div_lt_upper_bound; unfold a; lia).
    split; [split; lia|]. split; [intros i Hi; lia | lia].
  - assert (Hpos : (0 <= a / h)%Z) by (apply Z.div_pos; unfold a; lia).
    split; [split; lia|]. split.
    + intros i Hi. unfold a in *. nia.
    + intros _. unfold a in *. nia.
Qed.

Lemma frames_fit_in_the_audio_witness :
  nFrames 44100 2048 44100 = 96%Z
  /\ (95 * hop 44100 + 2048 <= 44100)%Z
  /\ (44100 < 96 * hop 44100 + 2048)%Z.
Proof.
  destruct (frames_fit_in_the_audio 44100 2048 44100 eq_refl)
    as (_ & _ & _ & Hfit & Hmax).
  split; [vm_compute; reflexivity|]. split.
  - apply (Hfit 95%Z). vm_compute. split; [discriminate | reflexivity].
  - apply Hmax. discriminate.
Defined.

(** * The MIDI export *)

Lemma mod_of_to_int32 z (m : Z) :
  (0 < m)%Z -> (m | JS.two32)%Z -> (JS.to_int32 z mod m = z mod m)%Z.
Proof.
  intros Hm Hdiv.
  rewrite <- (Z.mod_mod_divide (JS.to_int32 z) JS.two32 m) by exact Hdiv.
  rewrite to_int32_mod. apply Z.mod_mod_divide. exact Hdiv.
Qed.

Lemma and_low_bits x (k : Z) :
  (0 <= k <= 31)%Z -> JS.and x (Z.ones k) = (x mod 2 ^ k)%Z.
Proof.
  intros Hk. unfold JS.and.
  assert (Hones : (0 <= Z.ones k < JS.two31)%Z).
  { rewrite Z.ones_equiv. unfold JS.two31.
    assert (2 ^ k <= 2 ^ 31)%Z by (apply Z.pow_le_mono_r; lia).
    assert (0 < 2 ^ k)%Z by (apply Z.pow_pos_nonneg; lia).
    change (2 ^ 31)%Z with 2147483648%Z in *. lia. }
  rewrite (to_int32_small (Z.ones k)) by (unfold JS.two31 in *; lia).
  rewrite Z.land_ones by lia.
  apply mod_of_to_int32; [apply Z.pow_pos_nonneg; lia|].
  exists (2 ^ (32 - k))%Z. rewrite <- Z.pow_add_r by lia.
  replace (32 - k + k)%Z with 32%Z by lia. reflexivity.
Qed.

Lemma shru_7 v : (0 <= v < JS.two32)%Z -> JS.shru v 7 = (v / 128)%Z.
Proof.
  intros Hv. unfold JS.shru, JS.to_uint32. change (Z.land 7 31) with 7%Z.
  rewrite Z.mod_small by exact Hv. apply Z.shiftr_div_pow2. lia.
Qed.

Lemma shru_0 n : JS.shru n 0 = JS.to_uint32 n.
Proof. unfold JS.shru. change (Z.land 0 31) with 0%Z. apply Z.shiftr_0_r. Qed.

(** The loop of [varint]: the groups of seven bits, least significant
    first. *)
Lemma varint_loop_spec : forall (m fuel : nat) v acc,
  (0 < m <= fuel)%nat -> (0 <= v < 128 ^ Z.of_nat m)%Z -> (v < JS.two32)%Z ->
  exists gs,
    varint_loop fuel v acc = Some (acc ++ gs)
    /\ (1 <= length gs <= m)%nat
    /\ Forall (fun g => 0 <= g < 128)%Z gs
    /\ foldr (fun g a => (a * 128 + g)%Z) 0%Z gs = v.
Proof.
  induction m as [|m IH]; intros fuel v acc Hm Hv Hv32; [lia|].
  destruct fuel as [|fuel]; [lia|]. cbn [varint_loop].
  change 127%Z with (Z.ones 7). rewrite and_low_bits by lia.
  rewrite shru_7 by lia. change (2 ^ 7)%Z with 128%Z.
  pose proof (Z.mod_pos_bound v 128 ltac:(lia)) as Hg.
  pose proof (Z.div_mod v 128 ltac:(lia)) as Hdm.
  assert (Hq : (0 <= v / 128)%Z) by (apply Z.div_pos; lia).
  destruct (Z.ltb_spec 0 (v / 128)) as [Hmore|Hdone].
  - assert (Hq' : (v / 128 < 128 ^ Z.of_nat m)%Z).
    { apply Z.div_lt_upper_bound; [lia|].
      rewrite Nat2Z.inj_succ, Z.pow_succ_r in Hv by lia. lia. }
    assert (Hm0 : (0 < m)%nat).
    { destruct m; [|lia]. change (128 ^ Z.of_nat 0)%Z with 1%Z in Hq'. lia. }
    destruct (IH fuel (v / 128)%Z (acc ++ [v mod 128])%Z ltac:(lia) ltac:(lia)
                ltac:(unfold JS.two32 in *; lia))
      as (gs & Hr & Hlen & Hall & Hval).
    exists ((v mod 128)%Z :: gs). rewrite Hr, <- app_assoc. cbn [app length foldr].
    split; [reflexivity|]. split; [lia|]. split; [constructor; assumption|].
    rewrite Hval. lia.
  - exists [(v mod 128)%Z]. cbn [length foldr].
    split; [reflexivity|]. split; [lia|].
    split; [constructor; [exact Hg | constructor]|]. lia.
Qed.

Lemma JS_or_128 g : (0 <= g < 128)%Z -> JS_or g 128 = (g + 128)%Z.
Proof.
  intros Hg. unfold JS_or.
  rewrite !to_int32_small by (unfold JS.two31; lia).
  symmetry. apply Z.add_nocarry_lor.
  rewrite <- (Z.mod_small g 128) by lia.
  change 128%Z with (2 ^ 7)%Z at 1. rewrite <- Z.land_ones by lia.
  rewrite <- Z.land_assoc. change (Z.land (Z.ones 7) 128) with 0%Z.
  apply Z.land_0_r.
Qed.

Lemma land_127_cont g : (0 <= g < 128)%Z -> Z.land (g + 128) 127 = g.
Proof.
  intros Hg. change 127%Z with (Z.ones 7). rewrite Z.land_ones by lia.
  change (2 ^ 7)%Z with 128%Z.
  replace (g + 128)%Z with (g + 1 * 128)%Z by lia.
  rewrite Z.mod_add by lia. apply Z.mod_small. exact Hg.
Qed.

Lemma land_127_last g : (0 <= g < 128)%Z -> Z.land g 127 = g.
Proof.
  intros Hg. change 127%Z with (Z.ones 7). rewrite Z.land_ones by lia.
  apply Z.mod_small. exact Hg.
Qed.

Lemma vlq_value_continued : forall rest tail,
  Forall (fun g => 0 <= g < 128)%Z rest ->
  vlq_value (rev (map (fun g => g + 128)%Z rest) ++ tail)
  = foldl (fun acc b => (acc * 128 + Z.land b 127)%Z)
          (foldr (fun g a => (a * 128 + g)%Z) 0%Z rest) tail.
Proof.
  induction rest as [|g rest IH]; intros tail Hall; [reflexivity|].
  inversion Hall as [|? ? Hg Hrest]; subst.
  cbn [map rev foldr]. rewrite <- app_assoc. cbn [app].
  rewrite IH by exact Hrest. cbn [foldl].
  rewrite land_127_cont by exact Hg. reflexivity.
Qed.

Lemma imap_continuation (gs : list Z) :
  imap (fun i b => if (0 <? i)%nat then JS_or b 128 else b) gs
  = match gs with
    | [] => []
    | g0 :: rest => g0 :: map (fun b => JS_or b 128) rest
    end.
Proof.
  destruct gs as [|g0 rest]; [reflexivity|].
  cbn [imap]. f_equal. unfold compose.
  induction rest as [|g rest IH]; [reflexivity|].
  cbn [imap map]. f_equal. exact IH.
Qed.

(** X27: [varint(n)] is a variable-length quantity of 1 to 5 bytes: every
    byte but the last is in [128, 256), the last is below 128, and the
    seven-bit groups, most significant first, spell n >>> 0. *)
Theorem varint_round_trip fuel n :
  (5 <= fuel)%nat ->
  exists hi lo,
    varint fuel n = Some (hi ++ [lo])
    /\ Forall (fun b => 128 <= b < 256)%Z hi
    /\ (0 <= lo < 128)%Z
    /\ (length hi <= 4)%nat
    /\ vlq_value (hi ++ [lo]) = JS.to_uint32 n.
Proof.
  intros Hfuel. unfold varint. rewrite shru_0.
  pose proof (to_uint32_range n) as Hv.
  destruct (varint_loop_spec 5 fuel (JS.to_uint32 n) [] ltac:(lia)
              ltac:(unfold JS.two32 in Hv; change (128 ^ Z.of_nat 5)%Z with 34359738368%Z; lia)
              ltac:(lia))
    as (gs & Hr & Hlen & Hall & Hval).
  rewrite Hr. cbn [app mbind option_bind]. rewrite imap_continuation.
  destruct gs as [|g0 rest]; [cbn in Hlen; lia|].
  inversion Hall as [|? ? Hg0 Hrest]; subst.
  assert (Hmap : map (fun b => JS_or b 128) rest = map (fun g => g + 128)%Z rest).
  { apply Forall_fmap_ext_1. eapply Forall_impl; [exact Hrest|].
    intros g Hg. apply JS_or_128. exact Hg. }
  rewrite Hmap. cbn [rev]. rewrite map_app. cbn [map].
  assert (Hhi : Forall (fun b => 128 <= b < 256)%Z
                  (rev (map (fun g => g + 128)%Z rest))).
  { apply Forall_rev, Forall_fmap. eapply Forall_impl; [exact Hrest|].
    cbn. intros g Hg. lia. }
  assert (Hid : map to_uint8 (rev (map (fun g => g + 128)%Z rest))
                = rev (map (fun g => g + 128)%Z rest)).
  { rewrite <- (map_id (rev _)) at 2. apply Forall_fmap_ext_1.
    eapply Forall_impl; [exact Hhi|]. intros b Hb. cbn beta in Hb.
    unfold to_uint8. apply Z.mod_small. lia. }
  rewrite Hid. unfold to_uint8 at 1. rewrite (Z.mod_small g0) by lia.
  exists (rev (map (fun g => g + 128)%Z rest)), g0.
  split; [reflexivity|]. split; [exact Hhi|]. split; [exact Hg0|]. split.
  - rewrite length_rev, length_map. cbn [length] in Hlen. lia.
  - rewrite vlq_value_continued by exact Hrest. cbn [foldl].
    rewrite land_127_last by exact Hg0. exact Hval.
Qed.

Lemma varint_round_trip_witness :
  varint 5 300 = Some [130; 44]%Z
  /\ exists hi lo,
       varint 5 300 = Some (hi ++ [lo])
       /\ Forall (fun b => 128 <= b < 256)%Z hi
       /\ (0 <= lo < 128)%Z
       /\ (length hi <= 4)%nat
       /\ vlq_value (hi ++ [lo]) = JS.to_uint32 300.
Proof.
  split; [vm_compute; reflexivity|].
  exact (varint_round_trip 5 300 (le_n 5)).
Defined.

Lemma and_255 x : JS.and x 255 = (x mod 256)%Z.
Proof. change 255%Z with (Z.ones 8). apply and_low_bits. lia. Qed.

Lemma shr_div x k : (0 <= k <= 31)%Z -> JS.shr x k = (JS.to_int32 x / 2 ^ k)%Z.
Proof.
  intros Hk. unfold JS.shr.
  replace (Z.land k 31) with k.
  - apply Z.shiftr_div_pow2. lia.
  - change 31%Z with (Z.ones 5). rewrite Z.land_ones by lia.
    symmetry. apply Z.mod_small. change (2 ^ 5)%Z with 32%Z. lia.
Qed.

Lemma u24_value n : be_value (u24 n) = (n mod 16777216)%Z.
Proof.
  unfold u24, be_value. cbn [foldl].
  rewrite !and_255, !shr_div by lia.
  change (2 ^ 16)%Z with (256 * 256)%Z. change (2 ^ 8)%Z with 256%Z.
  set (t := JS.to_int32 n).
  rewrite <- (mod_of_to_int32 n 16777216) by (try lia; exists 256%Z; reflexivity).
  fold t.
  rewrite <- (mod_of_to_int32 n 256) by (try lia; exists 16777216%Z; reflexivity).
  fold t.
  change 16777216%Z with (256 * (256 * 256))%Z.
  rewrite (Z.rem_mul_r t 256 (256 * 256)) by lia.
  rewrite (Z.rem_mul_r (t / 256) 256 256) by lia.
  rewrite Z.div_div by lia.
  lia.
Qed.

Lemma usPerQuarter_range bpm :
  (4 <= bpm -> (0 <= usPerQuarter bpm <= 15000000)%Z)
  /\ (bpm <= 3 -> (20000000 <= usPerQuarter bpm)%Z).
Proof.
  unfold usPerQuarter, JS.Math_round, JS.Math_max. split; intros Hb.
  - destruct (Qle_bool bpm 1) eqn:E; [apply Qle_bool_iff in E; lra|].
    assert (Hq : 60000000 / bpm <= 15000000) by (apply Qle_shift_div_r; lra).
    assert (Hq0 : 0 <= 60000000 / bpm) by (apply Qle_shift_div_l; lra).
    set (x := 60000000 / bpm) in *.
    split.
    + change 0%Z with (Qfloor 0). apply Qfloor_resp_le. lra.
    + change 15000000%Z with (Qfloor (15000000 + 0.5)).
      apply Qfloor_resp_le. lra.
  - assert (Hm : exists m, (if Qle_bool bpm 1 then 1 else bpm) = m /\ 1 <= m /\ m <= 3).
    { destruct (Qle_bool bpm 1) eqn:E.
      - exists 1. split; [reflexivity | lra].
      - exists bpm. split; [reflexivity|]. split; [|exact Hb].
        apply Qle_bool_false in E. lra. }
    destruct Hm as (m & -> & Hm1 & Hm3).
    assert (Hq : 20000000 <= 60000000 / m) by (apply Qle_shift_div_l; lra).
    set (x := 60000000 / m) in *.
    change 20000000%Z with (Qfloor 20000000).
    apply Qfloor_resp_le. lra.
Qed.

(** X28: the three bytes of [u24(n)] spell n modulo 2^24, most significant
    byte first; the tempo of [exportMidi] is written exactly for
    bpm >= 4 and is truncated for bpm <= 3, where the microseconds per
    quarter note no longer fit 24 bits. *)
Theorem tempo_bytes n :
  be_value (u24 n) = (n mod 16777216)%Z
  /\ Forall (fun b => 0 <= b < 256)%Z (u24 n)
  /\ (forall bpm, 4 <= bpm ->
        be_value (u24 (usPerQuarter bpm)) = usPerQuarter bpm)
  /\ (forall bpm, bpm <= 3 ->
        be_value (u24 (usPerQuarter bpm)) <> usPerQuarter bpm).
Proof.
  split; [apply u24_value|]. split.
  - unfold u24. rewrite !and_255.
    repeat constructor; apply Z.mod_pos_bound; lia.
  - split; intros bpm Hb; rewrite u24_value.
    + destruct (usPerQuarter_range bpm) as [H _]. specialize (H Hb).
      apply Z.mod_small. lia.
    + destruct (usPerQuarter_range bpm) as [_ H]. specialize (H Hb).
      pose proof (Z.mod_pos_bound (usPerQuarter bpm) 16777216 eq_refl). lia.
Qed.

Lemma tempo_bytes_witness :
  u24 (usPerQuarter 120) = [7; 161; 32]%Z
  /\ be_value (u24 (usPerQuarter 120)) = usPerQuarter 120
  /\ be_value (u24 (usPerQuarter 3)) <> usPerQuarter 3.
Proof.
  destruct (tempo_bytes 0) as (_ & _ & Hfast & Hslow).
  split; [vm_compute; reflexivity|].
  split; [apply Hfast | apply Hslow]; discriminate.
Defined.

(** ** Quantized and cleaned notes *)

Lemma Math_round_near x :
  inject_Z (JS.Math_round x) - x <= 0.5 /\ - 0.5 < inject_Z (JS.Math_round x) - x.
Proof.
  unfold JS.Math_round.
  pose proof (Qfloor_le (x + 0.5)) as H1.
  pose proof (Qlt_floor (x + 0.5)) as H2.
  rewrite inject_Z_plus in H2. change (inject_Z 1) with 1 in H2.
  split; lra.
Qed.

Lemma Math_max_cases a b :
  (JS.Math_max a b = a /\ b <= a) \/ (JS.Math_max a b = b /\ a < b).
Proof.
  unfold JS.Math_max. destruct (Qle_bool b a) eqn:E.
  - left. split; [reflexivity | apply Qle_bool_iff; exact E].
  - right. split; [reflexivity | apply Qle_bool_false; exact E].
Qed.

Lemma quantized_time_near step t :
  0 < step ->
  let k := JS.Math_round (t / step) in
  inject_Z k * step - t <= step / 2 /\ - (step / 2) <= inject_Z k * step - t.
Proof.
  intros Hstep k.
  pose proof (Math_round_near (t / step)) as [R1 R2]. fold k in R1, R2.
  assert (Hx : t == t / step * step) by (field; lra).
  set (x := t / step) in *.
  assert (Hd : inject_Z k * step - t == (inject_Z k - x) * step)
    by (rewrite Hx at 1; ring).
  assert (Hh : step / 2 == 0.5 * step) by (field).
  rewrite Hd, Hh. split; nra.
Qed.

(** X29: for a known grid and bpm > 0, [quantizeNotes] keeps the number of
    notes, their pitch and velocity, puts every start on a multiple of
    step = 60 / bpm * 4 / denom at most step / 2 away from where it was,
    and every end on a later multiple of the step. *)
Theorem quantized_notes_on_the_grid notes grid bpm denom :
  0 < bpm -> gridToDenom grid = Some denom ->
  let step := 60 / bpm * (4 / denom) in
  0 < step
  /\ length (quantizeNotes notes grid bpm) = length notes
  /\ forall i n, notes !! i = Some n ->
       exists n' (kOn kOff : Z),
         quantizeNotes notes grid bpm !! i = Some n'
         /\ pitch n' = pitch n /\ velocity n' = velocity n
         /\ tOn n' = inject_Z kOn * step
         /\ tOff n' == inject_Z kOff * step
         /\ (kOn < kOff)%Z
         /\ tOn n' - tOn n <= step / 2 /\ - (step / 2) <= tOn n' - tOn n.
Proof.
  intros Hbpm Hgrid step.
  assert (Hden : 0 < denom).
  { destruct grid; cbn in Hgrid; try discriminate;
      injection Hgrid as <-; reflexivity. }
  assert (Hstep : 0 < step).
  { unfold step, Qdiv.
    assert (0 < / bpm) by (apply Qinv_lt_0_compat; exact Hbpm).
    assert (0 < / denom) by (apply Qinv_lt_0_compat; exact Hden).
    nra. }
  unfold quantizeNotes. rewrite Hgrid. fold step.
  split; [exact Hstep|]. split; [apply length_map|].
  intros i n Hn.
  set (f := fun n : Note =>
              mkNote (pitch n) (inject_Z (JS.Math_round (tOn n / step)) * step)
                (JS.Math_max (inject_Z (JS.Math_round (tOn n / step)) * step + step)
                   (inject_Z (JS.Math_round (tOff n / step)) * step))
                (velocity n)).
  set (kOn := JS.Math_round (tOn n / step)).
  set (kOff := JS.Math_round (tOff n / step)).
  pose proof (quantized_time_near step (tOn n) Hstep) as Hnear.
  cbv zeta in Hnear. fold kOn in Hnear.
  destruct (Math_max_cases (inject_Z kOn * step + step) (inject_Z kOff * step))
    as [[Hmax Hle]|[Hmax Hlt]].
  - exists (mkNote (pitch n) (inject_Z kOn * step)
              (JS.Math_max (inject_Z kOn * step + step) (inject_Z kOff * step))
              (velocity n)), kOn, (kOn + 1)%Z.
    split; [exact (list_lookup_fmap_Some_2 f notes i n Hn)|].
    cbn [pitch velocity tOn tOff].
    split; [reflexivity|]. split; [reflexivity|]. split; [reflexivity|].
    split; [rewrite Hmax, inject_Z_plus; change (inject_Z 1) with 1; ring|].
    split; [lia | exact Hnear].
  - exists (mkNote (pitch n) (inject_Z kOn * step)
              (JS.Math_max (inject_Z kOn * step + step) (inject_Z kOff * step))
              (velocity n)), kOn, kOff.
    split; [exact (list_lookup_fmap_Some_2 f notes i n Hn)|].
    cbn [pitch velocity tOn tOff].
    split; [reflexivity|]. split; [reflexivity|]. split; [reflexivity|].
    split; [rewrite Hmax; reflexivity|].
    split; [|exact Hnear].
    assert (Hk : inject_Z kOn < inject_Z kOff) by nra.
    rewrite <- Zlt_Qlt in Hk. exact Hk.
Qed.

Lemma quantized_notes_on_the_grid_witness :
  quantizeNotes [mkNote 60 0.26 0.3 None] Grid_16 120
  = [mkNote 60 (inject_Z 2 * (60 / 120 * (4 / 16)))
       (JS.Math_max (inject_Z 2 * (60 / 120 * (4 / 16)) + 60 / 120 * (4 / 16))
          (inject_Z 2 * (60 / 120 * (4 / 16)))) None]
  /\ 0 < 60 / 120 * (4 / 16)
  /\ length (quantizeNotes [mkNote 60 0.26 0.3 None] Grid_16 120) = 1%nat.
Proof.
  destruct (quantized_notes_on_the_grid [mkNote 60 0.26 0.3 None] Grid_16 120 16
              eq_refl eq_refl) as (Hstep & Hlen & _).
  split; [reflexivity|]. split; [exact Hstep | exact Hlen].
Defined.

(** X30: the last loop of [segmentToMidi], with dur = s1 - s0 >= 0: every
    note starts within [0, dur], ends at least 0.001 s after its start,
    and gets a velocity in [0.01, 1]; the end is within dur when
    start + 0.001 is, and is start + 0.001, past the segment, otherwise. *)
Theorem cleaned_note_times start end_ duration n :
  let s0 := segment_s0 start duration in
  let s1 := segment_s1 start end_ duration in
  let dur := s1 - s0 in
  let n' := clean_note dur n in
  0 <= s0 /\ s0 <= s1 /\ 0 <= dur
  /\ pitch n' = pitch n
  /\ (0 <= tOn n' /\ tOn n' <= dur)
  /\ tOn n' + 0.001 <= tOff n'
  /\ (tOn n' + 0.001 <= dur -> tOff n' <= dur)
  /\ (dur < tOn n' + 0.001 -> tOff n' = tOn n' + 0.001)
  /\ exists v, velocity n' = Some v /\ 0.01 <= v /\ v <= 1.
Proof.
  intros s0 s1 dur n'.
  assert (H0 : 0 <= s0) by apply Math_max_lb.
  assert (H1 : s0 <= s1) by apply Math_max_lb.
  assert (Hd : 0 <= dur) by (unfold dur; lra).
  split; [exact H0|]. split; [exact H1|]. split; [exact Hd|].
  split; [reflexivity|].
  unfold n', clean_note. cbn [tOn tOff velocity].
  pose proof (clamp_range (tOn n) 0 dur Hd) as Hon.
  set (on := clamp (tOn n) 0 dur) in *.
  split; [exact Hon|].
  assert (Hlb : on + 0.001 <= clamp (tOff n) (on + 0.001) dur)
    by (unfold clamp; apply Math_max_lb).
  split; [exact Hlb|]. split; [|split].
  - intros Hfit. apply clamp_range. exact Hfit.
  - intros Hover. unfold clamp. apply Math_max_l.
    unfold JS.Math_min. destruct (Qle_bool dur (tOff n)) eqn:E; [exact Hover|].
    apply Qle_bool_false in E. lra.
  - eexists. split; [reflexivity|]. apply clamp_range. lra.
Qed.
